(** * Manpasik prescription engine (prescription-rl.py): a shallow embedding

    The decision and learning control logic of
    [bio-dashboard/src/lib/omni-brain/prescription-rl.py] is embedded as Rocq
    functions, one per Python function, with the Python names.

    Conventions of the embedding:
    - Python [int] is [Z]; [len] and list positions are [nat];
    - Python and NumPy floating-point numbers are idealised as real numbers
      ([R]): rounding, overflow and signed zeros are not modelled.  A NumPy
      NaN is an absent value ([None]).  The float32 tensor arithmetic of
      the target-network update is the exception: each of its operations
      is rounded to the nearest binary32 number ([float32]);
    - a Python call either returns a value or raises: [Py.result];
    - a method call that can raise after it has changed its object is a
      function from the object to the object it leaves behind and the
      outcome of the call: [Call.t];
    - the outcome of a call to the random number generator is an explicit
      argument of the function that draws it;
    - the neural networks are opaque functions (variables of a section). *)

From Stdlib Require Import ZArith List String Ascii DecimalString Bool Lia Sorted.
From Stdlib Require Import Reals Lra.
Import ListNotations.

Set Implicit Arguments.

(** ** Python results and exceptions *)

Module Py.

(** The built-in exceptions the embedded code can raise. *)
Inductive exn : Set :=
| UnboundLocalError
| IndexError
| ZeroDivisionError
| ValueError
| TypeError
| RuntimeError.

Definition exn_name (e : exn) : string :=
  match e with
  | UnboundLocalError => "UnboundLocalError"
  | IndexError => "IndexError"
  | ZeroDivisionError => "ZeroDivisionError"
  | ValueError => "ValueError"
  | TypeError => "TypeError"
  | RuntimeError => "RuntimeError"
  end.

Inductive result (A : Type) : Type :=
| Ok (a : A)
| Raise (e : exn).

Arguments Ok {A} a.
Arguments Raise {A} e.

Definition bind {A B : Type} (m : result A) (k : A -> result B) : result B :=
  match m with
  | Ok a => k a
  | Raise e => Raise e
  end.

(** [raises_named m s]: the call fails with an exception whose class is
    called [s]. *)
Definition raises_named {A : Type} (m : result A) (s : string) : Prop :=
  exists e, m = Raise e /\ exn_name e = s.

Definition succeeds {A : Type} (m : result A) : Prop :=
  exists a, m = Ok a.

End Py.

Import Py.

Declare Scope py_scope.
Delimit Scope py_scope with py.
Notation "x <- m ;; k" := (Py.bind m (fun x => k))
  (at level 61, m at next level, right associativity) : py_scope.
Notation "' pat <- m ;; k" := (Py.bind m (fun x => match x with pat => k end))
  (at level 61, pat pattern, m at next level, right associativity) : py_scope.

(** ** Method calls on a mutable object *)

Module Call.

(** A call on an object of state [S]: the state the call leaves behind,
    whether it returns or raises, and its outcome. *)
Definition t (S A : Type) : Type := S -> S * Py.result A.

Definition ret {S A : Type} (a : A) : t S A := fun s => (s, Py.Ok a).

(** Sequencing: the statements after one that raises are not executed,
    and the state is the one the raising statement found. *)
Definition bind {S A B : Type} (m : t S A) (k : A -> t S B) : t S B :=
  fun s =>
    match m s with
    | (s', Py.Ok a) => k a s'
    | (s', Py.Raise e) => (s', Py.Raise e)
    end.

Definition get {S : Type} : t S S := fun s => (s, Py.Ok s).

(** An assignment to an attribute. *)
Definition modify {S : Type} (f : S -> S) : t S unit :=
  fun s => (f s, Py.Ok tt).

(** An expression that changes nothing and may raise. *)
Definition lift {S A : Type} (r : Py.result A) : t S A := fun s => (s, r).

(** A call on an attribute of the object. *)
Definition on {S S' A : Type} (project : S -> S') (update : S -> S' -> S)
    (m : t S' A) : t S A :=
  fun s => let (s', r) := m (project s) in (update s s', r).

End Call.

Declare Scope call_scope.
Delimit Scope call_scope with call.
Notation "x <- m ;; k" := (Call.bind m (fun x => k))
  (at level 61, m at next level, right associativity) : call_scope.
Notation "' pat <- m ;; k" :=
  (Call.bind m (fun x => match x with pat => k end))
  (at level 61, pat pattern, m at next level, right associativity) : call_scope.

(** [str(n)] for a Python integer. *)
Definition str_int (z : Z) : string := NilZero.string_of_int (Z.to_int z).

(** [random.choice(seq)] on a non-empty sequence: [rnd] is the number the
    generator produced. *)
Definition random_choice {A : Type} (rnd : nat) (seq : list A) (d : A) : A :=
  nth (rnd mod List.length seq) seq d.

(** ** Configuration *)

Record RLConfig : Type := {
  signal_dim : Z;
  history_length : Z;
  user_profile_dim : Z;
  num_nutrients : Z;
  num_exercises : Z;
  num_sleep_patterns : Z;
  num_lifestyle : Z;
  hidden_dim : Z;
  num_attention_heads : Z;
  dropout : R;
  batch_size : Z;
  learning_rate : R;
  gamma : R;
  tau : R;
  signal_improvement_weight : R;
  subjective_condition_weight : R;
  adherence_bonus_weight : R;
  epsilon_start : R;
  epsilon_end : R;
  epsilon_decay : R;
  memory_size : Z
}.

(** [RLConfig()] with every default. *)
Definition default_config : RLConfig := {|
  signal_dim := 256;
  history_length := 7;
  user_profile_dim := 64;
  num_nutrients := 50;
  num_exercises := 20;
  num_sleep_patterns := 10;
  num_lifestyle := 30;
  hidden_dim := 512;
  num_attention_heads := 8;
  dropout := 1 / 10;
  batch_size := 32;
  learning_rate := 3 / 10000;
  gamma := 99 / 100;
  tau := 5 / 1000;
  signal_improvement_weight := 6 / 10;
  subjective_condition_weight := 3 / 10;
  adherence_bonus_weight := 1 / 10;
  epsilon_start := 1;
  epsilon_end := 1 / 100;
  epsilon_decay := 995 / 1000;
  memory_size := 100000
|}.

(** ** Action space *)

Inductive ActionType : Set := NUTRIENT | EXERCISE | SLEEP | LIFESTYLE.

Definition ActionType_value (t : ActionType) : string :=
  match t with
  | NUTRIENT => "nutrient"
  | EXERCISE => "exercise"
  | SLEEP => "sleep"
  | LIFESTYLE => "lifestyle"
  end.

(** [list(ActionType)]: the members in definition order. *)
Definition ActionType_members : list ActionType :=
  [NUTRIENT; EXERCISE; SLEEP; LIFESTYLE].

Definition ActionType_eqb (a b : ActionType) : bool :=
  match a, b with
  | NUTRIENT, NUTRIENT | EXERCISE, EXERCISE
  | SLEEP, SLEEP | LIFESTYLE, LIFESTYLE => true
  | _, _ => false
  end.

Record Action : Type := {
  action_type : ActionType;
  action_id : Z;
  name : string;
  dosage : option string;
  frequency : option string;
  duration : option string;
  timing : option string;
  confidence : R;
  reasoning : string
}.

Definition NUTRIENT_CATALOG : list (Z * (string * string * string * string)) :=
  [ (0, ("Magnesium Glycinate", "300mg", "daily", "before_bed"));
    (1, ("Zinc Chelate", "15mg", "daily", "with_meal"));
    (2, ("Omega-3 EPA/DHA", "1000mg", "daily", "with_meal"));
    (3, ("Vitamin D3", "2000IU", "daily", "morning"));
    (4, ("Vitamin B Complex", "1 tablet", "daily", "morning"));
    (5, ("Coenzyme Q10", "100mg", "daily", "with_meal"));
    (6, ("Probiotics", "10B CFU", "daily", "empty_stomach"));
    (7, ("Iron Bisglycinate", "25mg", "daily", "empty_stomach"));
    (8, ("Curcumin", "500mg", "twice_daily", "with_meal"));
    (9, ("Ashwagandha", "300mg", "twice_daily", "any_time")) ]%Z%string.

Definition EXERCISE_CATALOG : list (Z * (string * string * string)) :=
  [ (0, ("Yoga", "30min", "daily"));
    (1, ("HIIT", "20min", "3x_week"));
    (2, ("Walking", "45min", "daily"));
    (3, ("Swimming", "30min", "3x_week"));
    (4, ("Strength Training", "45min", "3x_week"));
    (5, ("Cycling", "30min", "daily"));
    (6, ("Stretching", "15min", "daily"));
    (7, ("Meditation", "20min", "daily")) ]%Z%string.

(** [catalog[key]] guarded by [key in catalog]. *)
Fixpoint catalog_get {V : Type} (catalog : list (Z * V)) (key : Z) : option V :=
  match catalog with
  | [] => None
  | (k, v) :: rest => if Z.eqb k key then Some v else catalog_get rest key
  end.

(** [PrescriptionAgent.action_boundaries], built in [__init__]. *)
Definition action_boundaries (config : RLConfig) : list (Z * Z) :=
  let n := num_nutrients config in
  let e := num_exercises config in
  let s := num_sleep_patterns config in
  let l := num_lifestyle config in
  [ (0, n); (n, n + e); (n + e, n + e + s); (n + e + s, n + e + s + l) ]%Z.

(** The size of the action space ([QNetwork.total_actions]). *)
Definition total_actions (config : RLConfig) : Z :=
  (num_nutrients config + num_exercises config
   + num_sleep_patterns config + num_lifestyle config)%Z.

(** The [for ... break] loop of [_idx_to_action]: the position of the first
    boundary pair holding [idx], with the local index; [None] when the loop
    ends without assigning [action_type]. *)
Fixpoint find_boundary (bounds : list (Z * Z)) (i : nat) (idx : Z)
  : option (nat * Z) :=
  match bounds with
  | [] => None
  | (start, stop) :: rest =>
      if ((start <=? idx) && (idx <? stop))%Z
      then Some (i, (idx - start)%Z)
      else find_boundary rest (S i) idx
  end.

(** [PrescriptionAgent._generate_reasoning]; [rnd] feeds [random.choice]. *)
Definition _generate_reasoning (rnd : nat) (ty : ActionType) (id : Z) : string :=
  let options :=
    match ty with
    | NUTRIENT =>
        [ "Based on your unique signal pattern, your absorption of this nutrient is optimal.";
          "Your recent biomarkers suggest a deficiency that this can address.";
          "Users with similar patterns saw significant improvement with this recommendation." ]
    | EXERCISE =>
        [ "Your Lactate Recovery Curve suggests you respond better to this exercise type.";
          "This activity level matches your current energy state from the signals.";
          "Pattern matching shows this exercise type improves your specific markers." ]
    | _ => [ "Based on your bio-signal analysis." ]
    end%string in
  random_choice rnd options EmptyString.

(** [torch.sigmoid]. *)
Definition sigmoid (x : R) : R := (1 / (1 + exp (- x)))%R.

(** [PrescriptionAgent._idx_to_action].  When no boundary pair holds [idx]
    the loop leaves [action_type] unassigned and its first use raises
    [UnboundLocalError]. *)
Definition _idx_to_action (config : RLConfig) (rnd : nat) (idx : Z) (conf : R)
  : result Action :=
  match find_boundary (action_boundaries config) 0 idx with
  | None => Raise UnboundLocalError
  | Some (i, local_idx) =>
      match nth_error ActionType_members i with
      | None => Raise IndexError
      | Some ty =>
          let '(nm, dos, freq, tim) :=
            match ty with
            | NUTRIENT =>
                match catalog_get NUTRIENT_CATALOG local_idx with
                | Some (n, d, f, t) => (n, Some d, Some f, Some t)
                | None => (("Nutrient_" ++ str_int local_idx)%string,
                           Some "standard", Some "daily", Some "any")%string
                end
            | EXERCISE =>
                match catalog_get EXERCISE_CATALOG local_idx with
                | Some (n, d, f) => (n, Some d, Some f, None)
                | None => (("Exercise_" ++ str_int local_idx)%string,
                           Some "30min", Some "daily", None)%string
                end
            | _ => ((ActionType_value ty ++ "_" ++ str_int local_idx)%string,
                    None, None, None)
            end in
          Ok {| action_type := ty;
                action_id := local_idx;
                name := nm;
                dosage := dos;
                frequency := freq;
                duration := None;
                timing := tim;
                confidence := sigmoid conf;
                reasoning := _generate_reasoning rnd ty local_idx |}
      end
  end.

(** The loop of [FeedbackDigest._action_to_idx] over [enumerate(ActionType)],
    started at position [i] with the running [offset]. *)
Fixpoint action_to_idx_loop (sizes : list Z) (members : list ActionType)
    (i : nat) (offset : Z) (action : Action) : Z :=
  match members with
  | [] => 0%Z
  | ty :: rest =>
      if ActionType_eqb (action_type action) ty
      then (offset + action_id action)%Z
      else action_to_idx_loop sizes rest (S i) (offset + nth i sizes 0)%Z action
  end.

(** [FeedbackDigest._action_to_idx]. *)
Definition _action_to_idx (config : RLConfig) (action : Action) : Z :=
  action_to_idx_loop
    [ num_nutrients config; num_exercises config;
      num_sleep_patterns config; num_lifestyle config ]
    ActionType_members 0 0%Z action.

(** ** State and transitions *)

Record State : Type := {
  current_signal : list R;
  signal_history : list (list R);
  user_profile : list R;
  health_score : R;
  biomarkers : list (string * R);
  action_history : list (Action * R);
  time_of_day : Z;
  day_of_week : Z;
  season : Z
}.

Record Transition : Type := {
  state : State;
  action : Z;
  reward : R;
  next_state : State;
  done : bool
}.

(** [d.get(key, default)] on a dictionary kept as an association list. *)
Fixpoint dict_get (d : list (string * R)) (key : string) (default : R) : R :=
  match d with
  | [] => default
  | (k, v) :: rest => if String.eqb k key then v else dict_get rest key default
  end.

(** ** Reward function *)

(** The dictionary returned by [RewardCalculator.compute]: its four keys. *)
Record RewardComponents : Type := {
  signal_improvement : R;
  subjective_improvement : R;
  adherence_bonus : R;
  total : R
}.

Open Scope R_scope.

(** [RewardCalculator._compute_signal_improvement]. *)
Definition _compute_signal_improvement (prev curr : State) : R :=
  let health_delta := health_score curr - health_score prev in
  tanh (health_delta / 10).

(** [RewardCalculator._compute_subjective_improvement]. *)
Definition _compute_subjective_improvement (prev curr : State) : R :=
  let prev_score := dict_get (biomarkers prev) "subjective_wellbeing" 50 in
  let curr_score := dict_get (biomarkers curr) "subjective_wellbeing" 50 in
  let delta := curr_score - prev_score in
  tanh (delta / 20).

(** [RewardCalculator.compute].  No statement of the body can raise. *)
Definition compute (config : RLConfig) (prev_state curr_state : State)
    (act : Action) (adherence : R) : result RewardComponents :=
  let signal_improvement := _compute_signal_improvement prev_state curr_state in
  let subjective_improvement :=
    _compute_subjective_improvement prev_state curr_state in
  let adherence_bonus := adherence * (2 / 10) in
  let total_reward :=
    signal_improvement_weight config * signal_improvement
    + subjective_condition_weight config * subjective_improvement
    + adherence_bonus_weight config * adherence_bonus in
  Ok {| signal_improvement := signal_improvement;
        subjective_improvement := subjective_improvement;
        adherence_bonus := adherence_bonus;
        total := total_reward |}.

(** ** Prioritized experience replay *)

(** A stored priority: [float ** float] is a real number, or a complex
    number when the base is negative and the exponent is not an integer. *)
Inductive pynum : Type :=
| PyReal (r : R)
| PyComplex.

(** [x ** a] on Python floats, over the reals: the [OverflowError] of a
    result beyond the largest float is outside the idealisation. *)
Definition float_pow (x a : R) : result pynum :=
  if Req_dec_T a 0 then Ok (PyReal 1)
  else if Rlt_dec 0 x then Ok (PyReal (Rpower x a))
  else if Req_dec_T x 0 then
    if Rlt_dec 0 a then Ok (PyReal 0) else Raise ZeroDivisionError
  else if Req_dec_T a (IZR (Int_part a))
    then Ok (PyReal (powerRZ x (Int_part a)))
    else Ok PyComplex.

Record PrioritizedReplayMemory : Type := {
  capacity : Z;
  alpha : R;
  memory : list Transition;
  priorities : list pynum;
  position : Z
}.

(** [PrioritizedReplayMemory(capacity, alpha)]. *)
Definition PrioritizedReplayMemory_init (capacity : Z) (alpha : R)
  : PrioritizedReplayMemory :=
  {| capacity := capacity; alpha := alpha;
     memory := []; priorities := []; position := 0 |}.

Fixpoint list_update {A : Type} (l : list A) (n : nat) (v : A) : list A :=
  match l, n with
  | [], _ => []
  | _ :: rest, O => v :: rest
  | x :: rest, S n' => x :: list_update rest n' v
  end.

(** [l[i] = v]: a negative [i] counts from the end, and a position outside
    the list raises [IndexError]. *)
Definition list_setitem {A : Type} (l : list A) (i : Z) (v : A)
  : result (list A) :=
  let n := Z.of_nat (List.length l) in
  if ((0 <=? i) && (i <? n))%Z then Ok (list_update l (Z.to_nat i) v)
  else if ((- n <=? i) && (i <? 0))%Z
    then Ok (list_update l (Z.to_nat (n + i)) v)
    else Raise IndexError.

(** [a % b] on Python integers. *)
Definition int_mod (a b : Z) : result Z :=
  if (b =? 0)%Z then Raise ZeroDivisionError else Ok (a mod b)%Z.

Local Open Scope py_scope.

(** [PrioritizedReplayMemory.push]: the store after a call that returns.
    What a call that raises leaves behind is not kept here; [push_call]
    below has it. *)
Definition push (m : PrioritizedReplayMemory) (transition : Transition)
    (priority : R) : result PrioritizedReplayMemory :=
  ' (mem, prios) <-
    (if (Z.of_nat (List.length (memory m)) <? capacity m)%Z then
       p <- float_pow priority (alpha m) ;;
       Ok (memory m ++ [transition], priorities m ++ [p])
     else
       mem <- list_setitem (memory m) (position m) transition ;;
       p <- float_pow priority (alpha m) ;;
       prios <- list_setitem (priorities m) (position m) p ;;
       Ok (mem, prios)) ;;
  pos <- int_mod (position m + 1) (capacity m) ;;
  Ok {| capacity := capacity m; alpha := alpha m;
        memory := mem; priorities := prios; position := pos |}.

(** Assignments to the attributes of a store. *)
Definition with_memory (m : PrioritizedReplayMemory) (mem : list Transition)
  : PrioritizedReplayMemory :=
  {| capacity := capacity m; alpha := alpha m;
     memory := mem; priorities := priorities m; position := position m |}.

Definition with_priorities (m : PrioritizedReplayMemory) (prios : list pynum)
  : PrioritizedReplayMemory :=
  {| capacity := capacity m; alpha := alpha m;
     memory := memory m; priorities := prios; position := position m |}.

Definition with_position (m : PrioritizedReplayMemory) (pos : Z)
  : PrioritizedReplayMemory :=
  {| capacity := capacity m; alpha := alpha m;
     memory := memory m; priorities := priorities m; position := pos |}.

(** [PrioritizedReplayMemory.push], statement by statement, with the store
    each statement leaves behind: the transition is written before the
    power [priority ** self.alpha] is evaluated, and the priority after.
    [power] is the outcome of that power, whatever it is: a value, or an
    exception ([ZeroDivisionError], and [OverflowError], which [float_pow]
    over the reals does not have). *)
Definition push_call (transition : Transition) (power : result pynum)
  : Call.t PrioritizedReplayMemory unit :=
  (self <- Call.get ;;
   _ <- (if (Z.of_nat (List.length (memory self)) <? capacity self)%Z then
           _ <- Call.modify
                  (fun m => with_memory m (memory m ++ [transition])) ;;
           p <- Call.lift power ;;
           Call.modify (fun m => with_priorities m (priorities m ++ [p]))
         else
           mem <- Call.lift
                    (list_setitem (memory self) (position self) transition) ;;
           _ <- Call.modify (fun m => with_memory m mem) ;;
           p <- Call.lift power ;;
           prios <- Call.lift
                      (list_setitem (priorities self) (position self) p) ;;
           Call.modify (fun m => with_priorities m prios)) ;;
   self <- Call.get ;;
   pos <- Call.lift (int_mod (position self + 1) (capacity self)) ;;
   Call.modify (fun m => with_position m pos))%call.

(** [len(memory)] for a [PrioritizedReplayMemory]: the class defines
    [__init__], [push], [sample] and [update_priorities] and no [__len__]
    (its sibling [ReplayMemory] does), so the built-in raises
    [TypeError]. *)
Definition PrioritizedReplayMemory_len (m : PrioritizedReplayMemory)
  : result Z :=
  Raise TypeError.

(** [np.array(self.priorities)] as a real array; [None] when an entry is
    complex. *)
Fixpoint reals_of (l : list pynum) : option (list R) :=
  match l with
  | [] => Some []
  | PyReal r :: rest =>
      match reals_of rest with
      | Some rs => Some (r :: rs)
      | None => None
      end
  | PyComplex :: _ => None
  end.

(** [ndarray.sum()]. *)
Definition np_sum (l : list R) : R := fold_right Rplus 0 l.

(** [ndarray.max()] of a non-empty array, given as head and tail. *)
Definition np_max (x : R) (rest : list R) : R := fold_left Rmax rest x.

Fixpoint has_negative (l : list R) : bool :=
  match l with
  | [] => false
  | x :: rest => if Rlt_dec x 0 then true else has_negative rest
  end.

(** [[seq[i] for i in indices]]. *)
Fixpoint getitems {A : Type} (seq : list A) (indices : list nat)
  : result (list A) :=
  match indices with
  | [] => Ok []
  | i :: rest =>
      match nth_error seq i with
      | None => Raise IndexError
      | Some x => xs <- getitems seq rest ;; Ok (x :: xs)
      end
  end.

(** [priorities / priorities.sum()] of [sample], for real priorities of
    non-zero sum (a zero sum gives NaN or infinite entries). *)
Definition probabilities_of (prios : list R) : list R :=
  map (fun p => p / np_sum prios) prios.

(** What [np.random.choice(n, batch_size, p=probabilities)] can return:
    [batch_size] positions below [n], each of positive probability. *)
Definition possible_draw (m : PrioritizedReplayMemory) (batch_size : Z)
    (draw : list nat) : Prop :=
  List.length draw = Z.to_nat batch_size /\
  forall prios, reals_of (priorities m) = Some prios ->
    Forall (fun i => (i < List.length (memory m))%nat
                     /\ 0 < nth i (probabilities_of prios) 0) draw.

(** [PrioritizedReplayMemory.sample]; [draw] is what [np.random.choice]
    returned.  Every failure of [np.random.choice] is listed in the order
    NumPy checks: an empty population, a complex [p], a [p] of another
    size, a NaN sum, a negative entry, a negative size.  [weights.max()] of
    an empty array raises [ValueError].  For a possible draw the base of
    the power is positive, where NumPy's power is [Rpower]. *)
Definition sample (m : PrioritizedReplayMemory) (batch_size : Z) (beta : R)
    (draw : list nat) : result (list Transition * list nat * list R) :=
  let pop_size := List.length (memory m) in
  if ((pop_size =? 0)%nat && negb (batch_size =? 0)%Z)%bool
  then Raise ValueError
  else
    match reals_of (priorities m) with
    | None => Raise TypeError
    | Some prios =>
        if negb (List.length prios =? pop_size)%nat then Raise ValueError
        else if Req_dec_T (np_sum prios) 0 then Raise ValueError
        else
          let probabilities := probabilities_of prios in
          if has_negative probabilities then Raise ValueError
          else if (batch_size <? 0)%Z then Raise ValueError
          else
            samples <- getitems (memory m) draw ;;
            let weights :=
              map (fun i => Rpower (INR pop_size * nth i probabilities 0)
                                   (- beta)) draw in
            match weights with
            | [] => Raise ValueError
            | w :: ws =>
                Ok (samples, draw, map (fun x => x / np_max w ws) weights)
            end
    end.

(** ** The agent *)

Record PrescriptionAgent : Type := {
  config : RLConfig;
  state_encoder_parameters : list R;
  q_network_parameters : list R;
  target_network_parameters : list R;
  agent_memory : PrioritizedReplayMemory;
  epsilon : R
}.

(** *** Rounding to binary floating-point numbers *)

Definition pow2 (e : Z) : R := powerRZ 2 e.

(** The binary exponent of a number that is not 0: the [e] with
    [2^e <= |x| < 2^(e+1)]. *)
Definition float_exponent (x : R) : Z := Zfloor (ln (Rabs x) / ln 2).

(** The integer nearest to [y], the even one of two at the same
    distance. *)
Definition nearest_even (y : R) : Z :=
  let n := Zfloor y in
  if Rlt_dec (y - IZR n) (1 / 2) then n
  else if Rlt_dec (1 / 2) (y - IZR n) then (n + 1)%Z
  else if Z.even n then n else (n + 1)%Z.

(** IEEE 754 rounding to nearest, ties to even, to the binary format of
    [prec] significant bits whose smallest positive number is [2^emin]:
    the result is a multiple of [2^e], where [e] is the exponent of the
    last significant bit of [x], and [emin] for the subnormal numbers.
    The format has no largest number here: overflow to infinity is not
    modelled. *)
Definition round_float (prec emin : Z) (x : R) : R :=
  if Req_dec_T x 0 then 0
  else
    let e := Z.max (float_exponent x - (prec - 1)) emin in
    IZR (nearest_even (x * pow2 (- e))) * pow2 e.

(** binary32, the type of the network parameters, and binary64, the type
    of a Python [float]. *)
Definition float32 (x : R) : R := round_float 24 (-149) x.
Definition float64 (x : R) : R := round_float 53 (-1074) x.

(** *** Soft update *)

(** [tau * param.data + (1 - tau) * target_param.data] for one entry of a
    parameter tensor.  [1 - tau] is a subtraction of Python floats; each
    Python float is converted to float32 when it multiplies a float32
    tensor, and the two products and the sum are float32 operations. *)
Definition soft_update_param (tau target_param param : R) : R :=
  float32 (float32 (float32 tau * param)
           + float32 (float32 (float64 (1 - tau)) * target_param)).

(** The loop of [PrescriptionAgent._soft_update] over
    [zip(target_network.parameters(), q_network.parameters())]: each paired
    target parameter is overwritten in place, one left without a partner
    is kept; the parameter tensors are flattened to their entries. *)
Fixpoint soft_update_loop (tau : R) (target online : list R) : list R :=
  match target, online with
  | target_param :: target', param :: online' =>
      soft_update_param tau target_param param
        :: soft_update_loop tau target' online'
  | _, _ => target
  end.

(** [PrescriptionAgent._soft_update]. *)
Definition _soft_update (agent : PrescriptionAgent) : PrescriptionAgent :=
  {| config := config agent;
     state_encoder_parameters := state_encoder_parameters agent;
     q_network_parameters := q_network_parameters agent;
     target_network_parameters :=
       soft_update_loop (tau (config agent))
         (target_network_parameters agent) (q_network_parameters agent);
     agent_memory := agent_memory agent;
     epsilon := epsilon agent |}.

(** The distance between the target and the online parameters: the sum of
    the absolute differences of paired parameters. *)
Fixpoint param_distance (target online : list R) : R :=
  match target, online with
  | t :: target', p :: online' => Rabs (t - p) + param_distance target' online'
  | _, _ => 0
  end.

Definition target_distance (agent : PrescriptionAgent) : R :=
  param_distance (target_network_parameters agent) (q_network_parameters agent).

(** ** The target computation of the training step *)

(** [tensor.argmax()] along a row: the position of the first maximal
    entry; [best_i] holds the best entry [best] seen before position [i]. *)
Fixpoint argmax_from (best_i : nat) (best : R) (i : nat) (row : list R) : nat :=
  match row with
  | [] => best_i
  | x :: rest =>
      if Rlt_dec best x then argmax_from i x (S i) rest
      else argmax_from best_i best (S i) rest
  end.

(** An empty row has no argmax: PyTorch raises [IndexError]. *)
Definition argmax (row : list R) : result nat :=
  match row with
  | [] => Raise IndexError
  | x :: rest => Ok (argmax_from 0%nat x 1%nat rest)
  end.

(** [rows.gather(1, indices.unsqueeze(1))]: one entry per row; a position
    outside the row raises [RuntimeError]. *)
Fixpoint gather (rows : list (list R)) (indices : list nat) : result (list R) :=
  match rows, indices with
  | row :: rows', i :: indices' =>
      match nth_error row i with
      | None => Raise RuntimeError
      | Some x => xs <- gather rows' indices' ;; Ok (x :: xs)
      end
  | _, _ => Ok []
  end.

(** [[f(x) for x in xs]] for an [f] that may raise. *)
Fixpoint map_result {A B : Type} (f : A -> result B) (xs : list A)
  : result (list B) :=
  match xs with
  | [] => Ok []
  | x :: rest => y <- f x ;; ys <- map_result f rest ;; Ok (y :: ys)
  end.

(** [tensor.float()] of a boolean. *)
Definition bool_float (b : bool) : R := if b then 1 else 0.

(** [rewards + gamma * next_q * (1 - dones.float())], entry by entry. *)
Fixpoint target_formula (gamma : R) (rewards next_q : list R) (dones : list bool)
  : list R :=
  match rewards, next_q, dones with
  | r :: rewards', q :: next_q', d :: dones' =>
      (r + gamma * q * (1 - bool_float d))
        :: target_formula gamma rewards' next_q' dones'
  | _, _, _ => []
  end.

(** Entry by entry, as far as both lists go. *)
Fixpoint map2 {A B C : Type} (f : A -> B -> C) (xs : list A) (ys : list B)
  : list C :=
  match xs, ys with
  | x :: xs', y :: ys' => f x y :: map2 f xs' ys'
  | _, _ => []
  end.

(** [tensor.mean()]. *)
Definition tensor_mean (l : list R) : R := np_sum l / INR (List.length l).

(** [torch.stack(tensors)]: an empty list raises [RuntimeError]. *)
Definition torch_stack {A : Type} (tensors : list A) : result (list A) :=
  match tensors with
  | [] => Raise RuntimeError
  | _ => Ok tensors
  end.

(** [rows.gather(1, actions.unsqueeze(1))] for a tensor of integers: as
    [gather], and a negative index raises [RuntimeError] too. *)
Definition gather_int (rows : list (list R)) (indices : list Z)
  : result (list R) :=
  if forallb (fun i => (0 <=? i)%Z) indices
  then gather rows (map Z.to_nat indices)
  else Raise RuntimeError.

(** [F.smooth_l1_loss(input, target, reduction='none')] on one entry,
    with the default [beta = 1.0]. *)
Definition smooth_l1_loss (input target : R) : R :=
  let d := Rabs (input - target) in
  if Rlt_dec d 1 then 5 / 10 * d * d else d - 5 / 10.

(** The loop of [PrioritizedReplayMemory.update_priorities] over
    [zip(indices, priorities)].  The priorities are NumPy floats, whose
    power raises nothing; they are the positive numbers [train_step]
    passes, for which the power is [Rpower]. *)
Fixpoint update_priorities_loop (pairs : list (nat * R))
  : Call.t PrioritizedReplayMemory unit :=
  match pairs with
  | [] => Call.ret tt
  | (idx, priority) :: rest =>
      (self <- Call.get ;;
       prios <- Call.lift
                  (list_setitem (priorities self) (Z.of_nat idx)
                     (PyReal (Rpower priority (alpha self)))) ;;
       _ <- Call.modify (fun m => with_priorities m prios) ;;
       update_priorities_loop rest)%call
  end.

(** [PrioritizedReplayMemory.update_priorities]. *)
Definition update_priorities (indices : list nat) (priorities : list R)
  : Call.t PrioritizedReplayMemory unit :=
  update_priorities_loop (combine indices priorities).

Definition set_memory (a : PrescriptionAgent) (m : PrioritizedReplayMemory)
  : PrescriptionAgent :=
  {| config := config a;
     state_encoder_parameters := state_encoder_parameters a;
     q_network_parameters := q_network_parameters a;
     target_network_parameters := target_network_parameters a;
     agent_memory := m;
     epsilon := epsilon a |}.

(** The assignments of [train_step] to the agent: the parameters the
    optimizer step leaves in the state encoder and the online network,
    and the decayed exploration rate. *)
Definition set_parameters (a : PrescriptionAgent)
    (encoder_parameters q_parameters : list R) : PrescriptionAgent :=
  {| config := config a;
     state_encoder_parameters := encoder_parameters;
     q_network_parameters := q_parameters;
     target_network_parameters := target_network_parameters a;
     agent_memory := agent_memory a;
     epsilon := epsilon a |}.

Definition set_epsilon (a : PrescriptionAgent) (eps : R) : PrescriptionAgent :=
  {| config := config a;
     state_encoder_parameters := state_encoder_parameters a;
     q_network_parameters := q_network_parameters a;
     target_network_parameters := target_network_parameters a;
     agent_memory := agent_memory a;
     epsilon := eps |}.

Section Networks.

(** The forward pass of a [StateEncoder] and of a [QNetwork], as functions
    of the module's parameters and its input.  A batch is evaluated row
    by row. *)
Variable StateEncoder_forward : list R -> State -> list R.
Variable QNetwork_forward : list R -> list R -> list R.

(** The [torch.no_grad()] block of [train_step] (Double DQN): the online
    network selects the next actions, the target network values them. *)
Definition double_dqn_target (agent : PrescriptionAgent) (rewards : list R)
    (next_encodings : list (list R)) (dones : list bool) : result (list R) :=
  next_actions <-
    map_result argmax
      (map (QNetwork_forward (q_network_parameters agent)) next_encodings) ;;
  next_q <-
    gather (map (QNetwork_forward (target_network_parameters agent))
                next_encodings)
           next_actions ;;
  Ok (target_formula (gamma (config agent)) rewards next_q dones).

(** [PrescriptionAgent.train_step(batch_size)]: the loss it returns, or
    [None], and the agent it leaves behind.  [draw] is the outcome of
    [np.random.choice] in [sample], and [optimized] holds the parameters
    of the state encoder and of the online network after
    [zero_grad], [backward], [clip_grad_norm_] and the optimizer's
    [step], which are not modelled.  The guard calls [len] on the memory;
    [squeeze] turns the errors of a batch of one transition into a scalar,
    which [zip] refuses with [TypeError]. *)
Definition train_step (batch_size : Z) (draw : list nat)
    (optimized : list R * list R) : Call.t PrescriptionAgent (option R) :=
  (self <- Call.get ;;
   n <- Call.lift (PrioritizedReplayMemory_len (agent_memory self)) ;;
   if (n <? batch_size)%Z then Call.ret None
   else
     ' (transitions, indices, weights) <-
       Call.lift (sample (agent_memory self) batch_size (4 / 10) draw) ;;
     let states := map state transitions in
     let actions := map action transitions in
     let rewards := map reward transitions in
     let next_states := map next_state transitions in
     let dones := map done transitions in
     state_encodings <-
       Call.lift
         (torch_stack
            (map (StateEncoder_forward (state_encoder_parameters self))
                 states)) ;;
     next_encodings <-
       Call.lift
         (torch_stack
            (map (StateEncoder_forward (state_encoder_parameters self))
                 next_states)) ;;
     current_q <-
       Call.lift
         (gather_int
            (map (QNetwork_forward (q_network_parameters self))
                 state_encodings)
            actions) ;;
     target_q <-
       Call.lift (double_dqn_target self rewards next_encodings dones) ;;
     let td_errors := map2 (fun c t => Rabs (c - t)) current_q target_q in
     let loss :=
       tensor_mean
         (map2 Rmult weights (map2 smooth_l1_loss current_q target_q)) in
     _ <- Call.modify
            (fun a => set_parameters a (fst optimized) (snd optimized)) ;;
     _ <- (match td_errors with
           | [_] => Call.lift (Raise TypeError)
           | _ =>
               Call.on agent_memory set_memory
                 (update_priorities indices
                    (map (fun e => e + 1 / 1000000) td_errors))
           end) ;;
     _ <- Call.modify _soft_update ;;
     _ <- Call.modify
            (fun a => set_epsilon a
                        (Rmax (epsilon_end (config a))
                              (epsilon a * epsilon_decay (config a)))) ;;
     Call.ret (Some loss))%call.

End Networks.

(** ** The feedback loop *)

(** [FeedbackDigest.global_successes]: a dictionary in insertion order. *)
Definition SuccessRecord : Type := list (Z * list (list R * R)).

Record FeedbackDigest : Type := {
  agent : PrescriptionAgent;
  global_successes : SuccessRecord
}.

(** [FeedbackDigest(agent)]. *)
Definition FeedbackDigest_init (agent : PrescriptionAgent) : FeedbackDigest :=
  {| agent := agent; global_successes := [] |}.

(** [global_successes[action_idx]], the empty list for an absent key. *)
Fixpoint successes_of (d : SuccessRecord) (action_idx : Z) : list (list R * R) :=
  match d with
  | [] => []
  | (k, v) :: rest => if Z.eqb k action_idx then v else successes_of rest action_idx
  end.

(** [FeedbackDigest._add_global_success]: a new key enters at the end with
    the one-entry list, a present key has the entry appended to its list. *)
Fixpoint _add_global_success (d : SuccessRecord) (action_idx : Z)
    (signal : list R) (reward : R) : SuccessRecord :=
  match d with
  | [] => [(action_idx, [(signal, reward)])]
  | (k, v) :: rest =>
      if Z.eqb k action_idx then (k, v ++ [(signal, reward)]) :: rest
      else (k, v) :: _add_global_success rest action_idx signal reward
  end.

(** [FeedbackDigest.process_outcome]: the returned reward and the digest
    after the call. *)
Definition process_outcome (digest : FeedbackDigest) (state : State)
    (act : Action) (next_state : State) (adherence : R)
  : result (R * FeedbackDigest) :=
  reward_dict <- compute (config (agent digest)) state next_state act adherence ;;
  let reward := total reward_dict in
  let action_idx := _action_to_idx (config (agent digest)) act in
  let transition :=
    {| state := state; action := action_idx; reward := reward;
       next_state := next_state; done := false |} in
  let priority := Rabs reward + 1 / 10 in
  mem <- push (agent_memory (agent digest)) transition priority ;;
  let successes :=
    if Rlt_dec (5 / 10) reward
    then _add_global_success (global_successes digest) action_idx
                             (current_signal state) reward
    else global_successes digest in
  Ok (reward, {| agent := set_memory (agent digest) mem;
                 global_successes := successes |}).

(** ** Hypothesis generator *)

(** The dictionary built for each discovered hypothesis. *)
Record HypothesisEntry : Type := {
  hypothesis_id : string;
  independent_variable : string;
  dependent_variable : string;
  correlation : R;
  sample_size : Z;
  hypothesis_text : string;
  proposed_action : string;
  status : string
}.

Record HypothesisGenerator : Type := {
  min_sample_size : Z;
  min_correlation : R;
  hypotheses : list HypothesisEntry
}.

(** [HypothesisGenerator()] with the default thresholds. *)
Definition HypothesisGenerator_init : HypothesisGenerator :=
  {| min_sample_size := 100; min_correlation := 5 / 10; hypotheses := [] |}.

Definition np_mean (l : list R) : R := np_sum l / INR (List.length l).

(** An entry of [np.cov(x, y)] (one degree of freedom removed), for at
    least two observations. *)
Definition np_cov (x y : list R) : R :=
  np_sum (map2 (fun a b => (a - np_mean x) * (b - np_mean y)) x y)
  / (INR (List.length x) - 1).

(** [np.corrcoef(x, y)[0, 1]] for two series of one length: the covariance
    divided by both standard deviations and clipped to [-1, 1].  The result
    is NaN ([None]) with fewer than two observations or a series of zero
    variance.  The variances are those of the exact reals: in floating
    point the mean of a constant series need not be its value (that of
    [0.1, 0.1, 0.1] is not), and NumPy then divides by a variance that is
    tiny and not zero. *)
Definition np_corrcoef (x y : list R) : option R :=
  if (List.length x <=? 1)%nat then None
  else if Req_dec_T (np_cov x x) 0 then None
  else if Req_dec_T (np_cov y y) 0 then None
  else
    let c := np_cov x y / sqrt (np_cov x x) / sqrt (np_cov y y) in
    Some (Rmax (-1) (Rmin 1 c)).

(** [HypothesisGenerator._generate_action_proposal]. *)
Definition _generate_action_proposal (external_var : string) (correlation : R)
  : string :=
  let direction :=
    (if Rlt_dec 0 correlation then "positively" else "negatively")%string in
  (if String.eqb external_var "air_quality" then
     "Push 'Air Quality Alert' to users when levels " ++ direction
     ++ " affect signals."
   else if String.eqb external_var "temperature" then
     "Adjust measurement calibration for temperature sensitivity ("
     ++ direction ++ " correlated)."
   else if String.eqb external_var "humidity" then
     "Update EHD suction recommendations based on humidity (" ++ direction
     ++ " impact)."
   else if String.eqb external_var "exercise_level" then
     "Personalize exercise recommendations based on signal response ("
     ++ direction ++ ")."
   else "Investigate " ++ external_var ++ " for potential intervention.")%string.

(** [abs(h["correlation"])], the sort key. *)
Definition strength (h : HypothesisEntry) : R := Rabs (correlation h).

(** [list.sort(key=..., reverse=True)] is stable: an entry goes before the
    first later entry whose key is not larger. *)
Fixpoint insert_desc (h : HypothesisEntry) (sorted : list HypothesisEntry)
  : list HypothesisEntry :=
  match sorted with
  | [] => [h]
  | x :: rest =>
      if Rle_dec (strength x) (strength h) then h :: x :: rest
      else x :: insert_desc h rest
  end.

Definition sort_desc (l : list HypothesisEntry) : list HypothesisEntry :=
  fold_right insert_desc [] l.

(** [np.array(signals)] is a matrix when every signal has the length of
    the first one. *)
Definition rectangular (signals : list (list R)) : bool :=
  match signals with
  | [] => true
  | row :: rest =>
      forallb (fun r => (List.length r =? List.length row)%nat) rest
  end.

(** [signal_matrix[:, feat_idx]]. *)
Definition column (signals : list (list R)) (feat_idx : nat) : list R :=
  map (fun row => nth feat_idx row 0) signals.

Section HypothesisGeneration.

(** [format(x, ".3f")]. *)
Variable format_3f : R -> string.

(** The body of the loop over [feat_idx] of [analyze_correlations]:
    [discovered] after the iteration. *)
Definition analyze_feature (self : HypothesisGenerator)
    (signals : list (list R)) (ext_name : string) (ext_values : list R)
    (feature_names : list string) (discovered : list HypothesisEntry)
    (feat_idx : nat) : result (list HypothesisEntry) :=
  let feat_values := column signals feat_idx in
  match np_corrcoef feat_values ext_values with
  | None => Ok discovered
  | Some correlation =>
      if Rle_dec (min_correlation self) (Rabs correlation) then
        let dependent :=
          match nth_error feature_names feat_idx with
          | Some nm => nm
          | None => ("feature_" ++ str_int (Z.of_nat feat_idx))%string
          end in
        match nth_error feature_names feat_idx with
        | None => Raise IndexError
        | Some nm =>
            let hypothesis :=
              {| hypothesis_id :=
                   ("hyp_" ++ str_int (Z.of_nat (List.length discovered)))%string;
                 independent_variable := ext_name;
                 dependent_variable := dependent;
                 correlation := correlation;
                 sample_size := Z.of_nat (List.length signals);
                 hypothesis_text :=
                   ("'" ++ ext_name ++ "' correlates with '" ++ nm
                    ++ "' (r=" ++ format_3f correlation ++ ")")%string;
                 proposed_action :=
                   _generate_action_proposal ext_name correlation;
                 status := "proposed"%string |} in
            Ok (discovered ++ [hypothesis])
        end
      else Ok discovered
  end.

Fixpoint analyze_features (self : HypothesisGenerator)
    (signals : list (list R)) (ext_name : string) (ext_values : list R)
    (feature_names : list string) (feat_idxs : list nat)
    (discovered : list HypothesisEntry) : result (list HypothesisEntry) :=
  match feat_idxs with
  | [] => Ok discovered
  | feat_idx :: rest =>
      discovered' <-
        analyze_feature self signals ext_name ext_values feature_names
                        discovered feat_idx ;;
      analyze_features self signals ext_name ext_values feature_names rest
                       discovered'
  end.

(** The loop over [external_data.items()].  A series of another length
    than [signals] is passed over; [signal_matrix.shape[1]] raises
    [IndexError] when [signals] is empty. *)
Fixpoint analyze_series (self : HypothesisGenerator)
    (signals : list (list R)) (external_data : list (string * list R))
    (feature_names : list string) (discovered : list HypothesisEntry)
  : result (list HypothesisEntry) :=
  match external_data with
  | [] => Ok discovered
  | (ext_name, ext_values) :: rest =>
      if negb (List.length ext_values =? List.length signals)%nat then
        analyze_series self signals rest feature_names discovered
      else
        match signals with
        | [] => Raise IndexError
        | row :: _ =>
            discovered' <-
              analyze_features self signals ext_name ext_values feature_names
                               (seq 0 (List.length row)) discovered ;;
            analyze_series self signals rest feature_names discovered'
        end
  end.

(** [HypothesisGenerator.analyze_correlations]: the returned list and the
    generator after the call.  [np.array] of signals of unequal lengths
    raises [ValueError]. *)
Definition analyze_correlations (self : HypothesisGenerator)
    (signals : list (list R)) (external_data : list (string * list R))
    (feature_names : list string)
  : result (list HypothesisEntry * HypothesisGenerator) :=
  if negb (rectangular signals) then Raise ValueError
  else
    found <- analyze_series self signals external_data feature_names [] ;;
    let discovered := sort_desc found in
    Ok (discovered,
        {| min_sample_size := min_sample_size self;
           min_correlation := min_correlation self;
           hypotheses := hypotheses self ++ discovered |}).

End HypothesisGeneration.


(** ** Construction of the agent *)

(** [PrescriptionAgent(config)]: the target network starts as a copy of
    the online network, the memory is a [PrioritizedReplayMemory] of
    [config.memory_size] entries with the default [alpha], and exploration
    starts at [config.epsilon_start].  The initial parameters of the state
    encoder and of the online network are arguments. *)
Definition PrescriptionAgent_init (config : RLConfig)
    (encoder_parameters q_parameters : list R) : PrescriptionAgent :=
  {| config := config;
     state_encoder_parameters := encoder_parameters;
     q_network_parameters := q_parameters;
     target_network_parameters := q_parameters;
     agent_memory := PrioritizedReplayMemory_init (memory_size config) (6 / 10);
     epsilon := epsilon_start config |}.

(** * Further functions of the module *)

(** ** Uniform experience replay *)

(** A [collections.deque] with a bound: [maxlen] and the items, oldest
    first. *)
Record deque (A : Type) : Type := {
  maxlen : Z;
  items : list A
}.

(** [deque(maxlen=n)]: a negative bound raises [ValueError]. *)
Definition deque_init (A : Type) (n : Z) : result (deque A) :=
  if (n <? 0)%Z then Raise ValueError
  else Ok {| maxlen := n; items := [] |}.

(** [deque.append]: the item goes to the right end, and the leftmost item
    is dropped when the bound is exceeded. *)
Definition deque_append {A : Type} (d : deque A) (x : A) : deque A :=
  let appended := items d ++ [x] in
  {| maxlen := maxlen d;
     items := if (maxlen d <? Z.of_nat (List.length appended))%Z
              then tl appended else appended |}.

Record ReplayMemory : Type := {
  replay_memory : deque Transition
}.

(** [ReplayMemory(capacity)]. *)
Definition ReplayMemory_init (capacity : Z) : result ReplayMemory :=
  d <- deque_init Transition capacity ;;
  Ok {| replay_memory := d |}.

(** [ReplayMemory.push]. *)
Definition ReplayMemory_push (m : ReplayMemory) (transition : Transition)
  : ReplayMemory :=
  {| replay_memory := deque_append (replay_memory m) transition |}.

(** [ReplayMemory.__len__]. *)
Definition ReplayMemory_len (m : ReplayMemory) : nat :=
  List.length (items (replay_memory m)).

(** What [random.sample(population, k)] can select: [k] different
    positions of the population. *)
Definition possible_selection (n : nat) (k : Z) (draw : list nat) : Prop :=
  List.length draw = Z.to_nat k
  /\ NoDup draw
  /\ Forall (fun i => (i < n)%nat) draw.

(** [ReplayMemory.sample]; [draw] lists the positions [random.sample]
    selected.  A [batch_size] that is negative or larger than the
    population raises [ValueError]. *)
Definition ReplayMemory_sample (m : ReplayMemory) (batch_size : Z)
    (draw : list nat) : result (list Transition) :=
  if ((batch_size <? 0)
      || (Z.of_nat (ReplayMemory_len m) <? batch_size))%Z%bool
  then Raise ValueError
  else getitems (items (replay_memory m)) draw.

(** ** Action selection *)

(** [random.randint(a, b)]; [k] is the integer drawn.  An empty range
    raises [ValueError]. *)
Definition random_randint (a b k : Z) : result Z :=
  if (b <? a)%Z then Raise ValueError else Ok k.

(** [tensor[i]] on a vector: a negative position counts from the end, a
    position outside raises [IndexError]. *)
Definition tensor_getitem (v : list R) (i : Z) : result R :=
  let n := Z.of_nat (List.length v) in
  let j := if (i <? 0)%Z then (n + i)%Z else i in
  if ((0 <=? j) && (j <? n))%Z then
    match nth_error v (Z.to_nat j) with
    | Some x => Ok x
    | None => Raise IndexError
    end
  else Raise IndexError.

Section Selection.

Variable StateEncoder_forward : list R -> State -> list R.
Variable QNetwork_forward : list R -> list R -> list R.

(** The index [select_action] settles on: [u] is the outcome of
    [random.random()] and [k] the outcome of [random.randint]. *)
Definition select_action_idx (agent : PrescriptionAgent) (state : State)
    (u : R) (k : Z) : result Z :=
  let state_encoding :=
    StateEncoder_forward (state_encoder_parameters agent) state in
  let q_values := QNetwork_forward (q_network_parameters agent) state_encoding in
  if Rlt_dec u (epsilon agent)
  then random_randint 0 (Z.of_nat (List.length q_values) - 1) k
  else best <- argmax q_values ;; Ok (Z.of_nat best).

(** [PrescriptionAgent.select_action]; [rnd] feeds the choice of the
    reasoning text. *)
Definition select_action (agent : PrescriptionAgent) (state : State)
    (u : R) (k : Z) (rnd : nat) : result Action :=
  let state_encoding :=
    StateEncoder_forward (state_encoder_parameters agent) state in
  let q_values := QNetwork_forward (q_network_parameters agent) state_encoding in
  action_idx <- select_action_idx agent state u k ;;
  q <- tensor_getitem q_values action_idx ;;
  _idx_to_action (config agent) rnd action_idx q.

End Selection.

(** ** Matching of recorded successes *)

(** [np.dot] of two vectors: different lengths raise [ValueError]. *)
Definition np_dot (a b : list R) : result R :=
  if (List.length a =? List.length b)%nat
  then Ok (np_sum (map2 Rmult a b))
  else Raise ValueError.

(** [np.linalg.norm] of a vector. *)
Definition np_norm (a : list R) : R := sqrt (np_sum (map (fun x => x * x) a)).

(** The cosine similarity of [find_matching_successes], with its guard
    [1e-8] in the denominator. *)
Definition similarity (current_signal signal : list R) : result R :=
  d <- np_dot current_signal signal ;;
  Ok (d / (np_norm current_signal * np_norm signal + 1 / 100000000)).

(** The inner loop of [find_matching_successes] over the successes of one
    action. *)
Fixpoint match_successes (current_signal : list R) (action_idx : Z)
    (successes : list (list R * R)) (matches : list (Z * R))
  : result (list (Z * R)) :=
  match successes with
  | [] => Ok matches
  | (signal, reward) :: rest =>
      sim <- similarity current_signal signal ;;
      match_successes current_signal action_idx rest
        (if Rlt_dec (8 / 10) sim
         then matches ++ [(action_idx, reward * sim)]
         else matches)
  end.

(** The outer loop over [global_successes.items()]. *)
Fixpoint match_record (current_signal : list R) (record : SuccessRecord)
    (matches : list (Z * R)) : result (list (Z * R)) :=
  match record with
  | [] => Ok matches
  | (action_idx, successes) :: rest =>
      matches' <- match_successes current_signal action_idx successes matches ;;
      match_record current_signal rest matches'
  end.

(** [list.sort(key=..., reverse=True)] on any list: stable, largest key
    first. *)
Fixpoint insert_by_desc {A : Type} (key : A -> R) (x : A) (sorted : list A)
  : list A :=
  match sorted with
  | [] => [x]
  | y :: rest =>
      if Rle_dec (key y) (key x) then x :: y :: rest
      else y :: insert_by_desc key x rest
  end.

Definition sort_by_desc {A : Type} (key : A -> R) (l : list A) : list A :=
  fold_right (insert_by_desc key) [] l.

(** [l[:k]]: the first [k] items, or all but the last [-k] for a negative
    [k]. *)
Definition slice_to {A : Type} (l : list A) (k : Z) : list A :=
  if (k <? 0)%Z then firstn (Z.to_nat (Z.of_nat (List.length l) + k)) l
  else firstn (Z.to_nat k) l.

(** [FeedbackDigest.find_matching_successes]. *)
Definition find_matching_successes (digest : FeedbackDigest)
    (current_signal : list R) (top_k : Z) : result (list (Z * R)) :=
  matches <- match_record current_signal (global_successes digest) [] ;;
  Ok (slice_to (sort_by_desc snd matches) top_k).

(** * Notions used by the statements *)

(** The first index of a category: the sum of the sizes of the categories
    before it. *)
Definition range_start (config : RLConfig) (ty : ActionType) : Z :=
  match ty with
  | NUTRIENT => 0
  | EXERCISE => num_nutrients config
  | SLEEP => num_nutrients config + num_exercises config
  | LIFESTYLE =>
      num_nutrients config + num_exercises config + num_sleep_patterns config
  end%Z.

Definition range_size (config : RLConfig) (ty : ActionType) : Z :=
  match ty with
  | NUTRIENT => num_nutrients config
  | EXERCISE => num_exercises config
  | SLEEP => num_sleep_patterns config
  | LIFESTYLE => num_lifestyle config
  end.

Definition in_range (config : RLConfig) (ty : ActionType) (idx : Z) : Prop :=
  (range_start config ty <= idx < range_start config ty + range_size config ty)%Z.

Definition sizes_nonnegative (config : RLConfig) : Prop :=
  (0 <= num_nutrients config /\ 0 <= num_exercises config
   /\ 0 <= num_sleep_patterns config /\ 0 <= num_lifestyle config)%Z.

(** ** Concrete inputs *)

(** [RLConfig(num_nutrients=n, num_exercises=e, num_sleep_patterns=s,
    num_lifestyle=l, adherence_bonus_weight=w)]: the other fields keep
    their defaults. *)
Definition configure (n e s l : Z) (w : R) : RLConfig := {|
  signal_dim := signal_dim default_config;
  history_length := history_length default_config;
  user_profile_dim := user_profile_dim default_config;
  num_nutrients := n;
  num_exercises := e;
  num_sleep_patterns := s;
  num_lifestyle := l;
  hidden_dim := hidden_dim default_config;
  num_attention_heads := num_attention_heads default_config;
  dropout := dropout default_config;
  batch_size := batch_size default_config;
  learning_rate := learning_rate default_config;
  gamma := gamma default_config;
  tau := tau default_config;
  signal_improvement_weight := signal_improvement_weight default_config;
  subjective_condition_weight := subjective_condition_weight default_config;
  adherence_bonus_weight := w;
  epsilon_start := epsilon_start default_config;
  epsilon_end := epsilon_end default_config;
  epsilon_decay := epsilon_decay default_config;
  memory_size := memory_size default_config
|}.

(** The default configuration with the adherence weight raised to 4.5: an
    adherence of 1 is worth a reward of 0.9 between equal states. *)
Definition adherence_config : RLConfig := configure 50 20 10 30 (45 / 10).

(** A configuration with a negative category size: 10 nutrients and -5
    exercises, a total of 5 actions. *)
Definition negative_size_config : RLConfig := configure 10 (-5) 0 0 (1 / 10).

(** The state of the module's entry point, with a one-entry signal. *)
Definition dummy_state : State := {|
  current_signal := [1];
  signal_history := [[1]];
  user_profile := [0];
  health_score := 75;
  biomarkers := [("lactate"%string, 25 / 10); ("glucose"%string, 95)];
  action_history := [];
  time_of_day := 14;
  day_of_week := 2;
  season := 1
|}.

(** The first nutrient of the catalog. *)
Definition magnesium : Action := {|
  action_type := NUTRIENT;
  action_id := 0;
  name := "Magnesium Glycinate";
  dosage := Some "300mg"%string;
  frequency := Some "daily"%string;
  duration := None;
  timing := Some "before_bed"%string;
  confidence := 1 / 2;
  reasoning := "Your recent biomarkers suggest a deficiency that this can address."
|}.

(** The first exercise of the catalog. *)
Definition yoga : Action := {|
  action_type := EXERCISE;
  action_id := 0;
  name := "Yoga";
  dosage := Some "30min"%string;
  frequency := Some "daily"%string;
  duration := None;
  timing := None;
  confidence := 1 / 2;
  reasoning := "This activity level matches your current energy state from the signals."
|}.

(** An agent under the default configuration whose target parameters
    [1; 2] differ from its online parameters [3; 5]. *)
Definition drifted_agent : PrescriptionAgent := {|
  config := default_config;
  state_encoder_parameters := [];
  q_network_parameters := [3; 5];
  target_network_parameters := [1; 2];
  agent_memory := PrioritizedReplayMemory_init (memory_size default_config) (6 / 10);
  epsilon := epsilon_start default_config
|}.

(** A transition between two copies of [dummy_state] with reward [r]. *)
Definition dummy_transition (r : R) : Transition := {|
  state := dummy_state;
  action := 0;
  reward := r;
  next_state := dummy_state;
  done := false
|}.

(** A store of two entries with stored priorities 1 and 3. *)
Definition two_entry_memory : PrioritizedReplayMemory := {|
  capacity := 4;
  alpha := 6 / 10;
  memory := [dummy_transition 1; dummy_transition (-1)];
  priorities := [PyReal 1; PyReal 3];
  position := 2
|}.

(** The store after one [push] of priority 0 into an empty store. *)
Definition zero_priority_memory : PrioritizedReplayMemory := {|
  capacity := 4;
  alpha := 6 / 10;
  memory := [dummy_transition 0];
  priorities := [PyReal 0];
  position := 1
|}.

(** ** Reachable stores and runs of the feedback loop *)

(** The invariant of a [PrioritizedReplayMemory] of positive capacity built
    by [push]: one stored priority per entry, no more entries than the
    capacity, and a write cursor equal to the number of entries until the
    store is full and inside the store afterwards. *)
Definition memory_wf (m : PrioritizedReplayMemory) : Prop :=
  (0 < capacity m)%Z
  /\ List.length (priorities m) = List.length (memory m)
  /\ (Z.of_nat (List.length (memory m)) <= capacity m)%Z
  /\ (0 <= position m < capacity m)%Z
  /\ ((Z.of_nat (List.length (memory m)) < capacity m)%Z ->
      position m = Z.of_nat (List.length (memory m))).

(** One observed outcome: the arguments of a call of [process_outcome]. *)
Definition Outcome : Type := (State * Action * State * R)%type.

(** Successive calls of [process_outcome] on one digest. *)
Fixpoint process_outcomes (digest : FeedbackDigest) (calls : list Outcome)
  : result FeedbackDigest :=
  match calls with
  | [] => Ok digest
  | (state, act, next_state, adherence) :: rest =>
      ' (_, digest') <- process_outcome digest state act next_state adherence ;;
      process_outcomes digest' rest
  end.

(** The transition [process_outcome] builds from its arguments. *)
Definition outcome_transition (config : RLConfig) (state : State) (act : Action)
    (next_state : State) (r : R) : Transition :=
  {| state := state; action := _action_to_idx config act; reward := r;
     next_state := next_state; done := false |}.

(** A digest over a freshly constructed agent. *)
Definition fresh_digest (config : RLConfig) : FeedbackDigest :=
  FeedbackDigest_init (PrescriptionAgent_init config [] [0; 0]).

(** ** The Double-Q rule *)

Section DoubleQRule.

Variable StateEncoder_forward : list R -> State -> list R.
Variable QNetwork_forward : list R -> list R -> list R.

(** The Double-Q target of one transition: the online network picks the
    action [best] at the encoded next state, the target network values
    it; a terminal transition is worth its reward alone. *)
Definition double_q_target (agent : PrescriptionAgent) (t : Transition)
    (best : nat) : R :=
  let enc :=
    StateEncoder_forward (state_encoder_parameters agent) (next_state t) in
  if done t then reward t
  else
    reward t
    + gamma (config agent)
      * nth best (QNetwork_forward (target_network_parameters agent) enc) 0.

(** The online network's choice at the next state of a transition. *)
Definition online_choice (agent : PrescriptionAgent) (t : Transition)
    (best : nat) : Prop :=
  let online :=
    QNetwork_forward (q_network_parameters agent)
      (StateEncoder_forward (state_encoder_parameters agent) (next_state t)) in
  argmax online = Ok best
  /\ (best < List.length online)%nat
  /\ (forall j, (j < List.length online)%nat ->
        nth j online 0 <= nth best online 0)
  /\ (forall j, (j < best)%nat -> nth j online 0 < nth best online 0).

End DoubleQRule.

(** Stand-ins for the networks: an encoder that returns the current
    signal, and a value estimator with one value per action of the default
    action space, the value of action [k] being [k] times the first
    parameter. *)
Definition signal_encoder (params : list R) (s : State) : list R :=
  current_signal s.

Definition ramp_network (params x : list R) : list R :=
  map (fun k => INR k * nth 0 params 0) (seq 0 110).

(** Three signals of one feature, and an external series that follows the
    feature exactly. *)
Definition three_signals : list (list R) := [[0]; [1]; [2]].

Definition air_quality_data : list (string * list R) :=
  [("air_quality"%string, [0; 1; 2])].

(** What the code does check of an emitted hypothesis: the correlation
    threshold; the sample size is only recorded. *)
Definition passes_correlation (self : HypothesisGenerator)
    (signals : list (list R)) (h : HypothesisEntry) : Prop :=
  min_correlation self <= strength h
  /\ sample_size h = Z.of_nat (List.length signals).

(** Descending order of correlation strength. *)
Definition stronger_first (a b : HypothesisEntry) : Prop :=
  strength b <= strength a.


(** ** Float32 parameters *)

(** The numbers within the range of binary32, beyond which the float32
    operations of the soft update overflow. *)
Definition float32_range (x : R) : Prop := Rabs x <= pow2 127.

(** The numbers a float32 tensor can hold. *)
Definition float32_number (x : R) : Prop := float32 x = x.

(** What the float32 roundings of one soft update with [tau = 0.005] can
    add to the distance: for each pair of parameters [2^-22] of the larger
    magnitude, and [2^-148] for the results that are subnormal. *)
Fixpoint rounding_allowance (target online : list R) : R :=
  match target, online with
  | t :: target', p :: online' =>
      (pow2 (-22) * Rmax (Rabs t) (Rabs p) + pow2 (-148))
      + rounding_allowance target' online'
  | _, _ => 0
  end.

(** A freshly constructed agent whose online network has the one
    parameter 3.0. *)
Definition fresh_agent : PrescriptionAgent :=
  PrescriptionAgent_init default_config [] [3].

(** A terminal transition between two copies of [dummy_state] with reward
    [r]. *)
Definition terminal_transition (r : R) : Transition := {|
  state := dummy_state;
  action := 0;
  reward := r;
  next_state := dummy_state;
  done := true
|}.
(** * Notions used by the further statements *)

(** [key in d] for a dictionary kept as an association list. *)
Definition has_key (d : list (string * R)) (key : string) : Prop :=
  exists v, In (key, v) d.

(** The weights of the reward are not negative. *)
Definition weights_nonnegative (config : RLConfig) : Prop :=
  0 <= signal_improvement_weight config
  /\ 0 <= subjective_condition_weight config
  /\ 0 <= adherence_bonus_weight config.

(** [s] with its health score replaced. *)
Definition with_health_score (s : State) (h : R) : State := {|
  current_signal := current_signal s;
  signal_history := signal_history s;
  user_profile := user_profile s;
  health_score := h;
  biomarkers := biomarkers s;
  action_history := action_history s;
  time_of_day := time_of_day s;
  day_of_week := day_of_week s;
  season := season s
|}.

(** Successive calls of [push] on one store. *)
Fixpoint pushes (m : PrioritizedReplayMemory) (entries : list (Transition * R))
  : result PrioritizedReplayMemory :=
  match entries with
  | [] => Ok m
  | (t, p) :: rest => m' <- push m t p ;; pushes m' rest
  end.

(** The entries of a store read round from the write cursor: in a full
    store the cursor is on the oldest entry. *)
Definition from_cursor (m : PrioritizedReplayMemory) : list Transition :=
  skipn (Z.to_nat (position m)) (memory m)
  ++ firstn (Z.to_nat (position m)) (memory m).

(** The default configuration with a [memory_size] of 0. *)
Definition no_memory_config : RLConfig := {|
  signal_dim := signal_dim default_config;
  history_length := history_length default_config;
  user_profile_dim := user_profile_dim default_config;
  num_nutrients := num_nutrients default_config;
  num_exercises := num_exercises default_config;
  num_sleep_patterns := num_sleep_patterns default_config;
  num_lifestyle := num_lifestyle default_config;
  hidden_dim := hidden_dim default_config;
  num_attention_heads := num_attention_heads default_config;
  dropout := dropout default_config;
  batch_size := batch_size default_config;
  learning_rate := learning_rate default_config;
  gamma := gamma default_config;
  tau := tau default_config;
  signal_improvement_weight := signal_improvement_weight default_config;
  subjective_condition_weight := subjective_condition_weight default_config;
  adherence_bonus_weight := adherence_bonus_weight default_config;
  epsilon_start := epsilon_start default_config;
  epsilon_end := epsilon_end default_config;
  epsilon_decay := epsilon_decay default_config;
  memory_size := 0
|}.

(** The importance weight of position [i] before normalisation:
    [(N * p_i) ** (-beta)]. *)
Definition raw_weight (m : PrioritizedReplayMemory) (prios : list R)
    (beta : R) (i : nat) : R :=
  Rpower (INR (List.length (memory m)) * nth i (probabilities_of prios) 0)
         (- beta).

(** Every stored priority is a positive real number. *)
Definition priorities_positive (m : PrioritizedReplayMemory) : Prop :=
  Forall (fun v => exists p, v = PyReal p /\ 0 < p) (priorities m).

(** The recorded success a match stems from: an entry [(signal, reward)]
    under the action index, similar to the current signal beyond the
    threshold 0.8 and scored [reward * similarity]. *)
Definition match_origin (record : SuccessRecord) (current_signal : list R)
    (entry : Z * R) : Prop :=
  exists successes signal reward sim,
    In (fst entry, successes) record
    /\ In (signal, reward) successes
    /\ similarity current_signal signal = Ok sim
    /\ 8 / 10 < sim
    /\ snd entry = reward * sim.

(** Every recorded signal has length [n]. *)
Definition signals_of_length (record : SuccessRecord) (n : nat) : Prop :=
  forall idx successes signal reward,
    In (idx, successes) record -> In (signal, reward) successes ->
    List.length signal = n.

(** Every recorded reward passed the success threshold 0.5. *)
Definition rewards_above_threshold (record : SuccessRecord) : Prop :=
  forall idx successes signal reward,
    In (idx, successes) record -> In (signal, reward) successes ->
    5 / 10 < reward.

(** A digest whose record holds one success of action 0: the signal [1]
    with reward 0.9. *)
Definition one_success_digest : FeedbackDigest := {|
  agent := PrescriptionAgent_init default_config [] [];
  global_successes := [(0%Z, [([1], 9 / 10)])]
|}.

(** Where an emitted hypothesis comes from: an external series of the
    length of [signals] and a named feature whose correlation [c] with the
    series reaches the minimum correlation. *)
Definition hypothesis_origin (self : HypothesisGenerator)
    (signals : list (list R)) (external_data : list (string * list R))
    (feature_names : list string) (h : HypothesisEntry) : Prop :=
  exists ext_values feat_idx,
    In (independent_variable h, ext_values) external_data
    /\ List.length ext_values = List.length signals
    /\ np_corrcoef (column signals feat_idx) ext_values = Some (correlation h)
    /\ min_correlation self <= Rabs (correlation h)
    /\ nth_error feature_names feat_idx = Some (dependent_variable h)
    /\ sample_size h = Z.of_nat (List.length signals)
    /\ proposed_action h
       = _generate_action_proposal (independent_variable h) (correlation h)
    /\ status h = "proposed"%string.

(** A stand-in for [format(x, ".3f")] in concrete runs. *)
Definition format_placeholder (x : R) : string := "r"%string.

(** The series of [external_data] that [analyze_correlations] looks at:
    those with one value per signal. *)
Definition matching_series (signals : list (list R))
    (external_data : list (string * list R)) : list (string * list R) :=
  filter (fun e => (List.length (snd e) =? List.length signals)%nat)
         external_data.

(** * Properties *)

(** ** Action catalog *)

Lemma action_to_idx_range_start (config : RLConfig) (a : Action) :
  _action_to_idx config a = (range_start config (action_type a) + action_id a)%Z.
Proof.
  unfold _action_to_idx. destruct a as [ty id ? ? ? ? ? ? ?].
  destruct ty; simpl; lia.
Qed.

(** What [_idx_to_action] returns is decided by the boundary loop alone. *)
Lemma idx_to_action_found (config : RLConfig) (rnd : nat) (idx : Z) (c : R)
    (i : nat) (local_idx : Z) (ty : ActionType) :
  find_boundary (action_boundaries config) 0 idx = Some (i, local_idx) ->
  nth_error ActionType_members i = Some ty ->
  exists a, _idx_to_action config rnd idx c = Ok a
            /\ action_type a = ty /\ action_id a = local_idx.
Proof.
  intros Hfind Hty. unfold _idx_to_action. rewrite Hfind, Hty.
  destruct ty.
  - destruct (catalog_get NUTRIENT_CATALOG local_idx) as [[[[n d] f] t]|];
      eexists; repeat split.
  - destruct (catalog_get EXERCISE_CATALOG local_idx) as [[[n d] f]|];
      eexists; repeat split.
  - eexists; repeat split.
  - eexists; repeat split.
Qed.

(** The boundary loop, case by case. *)
Lemma find_boundary_cases (config : RLConfig) (idx : Z) :
  (exists i ty,
      find_boundary (action_boundaries config) 0 idx
        = Some (i, (idx - range_start config ty)%Z)
      /\ nth_error ActionType_members i = Some ty
      /\ in_range config ty idx)
  \/ (find_boundary (action_boundaries config) 0 idx = None
      /\ forall ty, ~ in_range config ty idx).
Proof.
  unfold action_boundaries, in_range. simpl.
  destruct (Z.leb_spec 0 idx); destruct (Z.ltb_spec idx (num_nutrients config));
    simpl;
    try (left; exists 0%nat, NUTRIENT; simpl; rewrite Z.sub_0_r;
         repeat split; lia).
  all: destruct (Z.leb_spec (num_nutrients config) idx);
    destruct (Z.ltb_spec idx (num_nutrients config + num_exercises config));
    simpl;
    try (left; exists 1%nat, EXERCISE; simpl;
         repeat split; lia).
  all: destruct (Z.leb_spec (num_nutrients config + num_exercises config) idx);
    destruct (Z.ltb_spec idx (num_nutrients config + num_exercises config
                              + num_sleep_patterns config));
    simpl;
    try (left; exists 2%nat, SLEEP; simpl;
         repeat split; lia).
  all: destruct (Z.leb_spec (num_nutrients config + num_exercises config
                             + num_sleep_patterns config) idx);
    destruct (Z.ltb_spec idx (num_nutrients config + num_exercises config
                              + num_sleep_patterns config + num_lifestyle config));
    simpl;
    try (left; exists 3%nat, LIFESTYLE; simpl;
         repeat split; lia).
  all: right; split; [reflexivity | intros ty; destruct ty; simpl; lia].
Qed.

(** With sizes that are not negative the four ranges are pairwise
    disjoint. *)
Lemma ranges_disjoint (config : RLConfig) (ty ty' : ActionType) (idx : Z) :
  sizes_nonnegative config ->
  in_range config ty idx -> in_range config ty' idx -> ty = ty'.
Proof.
  unfold sizes_nonnegative, in_range.
  intros Hsz H H'. destruct ty, ty'; simpl in *; try reflexivity; lia.
Qed.

(** The ranges cover [0, total): telescoping needs no sign condition. *)
Lemma ranges_cover (config : RLConfig) (idx : Z) :
  (0 <= idx < total_actions config)%Z -> exists ty, in_range config ty idx.
Proof.
  unfold total_actions, in_range. intros H.
  destruct (Z_lt_le_dec idx (num_nutrients config)).
  { exists NUTRIENT; simpl; lia. }
  destruct (Z_lt_le_dec idx (num_nutrients config + num_exercises config)).
  { exists EXERCISE; simpl; lia. }
  destruct (Z_lt_le_dec idx (num_nutrients config + num_exercises config
                             + num_sleep_patterns config)).
  { exists SLEEP; simpl; lia. }
  exists LIFESTYLE; simpl; lia.
Qed.

Lemma in_range_total (config : RLConfig) (ty : ActionType) (idx : Z) :
  sizes_nonnegative config -> in_range config ty idx ->
  (0 <= idx < total_actions config)%Z.
Proof.
  unfold sizes_nonnegative, in_range, total_actions.
  intros Hsz H. destruct ty; simpl in *; lia.
Qed.

(** C1. For every global index [i] in [0, total) and every confidence [c]
    (and every outcome of the random choice of the reasoning text),
    [_idx_to_action] returns an action whose category range contains [i]
    and whose local id is [i] minus the start of that range, and
    [_action_to_idx] adds the start back: the round trip is the identity.
    With sizes that are not negative the range holding [i] is unique. *)
Theorem action_index_round_trip (config : RLConfig) (rnd : nat) (i : Z) (c : R) :
  (0 <= i < total_actions config)%Z ->
  exists a,
    _idx_to_action config rnd i c = Ok a
    /\ in_range config (action_type a) i
    /\ action_id a = (i - range_start config (action_type a))%Z
    /\ _action_to_idx config a = i
    /\ (sizes_nonnegative config ->
        forall ty, in_range config ty i -> ty = action_type a).
Proof.
  intros Hi.
  destruct (find_boundary_cases config i)
    as [(k & ty & Hfind & Hty & Hin) | (_ & Hnone)].
  - destruct (idx_to_action_found config rnd i c Hfind Hty)
      as (a & Ha & Hat & Hid).
    exists a. rewrite action_to_idx_range_start, Hat, Hid.
    repeat split; try assumption; try apply Hin; try lia.
    intros Hsz ty' Hin'. exact (ranges_disjoint Hsz Hin' Hin).
  - destruct (ranges_cover config Hi) as (ty & Hin).
    exfalso. exact (Hnone ty Hin).
Qed.

Lemma action_index_round_trip_witness :
  exists a,
    _idx_to_action default_config 0 80 0 = Ok a
    /\ in_range default_config (action_type a) 80
    /\ action_id a = (80 - range_start default_config (action_type a))%Z
    /\ _action_to_idx default_config a = 80%Z
    /\ (sizes_nonnegative default_config ->
        forall ty, in_range default_config ty 80 -> ty = action_type a).
Proof.
  apply (@action_index_round_trip default_config 0 80 0).
  unfold total_actions; simpl; lia.
Defined.

(** The scenario of the catalog under the default configuration: index 0
    is the first nutrient, and index 80 = 50 + 20 + 10 is the first
    lifestyle action. *)
Example first_nutrient_and_first_lifestyle :
  (exists a, _idx_to_action default_config 0 0 0 = Ok a
             /\ action_type a = NUTRIENT /\ action_id a = 0%Z
             /\ name a = "Magnesium Glycinate"%string)
  /\ (exists a, _idx_to_action default_config 0 80 0 = Ok a
                /\ action_type a = LIFESTYLE /\ action_id a = 0%Z
                /\ name a = "lifestyle_0"%string).
Proof.
  split; eexists; (split; [reflexivity | repeat split]).
Qed.

Lemma idx_to_action_not_found (config : RLConfig) (rnd : nat) (idx : Z) (c : R) :
  find_boundary (action_boundaries config) 0 idx = None ->
  _idx_to_action config rnd idx c = Raise UnboundLocalError.
Proof. intros H. unfold _idx_to_action. rewrite H. reflexivity. Qed.

(** C4, as the code has it. With category sizes that are not negative,
    [_idx_to_action] returns an action exactly for the indices in
    [0, total), and fails exactly for the indices outside; the failure is
    Python's [UnboundLocalError], raised where the category left unassigned
    by the boundary loop is first read. *)
Theorem idx_to_action_fails_exactly_outside
    (config : RLConfig) (rnd : nat) (idx : Z) (c : R) :
  sizes_nonnegative config ->
  (succeeds (_idx_to_action config rnd idx c)
   <-> (0 <= idx < total_actions config)%Z)
  /\ (_idx_to_action config rnd idx c = Raise UnboundLocalError
      <-> ~ (0 <= idx < total_actions config)%Z).
Proof.
  intros Hsz.
  destruct (find_boundary_cases config idx)
    as [(k & ty & Hfind & Hty & Hin) | (Hfind & Hnone)].
  - destruct (idx_to_action_found config rnd idx c Hfind Hty) as (a & Ha & _).
    pose proof (in_range_total Hsz Hin) as Htot.
    split; split.
    + intros _; exact Htot.
    + intros _; exists a; exact Ha.
    + rewrite Ha; discriminate.
    + intros Hn; contradiction.
  - pose proof (@idx_to_action_not_found config rnd idx c Hfind) as Hraise.
    assert (Hout : ~ (0 <= idx < total_actions config)%Z).
    { intros Htot. destruct (ranges_cover config Htot) as (ty & Hin).
      exact (Hnone ty Hin). }
    split; split.
    + intros (a & Ha). rewrite Hraise in Ha. discriminate.
    + intros Htot; contradiction.
    + intros _; exact Hout.
    + intros _; exact Hraise.
Qed.

Lemma idx_to_action_fails_exactly_outside_witness :
  (succeeds (_idx_to_action default_config 0 110 0)
   <-> (0 <= 110 < total_actions default_config)%Z)
  /\ (_idx_to_action default_config 0 110 0 = Raise UnboundLocalError
      <-> ~ (0 <= 110 < total_actions default_config)%Z).
Proof.
  apply (@idx_to_action_fails_exactly_outside default_config 0 110 0).
  unfold sizes_nonnegative; simpl; lia.
Defined.

(** C4, as stated, fails: index 110 lies outside [0, 110) under the default
    configuration, and the call raises [UnboundLocalError], not an error
    called ActionIndexOutOfRange. *)
Lemma idx_to_action_error_is_unbound_local :
  ~ (0 <= 110 < total_actions default_config)%Z
  /\ _idx_to_action default_config 0 110 0 = Raise UnboundLocalError
  /\ ~ raises_named (_idx_to_action default_config 0 110 0)
         "ActionIndexOutOfRange".
Proof.
  assert (H : _idx_to_action default_config 0 110 0 = Raise UnboundLocalError)
    by reflexivity.
  split; [| split].
  - unfold total_actions; simpl; lia.
  - exact H.
  - intros (e & He & Hname). rewrite H in He. inversion He; subst e.
    discriminate Hname.
Qed.

(** Why C4 needs sizes that are not negative: with 10 nutrients and -5
    exercises the total is 5, index 7 lies outside [0, 5), and the boundary
    loop still finds it in the nutrient range (0, 10). *)
Example negative_size_accepts_outside_index :
  ~ (0 <= 7 < total_actions negative_size_config)%Z
  /\ exists a, _idx_to_action negative_size_config 0 7 0 = Ok a
               /\ action_type a = NUTRIENT /\ action_id a = 7%Z.
Proof.
  split; [unfold total_actions; simpl; lia |].
  eexists. split; [reflexivity | split; reflexivity].
Qed.

(** ** Reward calculator *)

(** C5, as the code has it. [compute] checks nothing about [adherence]:
    for every value, inside [0, 1] or not, it returns, and the returned
    [adherence_bonus] is [adherence * 0.2]. *)
Theorem compute_adherence_bonus (config : RLConfig) (prev curr : State)
    (act : Action) (adherence : R) :
  exists d, compute config prev curr act adherence = Ok d
            /\ adherence_bonus d = adherence * (2 / 10).
Proof. unfold compute. eexists. split; reflexivity. Qed.

(** C5, as stated, fails: an adherence of 2 lies outside [0, 1] and
    [compute] returns a bonus of 0.4 for it; nothing called
    InvalidAdherence is raised. *)
Lemma compute_accepts_adherence_two :
  ~ (0 <= 2 <= 1)
  /\ ~ raises_named (compute default_config dummy_state dummy_state magnesium 2)
         "InvalidAdherence"
  /\ exists d, compute default_config dummy_state dummy_state magnesium 2 = Ok d
               /\ adherence_bonus d = 4 / 10.
Proof.
  split; [lra | split].
  - intros (e & He & _). unfold compute in He. discriminate He.
  - unfold compute. eexists. split; [reflexivity |]. simpl. lra.
Qed.

(** C9. The result of [compute] does not depend on the action: with the
    two states and the adherence fixed, any two actions give one and the
    same record of four components. *)
Theorem compute_independent_of_action (config : RLConfig) (prev curr : State)
    (a1 a2 : Action) (adherence : R) :
  exists d, compute config prev curr a1 adherence = Ok d
            /\ compute config prev curr a2 adherence = Ok d.
Proof. unfold compute. eexists. split; reflexivity. Qed.

(** ** Rounding to binary floating-point numbers *)

Lemma pow2_pos (e : Z) : 0 < pow2 e.
Proof. apply powerRZ_lt. lra. Qed.

Lemma pow2_add (a b : Z) : pow2 (a + b) = pow2 a * pow2 b.
Proof. apply powerRZ_add. lra. Qed.

Lemma pow2_opp (a : Z) : pow2 (- a) = / pow2 a.
Proof. apply powerRZ_neg'. Qed.

Lemma pow2_0 : pow2 0 = 1.
Proof. reflexivity. Qed.

Lemma ln_pow2 (e : Z) : ln (pow2 e) = IZR e * ln 2.
Proof.
  unfold pow2. rewrite powerRZ_Rpower by lra. apply ln_Rpower.
Qed.

Lemma ln_2_pos : 0 < ln 2.
Proof. pose proof ln_lt_2. lra. Qed.

Lemma pow2_lt (a b : Z) : (a < b)%Z -> pow2 a < pow2 b.
Proof.
  intros H. apply ln_lt_inv; try apply pow2_pos.
  rewrite !ln_pow2. apply Rmult_lt_compat_r; [apply ln_2_pos |].
  apply IZR_lt. exact H.
Qed.

Lemma pow2_le (a b : Z) : (a <= b)%Z -> pow2 a <= pow2 b.
Proof.
  intros H. destruct (Z.eq_dec a b) as [-> | Hne]; [lra |].
  left. apply pow2_lt. lia.
Qed.

Lemma float_exponent_spec (x : R) :
  x <> 0 ->
  pow2 (float_exponent x) <= Rabs x < pow2 (float_exponent x + 1).
Proof.
  intros Hx. pose proof (Rabs_pos_lt x Hx) as Hpos.
  unfold float_exponent.
  set (L := ln (Rabs x) / ln 2).
  destruct (Zfloor_bound L) as [Hlo Hhi].
  pose proof ln_2_pos as H2.
  assert (HL : L * ln 2 = ln (Rabs x)) by (unfold L; field; lra).
  split.
  - destruct (Rle_lt_dec (pow2 (Zfloor L)) (Rabs x)) as [H | H]; [exact H |].
    exfalso. apply ln_increasing in H; [| exact Hpos].
    rewrite ln_pow2, <- HL in H.
    apply Rmult_lt_reg_r in H; [lra | exact H2].
  - apply ln_lt_inv; [exact Hpos | apply pow2_pos |].
    rewrite ln_pow2, <- HL, plus_IZR.
    apply Rmult_lt_compat_r; [exact H2 | exact Hhi].
Qed.

Lemma float_exponent_eq (x : R) (e : Z) :
  pow2 e <= Rabs x < pow2 (e + 1) -> float_exponent x = e.
Proof.
  intros [Hlo Hhi]. pose proof (pow2_pos e) as Hp.
  assert (Hpos : 0 < Rabs x) by lra.
  pose proof ln_2_pos as H2.
  unfold float_exponent. apply Zfloor_eq.
  assert (HL : ln (Rabs x) / ln 2 * ln 2 = ln (Rabs x)) by (field; lra).
  split.
  - apply Rmult_le_reg_r with (ln 2); [exact H2 |].
    rewrite HL, <- ln_pow2.
    destruct Hlo as [Hlo | Hlo]; [left; apply ln_increasing; assumption |].
    rewrite Hlo. lra.
  - apply Rmult_lt_reg_r with (ln 2); [exact H2 |].
    rewrite HL, <- plus_IZR, <- ln_pow2.
    apply ln_increasing; assumption.
Qed.

Lemma nearest_even_error (y : R) : Rabs (IZR (nearest_even y) - y) <= 1 / 2.
Proof.
  unfold nearest_even. destruct (Zfloor_bound y) as [Hlo Hhi].
  destruct (Rlt_dec (y - IZR (Zfloor y)) (1 / 2)) as [H1 | H1].
  - apply Rabs_le. lra.
  - destruct (Rlt_dec (1 / 2) (y - IZR (Zfloor y))) as [H2 | H2].
    + rewrite plus_IZR. apply Rabs_le. lra.
    + destruct (Z.even (Zfloor y)).
      * apply Rabs_le. lra.
      * rewrite plus_IZR. apply Rabs_le. lra.
Qed.

Lemma nearest_even_eq (y : R) (n : Z) :
  Rabs (y - IZR n) < 1 / 2 -> nearest_even y = n.
Proof.
  intros H. apply Rabs_def2 in H. destruct H as [H1 H2].
  unfold nearest_even.
  destruct (Rle_lt_dec (IZR n) y) as [Hge | Hlt].
  - assert (Hf : Zfloor y = n) by (apply Zfloor_eq; lra).
    rewrite Hf. destruct (Rlt_dec (y - IZR n) (1 / 2)); [reflexivity | lra].
  - assert (Hf : Zfloor y = (n - 1)%Z).
    { apply Zfloor_eq. rewrite minus_IZR. lra. }
    rewrite Hf, minus_IZR.
    destruct (Rlt_dec (y - (IZR n - 1)) (1 / 2)); [lra |].
    destruct (Rlt_dec (1 / 2) (y - (IZR n - 1))); [lia | lra].
Qed.

Lemma nearest_even_tie (y : R) (n : Z) :
  y = IZR n + 1 / 2 ->
  nearest_even y = if Z.even n then n else (n + 1)%Z.
Proof.
  intros H. unfold nearest_even.
  assert (Hf : Zfloor y = n) by (apply Zfloor_eq; lra).
  rewrite Hf.
  destruct (Rlt_dec (y - IZR n) (1 / 2)); [lra |].
  destruct (Rlt_dec (1 / 2) (y - IZR n)); [lra | reflexivity].
Qed.

Lemma round_float_error (prec emin : Z) (x : R) :
  Rabs (round_float prec emin x - x)
  <= pow2 (- prec) * Rabs x + pow2 (emin - 1).
Proof.
  pose proof (pow2_pos (- prec)) as Hu. pose proof (pow2_pos (emin - 1)) as Hm.
  unfold round_float. destruct (Req_dec_T x 0) as [Hx | Hx].
  - subst x. unfold Rminus. rewrite Ropp_0, Rplus_0_r, Rabs_R0. lra.
  - set (e := Z.max (float_exponent x - (prec - 1)) emin).
    pose proof (pow2_pos e) as He.
    pose proof (nearest_even_error (x * pow2 (- e))) as Hn.
    set (n := nearest_even (x * pow2 (- e))) in *.
    assert (Heq : IZR n * pow2 e - x = (IZR n - x * pow2 (- e)) * pow2 e).
    { rewrite pow2_opp. field. lra. }
    rewrite Heq, Rabs_mult, (Rabs_pos_eq (pow2 e)) by lra.
    assert (Hhalf : Rabs (IZR n - x * pow2 (- e)) * pow2 e <= pow2 (e - 1)).
    { replace (pow2 (e - 1)) with (1 / 2 * pow2 e).
      - apply Rmult_le_compat_r; lra.
      - replace (e - 1)%Z with (e + - (1))%Z by lia.
        rewrite pow2_add. change (pow2 (- (1))) with (/ (2 * 1)). field. }
    destruct (float_exponent_spec Hx) as [Hlo _].
    pose proof (Rabs_pos x) as Hax.
    assert (Hcase : pow2 (e - 1) <= pow2 (- prec) * Rabs x
                    \/ pow2 (e - 1) = pow2 (emin - 1)).
    { unfold e. destruct (Z.max_spec (float_exponent x - (prec - 1)) emin)
        as [[_ ->] | [_ ->]]; [right; reflexivity | left].
      replace (float_exponent x - (prec - 1) - 1)%Z
        with (- prec + float_exponent x)%Z by lia.
      rewrite pow2_add. apply Rmult_le_compat_l; lra. }
    assert (0 <= pow2 (- prec) * Rabs x) by (apply Rmult_le_pos; lra).
    destruct Hcase as [Hc | Hc]; lra.
Qed.

Lemma round_float_eval (prec emin : Z) (x : R) (E n : Z) :
  pow2 E <= Rabs x < pow2 (E + 1) ->
  nearest_even (x * pow2 (- Z.max (E - (prec - 1)) emin)) = n ->
  round_float prec emin x = IZR n * pow2 (Z.max (E - (prec - 1)) emin).
Proof.
  intros HE Hn. unfold round_float.
  destruct (Req_dec_T x 0) as [Hx | Hx].
  - subst x. rewrite Rabs_R0 in HE. pose proof (pow2_pos E). lra.
  - rewrite (@float_exponent_eq x E HE). cbv zeta. rewrite Hn. reflexivity.
Qed.

Lemma pow2_pos_eval (p : positive) : pow2 (Z.pos p) = IZR (Z.pow_pos 2 p).
Proof. unfold pow2. rewrite Zpower_pos_powerRZ. reflexivity. Qed.

Lemma pow2_neg_eval (p : positive) : pow2 (Z.neg p) = / IZR (Z.pow_pos 2 p).
Proof.
  change (Z.neg p) with (- Z.pos p)%Z. rewrite pow2_opp, pow2_pos_eval.
  reflexivity.
Qed.

Ltac eval_pow2 :=
  repeat match goal with
  | |- context [pow2 (Z.pos ?p)] =>
      let v := eval vm_compute in (Z.pow_pos 2 p) in
      rewrite (pow2_pos_eval p); change (Z.pow_pos 2 p) with v
  | |- context [pow2 (Z.neg ?p)] =>
      let v := eval vm_compute in (Z.pow_pos 2 p) in
      rewrite (pow2_neg_eval p); change (Z.pow_pos 2 p) with v
  | |- context [pow2 0] => rewrite pow2_0
  end.

Lemma round_float_nearest (prec emin : Z) (x : R) (E E1 e me n : Z) :
  E1 = (E + 1)%Z ->
  e = Z.max (E - (prec - 1)) emin ->
  me = (- e)%Z ->
  pow2 E <= x < pow2 E1 \/ pow2 E <= - x < pow2 E1 ->
  - (1 / 2) < x * pow2 me - IZR n < 1 / 2 ->
  round_float prec emin x = IZR n * pow2 e.
Proof.
  intros -> -> -> HE Hn.
  apply round_float_eval.
  - destruct HE as [HE | HE].
    + rewrite Rabs_pos_eq; [exact HE |]. pose proof (pow2_pos E). lra.
    + rewrite <- Rabs_Ropp, Rabs_pos_eq; [exact HE |].
      pose proof (pow2_pos E). lra.
  - apply nearest_even_eq. apply Rabs_def1; lra.
Qed.

Lemma round_float_tie (prec emin : Z) (x : R) (E E1 e me n : Z) :
  E1 = (E + 1)%Z ->
  e = Z.max (E - (prec - 1)) emin ->
  me = (- e)%Z ->
  pow2 E <= x < pow2 E1 \/ pow2 E <= - x < pow2 E1 ->
  x * pow2 me = IZR n + 1 / 2 ->
  round_float prec emin x
  = IZR (if Z.even n then n else (n + 1)%Z) * pow2 e.
Proof.
  intros -> -> -> HE Hn.
  apply round_float_eval.
  - destruct HE as [HE | HE].
    + rewrite Rabs_pos_eq; [exact HE |]. pose proof (pow2_pos E). lra.
    + rewrite <- Rabs_Ropp, Rabs_pos_eq; [exact HE |].
      pose proof (pow2_pos E). lra.
  - apply nearest_even_tie. exact Hn.
Qed.

Lemma float32_tau : float32 (5 / 1000) = 10737418 * pow2 (-31).
Proof.
  unfold float32.
  apply (@round_float_nearest 24 (-149) (5 / 1000) (-8) (-7) (-31) 31 10737418);
    try reflexivity.
  - left. eval_pow2. lra.
  - eval_pow2. lra.
Qed.

Lemma float64_one_minus_tau :
  float64 (1 - 5 / 1000) = 8962163258467287 * pow2 (-53).
Proof.
  unfold float64.
  apply (@round_float_nearest 53 (-1074) (1 - 5 / 1000) (-1) 0 (-53) 53
           8962163258467287);
    try reflexivity.
  - left. eval_pow2. lra.
  - eval_pow2. lra.
Qed.

Lemma float32_one_minus_tau :
  float32 (float64 (1 - 5 / 1000)) = 16693330 * pow2 (-24).
Proof.
  rewrite float64_one_minus_tau. unfold float32.
  apply (@round_float_nearest 24 (-149) _ (-1) 0 (-24) 24 16693330);
    try reflexivity.
  - left. eval_pow2. lra.
  - eval_pow2. lra.
Qed.

(** ** Soft update of the target network *)

Lemma soft_update_param_three :
  soft_update_param (5 / 1000) 3 3 = 3 + pow2 (-22).
Proof.
  unfold soft_update_param.
  rewrite float32_tau, float32_one_minus_tau.
  assert (H1 : float32 (10737418 * pow2 (-31) * 3) = 16106127 * pow2 (-30)).
  { unfold float32.
    apply (@round_float_nearest 24 (-149) _ (-7) (-6) (-30) 30 16106127);
      try reflexivity.
    - left. eval_pow2. lra.
    - eval_pow2. lra. }
  assert (H2 : float32 (16693330 * pow2 (-24) * 3) = 12519998 * pow2 (-22)).
  { unfold float32.
    rewrite (@round_float_tie 24 (-149) _ 1 2 (-22) 22 12519997);
      try reflexivity.
    - left. eval_pow2. lra.
    - eval_pow2. lra. }
  rewrite H1, H2. unfold float32.
  rewrite (@round_float_nearest 24 (-149) _ 1 2 (-22) 22 12582913);
    try reflexivity.
  - eval_pow2. lra.
  - left. eval_pow2. lra.
  - eval_pow2. lra.
Qed.

Lemma float32_error (x : R) :
  Rabs (float32 x - x) <= pow2 (-24) * Rabs x + pow2 (-150).
Proof. apply (round_float_error 24 (-149) x). Qed.

Lemma Rabs_le_inv (x a : R) : Rabs x <= a -> - a <= x <= a.
Proof.
  intros H. pose proof (Rle_abs x). pose proof (Rle_abs (- x)) as H'.
  rewrite Rabs_Ropp in H'. lra.
Qed.

Lemma float64_error (x : R) :
  Rabs (float64 x - x) <= pow2 (-53) * Rabs x + pow2 (-1075).
Proof. apply (round_float_error 53 (-1074) x). Qed.

Lemma Rabs_mult_le (x y a b : R) :
  Rabs x <= a -> Rabs y <= b -> Rabs (x * y) <= a * b.
Proof.
  intros Hx Hy. rewrite Rabs_mult.
  apply Rmult_le_compat; try apply Rabs_pos; assumption.
Qed.

Lemma Rabs_bound (x y d : R) : Rabs (x - y) <= d -> Rabs x <= Rabs y + d.
Proof.
  intros H. replace x with ((x - y) + y) at 1 by ring.
  eapply Rle_trans; [apply Rabs_triang |]. lra.
Qed.

(** One entry of a soft update with any [tau] in [0, 1]: the float32
    result is the interpolation [t + tau * (p - t)] up to the roundings. *)
Lemma soft_update_param_interpolates (tau t p : R) :
  0 <= tau <= 1 ->
  Rabs (soft_update_param tau t p - (t + tau * (p - t)))
  <= pow2 (-22) * Rmax (Rabs t) (Rabs p) + pow2 (-148).
Proof.
  intros Htau. unfold soft_update_param.
  pose proof (float32_error tau) as Ha.
  pose proof (float64_error (1 - tau)) as Hy.
  set (a := float32 tau) in *.
  set (y := float64 (1 - tau)) in *.
  pose proof (float32_error y) as Hb.
  set (b := float32 y) in *.
  pose proof (float32_error (a * p)) as H1.
  pose proof (float32_error (b * t)) as H2.
  set (x1 := float32 (a * p)) in *.
  set (x2 := float32 (b * t)) in *.
  pose proof (float32_error (x1 + x2)) as H3.
  set (t' := float32 (x1 + x2)) in *.
  rewrite (Rabs_pos_eq tau) in Ha by lra.
  rewrite (Rabs_pos_eq (1 - tau)) in Hy by lra.
  pose proof (Rmax_l (Rabs t) (Rabs p)) as HMt.
  pose proof (Rmax_r (Rabs t) (Rabs p)) as HMp.
  set (M := Rmax (Rabs t) (Rabs p)) in *.
  assert (HM : 0 <= M) by (pose proof (Rabs_pos t); lra).
  pose proof (pow2_pos (-24)) as Hu. pose proof (pow2_pos (-150)) as Heta.
  pose proof (pow2_pos (-53)) as Hv. pose proof (pow2_pos (-1075)) as Heta'.
  (* magnitudes of the rounded weights *)
  assert (HA : Rabs a <= tau + (pow2 (-24) * tau + pow2 (-150))).
  { apply Rabs_bound in Ha. rewrite (Rabs_pos_eq tau) in Ha by lra. lra. }
  assert (HY : Rabs y <= (1 - tau) + (pow2 (-53) * (1 - tau) + pow2 (-1075))).
  { apply Rabs_bound in Hy. rewrite (Rabs_pos_eq (1 - tau)) in Hy by lra.
    lra. }
  assert (HuY : pow2 (-24) * Rabs y
                <= pow2 (-24)
                   * ((1 - tau) + (pow2 (-53) * (1 - tau) + pow2 (-1075)))).
  { apply Rmult_le_compat_l; lra. }
  assert (HB : Rabs b
               <= (1 - tau) + (pow2 (-53) * (1 - tau) + pow2 (-1075))
                  + (pow2 (-24)
                     * ((1 - tau) + (pow2 (-53) * (1 - tau) + pow2 (-1075)))
                     + pow2 (-150))).
  { apply Rabs_bound in Hb. lra. }
  assert (HBy : Rabs (b - (1 - tau))
                <= pow2 (-53) * (1 - tau) + pow2 (-1075)
                   + (pow2 (-24)
                      * ((1 - tau) + (pow2 (-53) * (1 - tau) + pow2 (-1075)))
                      + pow2 (-150))).
  { replace (b - (1 - tau)) with ((b - y) + (y - (1 - tau))) by ring.
    eapply Rle_trans; [apply Rabs_triang |]. lra. }
  (* the products, against the larger magnitude *)
  pose proof (Rabs_mult_le a p HA HMp) as Hap.
  pose proof (Rabs_mult_le b t HB HMt) as Hbt.
  pose proof (Rabs_mult_le (a - tau) p Ha HMp) as Hd1.
  pose proof (Rabs_mult_le (b - (1 - tau)) t HBy HMt) as Hd2.
  assert (Hx12 : Rabs (x1 + x2)
                 <= Rabs (a * p) + Rabs (b * t)
                    + (pow2 (-24) * Rabs (a * p) + pow2 (-150))
                    + (pow2 (-24) * Rabs (b * t) + pow2 (-150))).
  { replace (x1 + x2)
      with ((x1 - a * p) + (x2 - b * t) + (a * p + b * t)) by ring.
    eapply Rle_trans; [apply Rabs_triang |].
    eapply Rle_trans;
      [apply Rplus_le_compat; [apply Rabs_triang | apply Rabs_triang] |].
    lra. }
  replace (t' - (t + tau * (p - t)))
    with ((t' - (x1 + x2)) + (x1 - a * p) + (x2 - b * t)
          + ((a - tau) * p + (b - (1 - tau)) * t)) by ring.
  eapply Rle_trans; [apply Rabs_triang |].
  eapply Rle_trans;
    [apply Rplus_le_compat; [apply Rabs_triang | apply Rabs_triang] |].
  eapply Rle_trans;
    [apply Rplus_le_compat_r; apply Rplus_le_compat_r; apply Rabs_triang |].
  (* the atoms [tau * M] and [(1 - tau) * M] *)
  assert (HtM : 0 <= tau * M) by (apply Rmult_le_pos; lra).
  assert (HsM : 0 <= (1 - tau) * M) by (apply Rmult_le_pos; lra).
  assert (Hsum : tau * M + (1 - tau) * M = M) by ring.
  clear Ha Hy Hb HA HY HuY HB HBy.
  revert Hap Hbt Hd1 Hd2 H1 H2 H3 Hx12 HtM HsM HM.
  generalize (Rabs (a * p)) (Rabs (b * t)) (Rabs ((a - tau) * p))
             (Rabs ((b - (1 - tau)) * t)) (Rabs (x1 + x2))
             (Rabs (t' - (x1 + x2))) (Rabs (x1 - a * p))
             (Rabs (x2 - b * t)).
  eval_pow2. intros. lra.
Qed.

Lemma soft_update_param_error (t p : R) :
  Rabs (soft_update_param (5 / 1000) t p - (t + 5 / 1000 * (p - t)))
  <= pow2 (-22) * Rmax (Rabs t) (Rabs p) + pow2 (-148).
Proof. apply soft_update_param_interpolates. lra. Qed.

Lemma soft_update_loop_length (tau : R) (target online : list R) :
  List.length (soft_update_loop tau target online) = List.length target.
Proof.
  revert online. induction target as [| t target IH]; intros [| p online];
    simpl; auto.
Qed.

Lemma param_distance_nonneg (target online : list R) :
  0 <= param_distance target online.
Proof.
  revert online. induction target as [| t target IH]; intros [| p online];
    simpl; try lra.
  pose proof (Rabs_pos (t - p)). specialize (IH online). lra.
Qed.

Lemma param_distance_diag (l : list R) : param_distance l l = 0.
Proof.
  induction l as [| x l IH]; simpl; [reflexivity |].
  rewrite IH. unfold Rminus. rewrite Rplus_opp_r, Rabs_R0. ring.
Qed.

(** One update of one pair of parameters with [tau = 0.005]: the distance
    to the online parameter is 0.995 times what it was, up to the
    roundings. *)
Lemma soft_update_param_distance (t p : R) :
  Rabs (Rabs (soft_update_param (5 / 1000) t p - p)
        - 995 / 1000 * Rabs (t - p))
  <= pow2 (-22) * Rmax (Rabs t) (Rabs p) + pow2 (-148).
Proof.
  pose proof (soft_update_param_error t p) as H.
  replace (995 / 1000 * Rabs (t - p)) with (Rabs (995 / 1000 * (t - p))).
  2: { rewrite Rabs_mult, (Rabs_pos_eq (995 / 1000)) by lra. reflexivity. }
  eapply Rle_trans; [apply Rabs_triang_inv2 |].
  replace (soft_update_param (5 / 1000) t p - p - 995 / 1000 * (t - p))
    with (soft_update_param (5 / 1000) t p - (t + 5 / 1000 * (p - t)))
    by lra.
  exact H.
Qed.

Lemma rounding_allowance_nonneg (target online : list R) :
  0 <= rounding_allowance target online.
Proof.
  revert online. induction target as [| t target IH]; intros [| p online];
    simpl; try lra.
  specialize (IH online).
  pose proof (pow2_pos (-22)). pose proof (pow2_pos (-148)).
  pose proof (Rmax_l (Rabs t) (Rabs p)). pose proof (Rabs_pos t).
  assert (0 <= pow2 (-22) * Rmax (Rabs t) (Rabs p))
    by (apply Rmult_le_pos; lra).
  lra.
Qed.

Lemma soft_update_loop_distance (target online : list R) :
  Rabs (param_distance (soft_update_loop (5 / 1000) target online) online
        - 995 / 1000 * param_distance target online)
  <= rounding_allowance target online.
Proof.
  revert online. induction target as [| t target IH]; intros [| p online];
    cbn [soft_update_loop param_distance rounding_allowance].
  - rewrite Rmult_0_r, Rminus_0_r, Rabs_R0. lra.
  - rewrite Rmult_0_r, Rminus_0_r, Rabs_R0. lra.
  - rewrite Rmult_0_r, Rminus_0_r, Rabs_R0. lra.
  - specialize (IH online). apply Rabs_le_inv in IH.
    pose proof (soft_update_param_distance t p) as H.
    apply Rabs_le_inv in H. apply Rabs_le. lra.
Qed.

(** C7, as the code has it.  With [tau = 0.005], parameters within the
    range of float32 and the online parameters untouched by the update,
    one soft update multiplies the distance between target and online
    parameters by [0.995] up to the float32 roundings of the update: the
    new distance differs from [0.995] times the old one by no more than
    the rounding allowance, [2^-22] of the larger magnitude of each pair of
    parameters (and [2^-148] per pair).  So the distance decreases strictly
    as long as [0.005] times the distance exceeds that allowance; below,
    it need not decrease. *)
Theorem soft_update_contracts (agent : PrescriptionAgent) :
  tau (config agent) = 5 / 1000 ->
  Forall float32_range (target_network_parameters agent) ->
  Forall float32_range (q_network_parameters agent) ->
  let allowance :=
    rounding_allowance (target_network_parameters agent)
                       (q_network_parameters agent) in
  q_network_parameters (_soft_update agent) = q_network_parameters agent
  /\ Rabs (target_distance (_soft_update agent)
           - 995 / 1000 * target_distance agent) <= allowance
  /\ target_distance (_soft_update agent)
     <= 995 / 1000 * target_distance agent + allowance
  /\ (allowance < 5 / 1000 * target_distance agent ->
      target_distance (_soft_update agent) < target_distance agent).
Proof.
  intros Htau _ _ allowance.
  assert (H : Rabs (target_distance (_soft_update agent)
                    - 995 / 1000 * target_distance agent) <= allowance).
  { unfold target_distance, _soft_update; simpl. rewrite Htau.
    apply soft_update_loop_distance. }
  split; [reflexivity |]. split; [exact H |].
  apply Rabs_le_inv in H. split; [lra |]. intros Hlarge. lra.
Qed.

Lemma soft_update_contracts_witness :
  (let allowance :=
     rounding_allowance (target_network_parameters drifted_agent)
                        (q_network_parameters drifted_agent) in
   q_network_parameters (_soft_update drifted_agent)
   = q_network_parameters drifted_agent
   /\ Rabs (target_distance (_soft_update drifted_agent)
            - 995 / 1000 * target_distance drifted_agent) <= allowance
   /\ target_distance (_soft_update drifted_agent)
      <= 995 / 1000 * target_distance drifted_agent + allowance
   /\ (allowance < 5 / 1000 * target_distance drifted_agent ->
       target_distance (_soft_update drifted_agent)
       < target_distance drifted_agent))
  /\ target_distance (_soft_update drifted_agent)
     < target_distance drifted_agent.
Proof.
  assert (Hrange3 : Forall float32_range [3; 5]).
  { repeat constructor; unfold float32_range;
      rewrite Rabs_pos_eq by lra; eval_pow2; lra. }
  assert (Hrange1 : Forall float32_range [1; 2]).
  { repeat constructor; unfold float32_range;
      rewrite Rabs_pos_eq by lra; eval_pow2; lra. }
  pose proof (@soft_update_contracts drifted_agent eq_refl Hrange1 Hrange3)
    as H.
  split; [exact H |].
  destruct H as (_ & _ & _ & Hdecreases). apply Hdecreases.
  unfold target_distance, drifted_agent.
  cbn [target_network_parameters q_network_parameters rounding_allowance
       param_distance].
  replace (1 - 3) with (- (2)) by ring. replace (2 - 5) with (- (3)) by ring.
  rewrite !Rabs_Ropp.
  rewrite (Rabs_pos_eq 1), (Rabs_pos_eq 2), (Rabs_pos_eq 3), (Rabs_pos_eq 5)
    by lra.
  rewrite (Rmax_right 1 3), (Rmax_right 2 5) by lra.
  eval_pow2. lra.
Defined.

(** C7, as stated, fails: a freshly constructed agent has target
    parameters equal to the online ones, so the distance is 0 before a
    soft update with [tau = 0.005] and cannot decrease.  In float32 it does
    not even stay 0: the weights [0.005] and [0.995] do not add up
    to 1 once rounded, and the target parameter 3.0 moves to
    3.0000002384185791015625, at the distance [2^-22] from the online
    one. *)
Lemma soft_update_equal_parameters :
  tau (config fresh_agent) = 5 / 1000
  /\ target_network_parameters fresh_agent = q_network_parameters fresh_agent
  /\ target_distance fresh_agent = 0
  /\ q_network_parameters (_soft_update fresh_agent) = [3]
  /\ target_network_parameters (_soft_update fresh_agent) = [3 + pow2 (-22)]
  /\ target_distance (_soft_update fresh_agent) = pow2 (-22)
  /\ ~ target_distance (_soft_update fresh_agent) < target_distance fresh_agent.
Proof.
  assert (H0 : target_distance fresh_agent = 0).
  { unfold target_distance, fresh_agent, PrescriptionAgent_init;
      simpl target_network_parameters; simpl q_network_parameters.
    apply param_distance_diag. }
  assert (Hnew : target_network_parameters (_soft_update fresh_agent)
                 = [3 + pow2 (-22)]).
  { unfold _soft_update, fresh_agent, PrescriptionAgent_init; simpl.
    rewrite soft_update_param_three. reflexivity. }
  assert (H1 : target_distance (_soft_update fresh_agent) = pow2 (-22)).
  { unfold target_distance. rewrite Hnew.
    change (q_network_parameters (_soft_update fresh_agent)) with [3].
    cbn [param_distance].
    replace (3 + pow2 (-22) - 3) with (pow2 (-22)) by ring.
    rewrite Rabs_pos_eq by (left; apply pow2_pos). ring. }
  repeat split; try reflexivity; try assumption.
  rewrite H0, H1. pose proof (pow2_pos (-22)). lra.
Qed.

(** ** Prioritized replay: importance weights *)

Lemma Rmax_div (a b c : R) : 0 < c -> Rmax (a / c) (b / c) = Rmax a b / c.
Proof.
  intros Hc. assert (Hi : 0 < / c) by (apply Rinv_0_lt_compat; exact Hc).
  unfold Rmax, Rdiv.
  destruct (Rle_dec (a * / c) (b * / c)) as [H | H];
    destruct (Rle_dec a b) as [H' | H']; try reflexivity; exfalso.
  - apply H'. apply (Rmult_le_reg_r (/ c)); assumption.
  - apply H. apply Rmult_le_compat_r; lra.
Qed.

Lemma np_max_div (c w : R) (ws : list R) :
  0 < c -> np_max (w / c) (map (fun x => x / c) ws) = np_max w ws / c.
Proof.
  intros Hc. unfold np_max. revert w.
  induction ws as [| x ws IH]; intros w; simpl; [reflexivity |].
  rewrite Rmax_div by exact Hc. apply IH.
Qed.

Lemma np_max_ge_head (w : R) (ws : list R) : w <= np_max w ws.
Proof.
  unfold np_max. revert w. induction ws as [| x ws IH]; intros w; simpl.
  - lra.
  - apply Rle_trans with (Rmax w x); [apply Rmax_l | apply IH].
Qed.

Lemma np_max_upper (w : R) (ws : list R) (x : R) :
  In x (w :: ws) -> x <= np_max w ws.
Proof.
  unfold np_max. revert w. induction ws as [| y ws IH]; intros w Hin; simpl.
  - destruct Hin as [-> | []]. lra.
  - destruct Hin as [-> | [-> | Hin]].
    + apply Rle_trans with (Rmax x y); [apply Rmax_l |].
      apply (np_max_ge_head (Rmax x y) ws).
    + apply Rle_trans with (Rmax w x); [apply Rmax_r |].
      apply (np_max_ge_head (Rmax w x) ws).
    + apply IH. right. exact Hin.
Qed.

Lemma np_max_pos (w : R) (ws : list R) : 0 < w -> 0 < np_max w ws.
Proof. intros H. pose proof (np_max_ge_head w ws). lra. Qed.

(** Division by the maximum puts positive weights in (0, 1] and the
    largest of them at exactly 1. *)
Lemma normalised_weights (w : R) (ws : list R) :
  Forall (fun x => 0 < x) (w :: ws) ->
  Forall (fun x => 0 < x <= 1) (map (fun x => x / np_max w ws) (w :: ws))
  /\ np_max (w / np_max w ws) (map (fun x => x / np_max w ws) ws) = 1.
Proof.
  intros Hpos.
  assert (Hmax : 0 < np_max w ws).
  { apply np_max_pos. inversion Hpos; assumption. }
  split.
  - rewrite Forall_forall in *. intros y Hy.
    apply in_map_iff in Hy. destruct Hy as (x & <- & Hx).
    pose proof (Hpos x Hx) as Hx0. pose proof (np_max_upper Hx) as Hxm.
    split.
    + apply Rdiv_lt_0_compat; assumption.
    + apply (Rmult_le_reg_r (np_max w ws)); [exact Hmax |].
      unfold Rdiv. rewrite Rmult_assoc, Rinv_l by lra. lra.
  - rewrite np_max_div by exact Hmax. field. lra.
Qed.

Lemma has_negative_false (l : list R) :
  Forall (fun x => 0 <= x) l -> has_negative l = false.
Proof.
  induction 1 as [| x l Hx _ IH]; simpl; [reflexivity |].
  destruct (Rlt_dec x 0); [lra | exact IH].
Qed.

Lemma getitems_in_range {A : Type} (seq : list A) (indices : list nat) :
  Forall (fun i => (i < List.length seq)%nat) indices ->
  exists xs, getitems seq indices = Ok xs
             /\ List.length xs = List.length indices.
Proof.
  induction 1 as [| i indices Hi _ (xs & IH & Hlen)]; simpl.
  - exists []. split; reflexivity.
  - destruct (nth_error seq i) as [x |] eqn:Hx.
    + rewrite IH. simpl. exists (x :: xs). split; [reflexivity | simpl; lia].
    + apply nth_error_None in Hx. lia.
Qed.

(** Whatever [sample] returns has weights in (0, 1] with maximum 1. *)
Lemma sample_result_normalised (m : PrioritizedReplayMemory) (batch_size : Z)
    (beta : R) (draw : list nat)
    (samples : list Transition) (indices : list nat) (weights : list R) :
  sample m batch_size beta draw = Ok (samples, indices, weights) ->
  indices = draw
  /\ List.length weights = List.length draw
  /\ Forall (fun x => 0 < x <= 1) weights
  /\ exists w ws, weights = w :: ws /\ np_max w ws = 1.
Proof.
  unfold sample.
  destruct ((List.length (memory m) =? 0)%nat && negb (batch_size =? 0)%Z)%bool;
    [discriminate |].
  destruct (reals_of (priorities m)) as [prios |]; [| discriminate].
  destruct (negb (List.length prios =? List.length (memory m))%nat);
    [discriminate |].
  destruct (Req_dec_T (np_sum prios) 0); [discriminate |].
  destruct (has_negative (probabilities_of prios)); [discriminate |].
  destruct (batch_size <? 0)%Z; [discriminate |].
  destruct (getitems (memory m) draw) as [xs | e]; simpl; [| discriminate].
  destruct draw as [| i draw]; simpl; [discriminate |].
  intros H. inversion H; subst; clear H.
  set (f := fun i => Rpower (INR (List.length (memory m))
                             * nth i (probabilities_of prios) 0) (- beta)).
  assert (Hpos : Forall (fun x => 0 < x) (f i :: map f draw)).
  { change (f i :: map f draw) with (map f (i :: draw)).
    rewrite Forall_forall. intros y Hy. apply in_map_iff in Hy.
    destruct Hy as (j & <- & _). unfold f, Rpower. apply exp_pos. }
  destruct (normalised_weights Hpos) as [Hall Hmax].
  split; [reflexivity |].
  split; [simpl; rewrite !length_map; reflexivity |].
  split; [exact Hall |].
  eexists _, _. split; [reflexivity | exact Hmax].
Qed.

(** C6, as the code has it. When the store is not empty, holds one real
    priority per entry, none negative and not all zero, and at least one
    sample is asked for, [sample] returns a batch for every draw of
    [np.random.choice]; every importance weight of the batch lies in
    (0, 1] and the largest is exactly 1. *)
Theorem sample_weights_normalised (m : PrioritizedReplayMemory)
    (batch_size : Z) (beta : R) (draw : list nat) (prios : list R) :
  memory m <> [] ->
  reals_of (priorities m) = Some prios ->
  List.length prios = List.length (memory m) ->
  Forall (fun p => 0 <= p) prios ->
  0 < np_sum prios ->
  (1 <= batch_size)%Z ->
  possible_draw m batch_size draw ->
  exists samples weights,
    sample m batch_size beta draw = Ok (samples, draw, weights)
    /\ List.length samples = Z.to_nat batch_size
    /\ List.length weights = Z.to_nat batch_size
    /\ Forall (fun x => 0 < x <= 1) weights
    /\ exists w ws, weights = w :: ws /\ np_max w ws = 1.
Proof.
  intros Hmem Hreal Hlen Hnonneg Hsum Hsize [Hdraw Hpossible].
  specialize (Hpossible prios Hreal).
  assert (Hin : Forall (fun i => (i < List.length (memory m))%nat) draw).
  { eapply Forall_impl; [| exact Hpossible]. simpl. intros i [H _]. exact H. }
  destruct (getitems_in_range (memory m) Hin) as (xs & Hxs & Hxlen).
  destruct (sample m batch_size beta draw) as [[[samples indices] weights] | e]
    eqn:Hsample.
  - destruct (sample_result_normalised _ _ _ _ Hsample)
      as (-> & Hwlen & Hall & Hmax).
    exists samples, weights.
    split; [reflexivity |].
    assert (Hs : samples = xs).
    { revert Hsample. unfold sample. rewrite Hreal, Hxs.
      repeat match goal with
             | |- context [if ?b then _ else _] => destruct b; try discriminate
             end.
      simpl. destruct (map _ draw); [discriminate |].
      intros H; inversion H; reflexivity. }
    subst samples.
    repeat split; try assumption; congruence.
  - exfalso. revert Hsample. unfold sample. rewrite Hreal, Hxs.
    destruct (memory m) as [| t mem] eqn:Hm; [contradiction |].
    simpl List.length. simpl Nat.eqb. simpl andb.
    rewrite Hlen. simpl List.length. rewrite Nat.eqb_refl. simpl negb.
    destruct (Req_dec_T (np_sum prios) 0); [lra |].
    rewrite has_negative_false.
    + destruct (Z.ltb_spec batch_size 0); [lia |].
      simpl. destruct draw as [| i draw]; [simpl in Hdraw; lia |].
      simpl. discriminate.
    + unfold probabilities_of. rewrite Forall_forall in *.
      intros y Hy. apply in_map_iff in Hy. destruct Hy as (p & <- & Hp).
      apply Rle_mult_inv_pos; [apply Hnonneg; exact Hp | exact Hsum].
Qed.

Lemma sample_weights_normalised_witness :
  exists samples weights,
    sample two_entry_memory 2 (4 / 10) [0%nat; 1%nat]
    = Ok (samples, [0%nat; 1%nat], weights)
    /\ List.length samples = Z.to_nat 2
    /\ List.length weights = Z.to_nat 2
    /\ Forall (fun x => 0 < x <= 1) weights
    /\ exists w ws, weights = w :: ws /\ np_max w ws = 1.
Proof.
  apply (@sample_weights_normalised two_entry_memory 2 (4 / 10)
           [0%nat; 1%nat] [1; 3]).
  - discriminate.
  - reflexivity.
  - reflexivity.
  - repeat constructor; lra.
  - simpl; lra.
  - lia.
  - split; [reflexivity |].
    intros prios H. inversion H; subst prios.
    unfold probabilities_of; simpl.
    repeat constructor; simpl; try lia; apply Rdiv_lt_0_compat; lra.
Defined.

(** C6, as stated, fails in the degenerate case: a store whose only entry
    was pushed with priority 0 holds the stored priority 0, and [sample]
    raises [ValueError] on it for every batch size, exponent and draw; no
    weight of 1 is returned. *)
Lemma sample_all_zero_priorities_raises :
  push (PrioritizedReplayMemory_init 4 (6 / 10)) (dummy_transition 0) 0
  = Ok zero_priority_memory
  /\ forall batch_size beta draw,
       sample zero_priority_memory batch_size beta draw = Raise ValueError.
Proof.
  split.
  - unfold push, PrioritizedReplayMemory_init, float_pow; simpl.
    destruct (Req_dec_T (6 / 10) 0); [lra |].
    destruct (Rlt_dec 0 0); [lra |].
    destruct (Req_dec_T 0 0); [| lra].
    destruct (Rlt_dec 0 (6 / 10)); [| lra].
    reflexivity.
  - intros batch_size beta draw. unfold sample, zero_priority_memory; simpl.
    destruct (Req_dec_T (0 + 0) 0); [reflexivity | lra].
Qed.

(** ** Prioritized replay: [push] *)

Lemma float_pow_positive (x a : R) :
  0 < x -> float_pow x a = Ok (PyReal (Rpower x a)).
Proof.
  intros Hx. unfold float_pow.
  destruct (Req_dec_T a 0) as [-> | Ha].
  - unfold Rpower. rewrite Rmult_0_l, exp_0. reflexivity.
  - destruct (Rlt_dec 0 x); [reflexivity | contradiction].
Qed.

Lemma list_update_length {A : Type} (l : list A) (n : nat) (v : A) :
  List.length (list_update l n v) = List.length l.
Proof.
  revert n. induction l as [| x l IH]; intros [| n]; simpl; auto.
Qed.

Lemma list_update_nth {A : Type} (l : list A) (n : nat) (v : A) :
  (n < List.length l)%nat -> nth_error (list_update l n v) n = Some v.
Proof.
  revert n. induction l as [| x l IH]; intros [| n] H; simpl in *;
    try lia; [reflexivity | apply IH; lia].
Qed.

Lemma list_update_In {A : Type} (l : list A) (n : nat) (v x : A) :
  In x (list_update l n v) -> x = v \/ In x l.
Proof.
  revert n. induction l as [| y l IH]; intros [| n] H; simpl in *; auto.
  - destruct H as [H | H]; auto.
  - destruct H as [H | H]; auto. destruct (IH _ H); auto.
Qed.

Lemma list_setitem_in_range {A : Type} (l : list A) (i : Z) (v : A) :
  (0 <= i < Z.of_nat (List.length l))%Z ->
  list_setitem l i v = Ok (list_update l (Z.to_nat i) v).
Proof.
  intros H. unfold list_setitem.
  destruct (Z.leb_spec 0 i); [| lia].
  destruct (Z.ltb_spec i (Z.of_nat (List.length l))); [| lia].
  reflexivity.
Qed.

(** On a well-formed store a [push] of positive priority returns: the
    transition sits at the old cursor with the priority raised to [alpha],
    every other entry was there before, and the store stays well formed. *)
Lemma push_wf (m : PrioritizedReplayMemory) (t : Transition) (p : R) :
  memory_wf m -> 0 < p ->
  exists m',
    push m t p = Ok m'
    /\ memory_wf m'
    /\ capacity m' = capacity m /\ alpha m' = alpha m
    /\ nth_error (memory m') (Z.to_nat (position m)) = Some t
    /\ nth_error (priorities m') (Z.to_nat (position m))
       = Some (PyReal (Rpower p (alpha m)))
    /\ (forall x, In x (memory m') -> x = t \/ In x (memory m))
    /\ (Z.of_nat (List.length (memory m')) =
        Z.min (Z.of_nat (List.length (memory m)) + 1) (capacity m))%Z.
Proof.
  intros (Hcap & Hlen & Hle & Hpos & Hcur) Hp.
  unfold push. rewrite (float_pow_positive (alpha m) Hp).
  assert (Hmod : int_mod (position m + 1) (capacity m)
                 = Ok ((position m + 1) mod capacity m)%Z).
  { unfold int_mod. destruct (Z.eqb_spec (capacity m) 0); [lia | reflexivity]. }
  pose proof (Z.mod_pos_bound (position m + 1) (capacity m) Hcap) as Hbound.
  destruct (Z.ltb_spec (Z.of_nat (List.length (memory m))) (capacity m))
    as [Hlt | Hfull]; simpl.
  - rewrite Hmod. simpl. specialize (Hcur Hlt).
    eexists. split; [reflexivity |].
    unfold memory_wf; simpl. rewrite !length_app, Hlen; simpl.
    rewrite Hcur, Nat2Z.id. rewrite Hcur in Hbound.
    repeat split; try lia.
    + intros Hlt'. rewrite Z.mod_small by lia. lia.
    + rewrite nth_error_app2, Nat.sub_diag by lia. reflexivity.
    + rewrite nth_error_app2 by lia. rewrite Hlen, Nat.sub_diag. reflexivity.
    + intros x Hx. apply in_app_or in Hx. destruct Hx as [Hx | [Hx | []]]; auto.
  - assert (Hfull' : Z.of_nat (List.length (memory m)) = capacity m) by lia.
    rewrite list_setitem_in_range by lia. simpl.
    rewrite list_setitem_in_range by lia. simpl.
    rewrite Hmod. simpl.
    eexists. split; [reflexivity |].
    unfold memory_wf; simpl. rewrite !list_update_length.
    repeat split; try lia.
    + apply list_update_nth. lia.
    + apply list_update_nth. lia.
    + intros x Hx. apply list_update_In in Hx. exact Hx.
Qed.

(** The store of a new agent is well formed when its capacity is
    positive. *)
Lemma init_memory_wf (cap : Z) (a : R) :
  (0 < cap)%Z -> memory_wf (PrioritizedReplayMemory_init cap a).
Proof. intros H. unfold memory_wf; simpl. repeat split; lia. Qed.

(** ** Feedback digest *)

Lemma add_global_success_same (d : SuccessRecord) (k : Z) (s : list R) (r : R) :
  successes_of (_add_global_success d k s r) k = successes_of d k ++ [(s, r)].
Proof.
  induction d as [| [k' v] d IH]; simpl.
  - rewrite Z.eqb_refl. reflexivity.
  - destruct (Z.eqb_spec k' k) as [-> | Hne]; simpl.
    + rewrite Z.eqb_refl. reflexivity.
    + destruct (Z.eqb_spec k' k); [contradiction | exact IH].
Qed.

Lemma add_global_success_other (d : SuccessRecord) (k k' : Z) (s : list R) (r : R) :
  k' <> k ->
  successes_of (_add_global_success d k s r) k' = successes_of d k'.
Proof.
  intros Hne. induction d as [| [k0 v] d IH]; simpl.
  - destruct (Z.eqb_spec k k'); [congruence | reflexivity].
  - destruct (Z.eqb_spec k0 k) as [-> | Hk]; simpl.
    + destruct (Z.eqb_spec k k'); [congruence | reflexivity].
    + destruct (Z.eqb_spec k0 k'); [reflexivity | exact IH].
Qed.

(** [_add_global_success] removes nothing. *)
Lemma add_global_success_keeps (d : SuccessRecord) (k k' : Z) (s : list R)
    (r : R) (e : list R * R) :
  In e (successes_of d k') ->
  In e (successes_of (_add_global_success d k s r) k').
Proof.
  intros H. destruct (Z.eq_dec k' k) as [-> | Hne].
  - rewrite add_global_success_same. apply in_or_app. left. exact H.
  - rewrite add_global_success_other by exact Hne. exact H.
Qed.

(** [process_outcome], once [compute] and [push] have returned. *)
Lemma process_outcome_unfold (digest : FeedbackDigest) (state : State)
    (act : Action) (next_state : State) (adherence : R)
    (reward_dict : RewardComponents) (mem' : PrioritizedReplayMemory) :
  compute (config (agent digest)) state next_state act adherence
  = Ok reward_dict ->
  push (agent_memory (agent digest))
       (outcome_transition (config (agent digest)) state act next_state
                           (total reward_dict))
       (Rabs (total reward_dict) + 1 / 10) = Ok mem' ->
  process_outcome digest state act next_state adherence
  = Ok (total reward_dict,
        {| agent := set_memory (agent digest) mem';
           global_successes :=
             if Rlt_dec (5 / 10) (total reward_dict)
             then _add_global_success (global_successes digest)
                    (_action_to_idx (config (agent digest)) act)
                    (current_signal state) (total reward_dict)
             else global_successes digest |}).
Proof.
  intros Hcompute Hpush. unfold process_outcome. rewrite Hcompute. simpl.
  unfold outcome_transition in Hpush. rewrite Hpush. reflexivity.
Qed.

Lemma tanh_0 : tanh 0 = 0.
Proof. unfold tanh. rewrite sinh_0, cosh_0. field. Qed.

(** Between equal states only the adherence bonus is left of the reward. *)
Lemma compute_same_state (config : RLConfig) (s : State) (act : Action)
    (adherence : R) :
  exists d, compute config s s act adherence = Ok d
            /\ signal_improvement d = 0
            /\ subjective_improvement d = 0
            /\ total d = adherence_bonus_weight config * (adherence * (2 / 10)).
Proof.
  unfold compute, _compute_signal_improvement, _compute_subjective_improvement.
  eexists. split; [reflexivity |]. simpl.
  replace ((health_score s - health_score s) / 10) with 0 by field.
  match goal with
  | |- context [tanh ((?x - ?x) / 20)] =>
      replace ((x - x) / 20) with 0 by field
  end.
  rewrite tanh_0. repeat split; ring.
Qed.

(** C8. On a well-formed store every call of [process_outcome] returns the
    total reward [r] of [compute]; the transition it builds is pushed with
    priority [|r| + 0.1], so that it sits at the write cursor with the
    stored priority [(|r| + 0.1) ** alpha]; the entry
    [(current_signal, r)] is appended to the success record of the action
    index if and only if [r > 0.5], and otherwise the success record is
    left as it was; no entry of the success record is removed.  In
    particular a reward of 0.9 is recorded and a reward of 0.3 is not. *)
Theorem process_outcome_records (digest : FeedbackDigest) (state : State)
    (act : Action) (next_state : State) (adherence : R) :
  memory_wf (agent_memory (agent digest)) ->
  exists reward_dict digest',
    let cfg := config (agent digest) in
    let r := total reward_dict in
    let idx := _action_to_idx cfg act in
    let tr := outcome_transition cfg state act next_state r in
    let mem := agent_memory (agent digest) in
    let mem' := agent_memory (agent digest') in
    let old := global_successes digest in
    let new := global_successes digest' in
    compute cfg state next_state act adherence = Ok reward_dict
    /\ process_outcome digest state act next_state adherence = Ok (r, digest')
    /\ push mem tr (Rabs r + 1 / 10) = Ok mem'
    /\ nth_error (memory mem') (Z.to_nat (position mem)) = Some tr
    /\ nth_error (priorities mem') (Z.to_nat (position mem))
       = Some (PyReal (Rpower (Rabs r + 1 / 10) (alpha mem)))
    /\ (successes_of new idx = successes_of old idx ++ [(current_signal state, r)]
        <-> 5 / 10 < r)
    /\ (~ 5 / 10 < r -> new = old)
    /\ (forall k, k <> idx -> successes_of new k = successes_of old k)
    /\ (forall k e, In e (successes_of old k) -> In e (successes_of new k))
    /\ (r = 9 / 10 -> In (current_signal state, r) (successes_of new idx))
    /\ (r = 3 / 10 -> new = old).
Proof.
  intros Hwf.
  destruct (compute (config (agent digest)) state next_state act adherence)
    as [reward_dict | e] eqn:Hcompute; [| discriminate Hcompute].
  set (r := total reward_dict).
  set (tr := outcome_transition (config (agent digest)) state act next_state r).
  assert (Hprio : 0 < Rabs r + 1 / 10) by (pose proof (Rabs_pos r); lra).
  destruct (push_wf tr Hwf Hprio)
    as (mem' & Hpush & _ & _ & _ & Hnth & Hnthp & _ & _).
  exists reward_dict.
  eexists {| agent := set_memory (agent digest) mem';
             global_successes :=
               if Rlt_dec (5 / 10) r
               then _add_global_success (global_successes digest)
                      (_action_to_idx (config (agent digest)) act)
                      (current_signal state) r
               else global_successes digest |}.
  cbv zeta. simpl agent. simpl global_successes. simpl agent_memory.
  fold r. fold tr.
  split; [exact Hcompute |].
  split; [exact (process_outcome_unfold digest Hcompute Hpush) |].
  split; [exact Hpush |].
  split; [exact Hnth |].
  split; [exact Hnthp |].
  destruct (Rlt_dec (5 / 10) r) as [Hgt | Hle].
  - split.
    { split; [intros _; exact Hgt |].
      intros _. apply add_global_success_same. }
    split; [intros Hn; contradiction |].
    split; [intros k Hk; apply add_global_success_other; exact Hk |].
    split; [intros k e He; apply add_global_success_keeps; exact He |].
    split.
    + intros _. rewrite add_global_success_same. apply in_or_app.
      right. left. reflexivity.
    + intros H3. lra.
  - split.
    { split; [| intros Hgt; contradiction].
      intros Heq. apply (f_equal (@List.length _)) in Heq.
      rewrite length_app in Heq. simpl in Heq. lia. }
    split; [reflexivity |].
    split; [reflexivity |].
    split; [intros k e He; exact He |].
    split; [intros H9; lra | reflexivity].
Qed.

Lemma process_outcome_records_witness :
  memory_wf (agent_memory (agent (fresh_digest adherence_config)))
  /\ exists reward_dict digest',
    let digest := fresh_digest adherence_config in
    let cfg := config (agent digest) in
    let r := total reward_dict in
    let idx := _action_to_idx cfg magnesium in
    let tr := outcome_transition cfg dummy_state magnesium dummy_state r in
    let mem := agent_memory (agent digest) in
    let mem' := agent_memory (agent digest') in
    let old := global_successes digest in
    let new := global_successes digest' in
    compute cfg dummy_state dummy_state magnesium 1 = Ok reward_dict
    /\ process_outcome digest dummy_state magnesium dummy_state 1
       = Ok (r, digest')
    /\ push mem tr (Rabs r + 1 / 10) = Ok mem'
    /\ nth_error (memory mem') (Z.to_nat (position mem)) = Some tr
    /\ nth_error (priorities mem') (Z.to_nat (position mem))
       = Some (PyReal (Rpower (Rabs r + 1 / 10) (alpha mem)))
    /\ (successes_of new idx
        = successes_of old idx ++ [(current_signal dummy_state, r)]
        <-> 5 / 10 < r)
    /\ (~ 5 / 10 < r -> new = old)
    /\ (forall k, k <> idx -> successes_of new k = successes_of old k)
    /\ (forall k e, In e (successes_of old k) -> In e (successes_of new k))
    /\ (r = 9 / 10 -> In (current_signal dummy_state, r) (successes_of new idx))
    /\ (r = 3 / 10 -> new = old).
Proof.
  assert (H : memory_wf (agent_memory (agent (fresh_digest adherence_config)))).
  { unfold memory_wf; simpl. repeat split; lia. }
  split; [exact H |].
  exact (@process_outcome_records (fresh_digest adherence_config) dummy_state
           magnesium dummy_state 1 H).
Defined.

(** The scenario of C8 on runs of the code: between equal states under
    [adherence_config], an adherence of 1 gives the reward 0.9, which is
    recorded, and an adherence of 1/3 gives the reward 0.3, which is not. *)
Example reward_09_recorded_reward_03_not :
  (exists digest',
      process_outcome (fresh_digest adherence_config) dummy_state magnesium
                      dummy_state 1 = Ok (9 / 10, digest')
      /\ global_successes digest' = [(0%Z, [([1], 9 / 10)])])
  /\ (exists digest',
         process_outcome (fresh_digest adherence_config) dummy_state magnesium
                         dummy_state (1 / 3) = Ok (3 / 10, digest')
         /\ global_successes digest' = []).
Proof.
  assert (Hwf : memory_wf (agent_memory (agent (fresh_digest adherence_config)))).
  { unfold memory_wf; simpl. repeat split; lia. }
  split.
  - destruct (compute_same_state adherence_config dummy_state magnesium 1)
      as (d & Hd & _ & _ & Htot).
    assert (Hr : total d = 9 / 10) by (rewrite Htot; simpl; field).
    assert (Hp : 0 < Rabs (total d) + 1 / 10)
      by (pose proof (Rabs_pos (total d)); lra).
    destruct (push_wf (outcome_transition adherence_config dummy_state
                         magnesium dummy_state (total d)) Hwf Hp)
      as (mem' & Hpush & _).
    pose proof (process_outcome_unfold (fresh_digest adherence_config)
                  Hd Hpush) as Hrun.
    rewrite Hr in Hrun. eexists. split; [exact Hrun |]. simpl.
    destruct (Rlt_dec (5 / 10) (9 / 10)); [reflexivity | lra].
  - destruct (compute_same_state adherence_config dummy_state magnesium (1 / 3))
      as (d & Hd & _ & _ & Htot).
    assert (Hr : total d = 3 / 10) by (rewrite Htot; simpl; field).
    assert (Hp : 0 < Rabs (total d) + 1 / 10)
      by (pose proof (Rabs_pos (total d)); lra).
    destruct (push_wf (outcome_transition adherence_config dummy_state
                         magnesium dummy_state (total d)) Hwf Hp)
      as (mem' & Hpush & _).
    pose proof (process_outcome_unfold (fresh_digest adherence_config)
                  Hd Hpush) as Hrun.
    rewrite Hr in Hrun. eexists. split; [exact Hrun |]. simpl.
    destruct (Rlt_dec (5 / 10) (3 / 10)); [lra | reflexivity].
Qed.

(** ** Terminal flag of the stored transitions *)

Lemma getitems_In {A : Type} (seq : list A) (indices : list nat) (xs : list A) :
  getitems seq indices = Ok xs -> forall x, In x xs -> In x seq.
Proof.
  revert xs. induction indices as [| i indices IH]; intros xs H x Hx; simpl in H.
  - inversion H; subst. destruct Hx.
  - destruct (nth_error seq i) as [y |] eqn:Hy; [| discriminate].
    destruct (getitems seq indices) as [ys |]; [| discriminate].
    simpl in H. inversion H; subst. destruct Hx as [<- | Hx].
    + eapply nth_error_In; exact Hy.
    + exact (IH ys eq_refl x Hx).
Qed.

(** For transitions that are not terminal the factor [1 - done] of the
    target is 1. *)
Lemma target_formula_not_terminal (gamma : R) (samples : list Transition)
    (next_q : list R) :
  Forall (fun t => done t = false) samples ->
  target_formula gamma (map reward samples) next_q (map done samples)
  = map2 (fun r q => r + gamma * q) (map reward samples) next_q.
Proof.
  intros H. revert next_q.
  induction H as [| t samples Ht _ IH]; intros [| q next_q]; simpl;
    try reflexivity.
  rewrite Ht, IH. simpl. f_equal. ring.
Qed.

(** One call of [process_outcome] on a well-formed store: it returns, the
    store stays well formed, and every stored transition was stored before
    or is the new one, whose flag [done] is [False]. *)
Lemma process_outcome_step (digest : FeedbackDigest) (state : State)
    (act : Action) (next_state : State) (adherence : R) :
  memory_wf (agent_memory (agent digest)) ->
  exists r digest',
    process_outcome digest state act next_state adherence = Ok (r, digest')
    /\ memory_wf (agent_memory (agent digest'))
    /\ forall t, In t (memory (agent_memory (agent digest'))) ->
         In t (memory (agent_memory (agent digest))) \/ done t = false.
Proof.
  intros Hwf.
  destruct (compute (config (agent digest)) state next_state act adherence)
    as [d | e] eqn:Hd; [| discriminate Hd].
  assert (Hp : 0 < Rabs (total d) + 1 / 10)
    by (pose proof (Rabs_pos (total d)); lra).
  destruct (push_wf (outcome_transition (config (agent digest)) state act
                       next_state (total d)) Hwf Hp)
    as (mem' & Hpush & Hwf' & _ & _ & _ & _ & Hin & _).
  eexists _, _. split; [exact (process_outcome_unfold digest Hd Hpush) |].
  simpl. split; [exact Hwf' |].
  intros t Ht. destruct (Hin t Ht) as [-> | Hold]; [right | left; exact Hold].
  reflexivity.
Qed.

Lemma process_outcomes_run (calls : list Outcome) (digest : FeedbackDigest) :
  memory_wf (agent_memory (agent digest)) ->
  exists digest',
    process_outcomes digest calls = Ok digest'
    /\ memory_wf (agent_memory (agent digest'))
    /\ forall t, In t (memory (agent_memory (agent digest'))) ->
         In t (memory (agent_memory (agent digest))) \/ done t = false.
Proof.
  revert digest. induction calls as [| [[[s a] s'] adh] calls IH];
    intros digest Hwf; simpl.
  - exists digest. split; [reflexivity |]. split; [exact Hwf |].
    intros t Ht. left. exact Ht.
  - destruct (process_outcome_step digest s a s' adh Hwf)
      as (r & d1 & Hrun & Hwf1 & Hin1).
    rewrite Hrun. simpl.
    destruct (IH d1 Hwf1) as (d2 & Hrun2 & Hwf2 & Hin2).
    exists d2. split; [exact Hrun2 |]. split; [exact Hwf2 |].
    intros t Ht. destruct (Hin2 t Ht) as [Hold | Hdone]; [| right; exact Hdone].
    exact (Hin1 t Hold).
Qed.

(** C10. Every run of calls of [process_outcome] on a well-formed store
    returns, and every transition of the store after the run was in the
    store before the run or has [done = False]: no transition that enters
    through [process_outcome] is terminal.  When the store held no
    terminal transition before (as the empty store of a new agent), every
    batch taken from it has the factor [1 - done] of the training target
    equal to 1: the target is [reward + gamma * next_q]. *)
Theorem pushed_transitions_not_terminal
    (digest : FeedbackDigest) (calls : list Outcome) :
  memory_wf (agent_memory (agent digest)) ->
  exists digest',
    process_outcomes digest calls = Ok digest'
    /\ (forall t, In t (memory (agent_memory (agent digest'))) ->
          In t (memory (agent_memory (agent digest)))
          \/ (done t = false /\ 1 - bool_float (done t) = 1))
    /\ (Forall (fun t => done t = false) (memory (agent_memory (agent digest))) ->
        forall gamma draw samples next_q,
          getitems (memory (agent_memory (agent digest'))) draw = Ok samples ->
          Forall (fun t => done t = false) samples
          /\ target_formula gamma (map reward samples) next_q (map done samples)
             = map2 (fun r q => r + gamma * q) (map reward samples) next_q).
Proof.
  intros Hwf.
  destruct (process_outcomes_run calls digest Hwf) as (d' & Hrun & _ & Hin).
  exists d'. split; [exact Hrun |]. split.
  - intros t Ht. destruct (Hin t Ht) as [Hold | Hdone]; [left; exact Hold |].
    right. split; [exact Hdone |]. rewrite Hdone. simpl. ring.
  - intros Hinit gamma draw samples next_q Hget.
    assert (Hall : Forall (fun t => done t = false) samples).
    { rewrite Forall_forall in *. intros t Ht.
      pose proof (getitems_In _ _ Hget t Ht) as Hmem.
      destruct (Hin t Hmem) as [Hold | Hdone]; [exact (Hinit t Hold) | exact Hdone]. }
    split; [exact Hall |].
    apply target_formula_not_terminal. exact Hall.
Qed.

Lemma pushed_transitions_not_terminal_witness :
  let digest := fresh_digest default_config in
  let calls := [(dummy_state, magnesium, dummy_state, 1);
                (dummy_state, yoga, dummy_state, 1 / 2)] in
  memory_wf (agent_memory (agent digest))
  /\ exists digest',
    process_outcomes digest calls = Ok digest'
    /\ (forall t, In t (memory (agent_memory (agent digest'))) ->
          In t (memory (agent_memory (agent digest)))
          \/ (done t = false /\ 1 - bool_float (done t) = 1))
    /\ (Forall (fun t => done t = false) (memory (agent_memory (agent digest))) ->
        forall gamma draw samples next_q,
          getitems (memory (agent_memory (agent digest'))) draw = Ok samples ->
          Forall (fun t => done t = false) samples
          /\ target_formula gamma (map reward samples) next_q (map done samples)
             = map2 (fun r q => r + gamma * q) (map reward samples) next_q).
Proof.
  intros digest calls.
  assert (H : memory_wf (agent_memory (agent digest))).
  { unfold memory_wf; simpl. repeat split; lia. }
  split; [exact H |].
  exact (@pushed_transitions_not_terminal digest calls H).
Defined.

(** ** Double-Q targets *)

(** [argmax_from] returns the first position of the largest entry among
    the best entry so far and the rest of the row. *)
Lemma argmax_from_spec (rest : list R) (best_i : nat) (best : R) (i : nat) :
  (argmax_from best_i best i rest = best_i
   /\ Forall (fun x => x <= best) rest)
  \/ (exists k,
        argmax_from best_i best i rest = (i + k)%nat
        /\ (k < List.length rest)%nat
        /\ best < nth k rest 0
        /\ (forall j, (j < List.length rest)%nat -> nth j rest 0 <= nth k rest 0)
        /\ (forall j, (j < k)%nat -> nth j rest 0 < nth k rest 0)).
Proof.
  revert best_i best i. induction rest as [| x rest IH]; intros best_i best i.
  - left. split; [reflexivity | constructor].
  - simpl argmax_from. destruct (Rlt_dec best x) as [Hlt | Hge].
    + right. destruct (IH i x (S i)) as [[Heq Hall] | (k & Heq & Hk & Hx & Hmax & Hfirst)].
      * exists 0%nat. rewrite Heq, Nat.add_0_r. simpl.
        split; [reflexivity |]. split; [lia |]. split; [exact Hlt |].
        split; [| intros j Hj; lia].
        intros [| j] Hj; [lra |].
        rewrite Forall_forall in Hall. apply Hall. apply nth_In. lia.
      * exists (S k). rewrite Heq. simpl.
        split; [lia |]. split; [lia |]. split; [lra |].
        split.
        -- intros [| j] Hj; [lra | apply Hmax; lia].
        -- intros [| j] Hj; [lra | apply Hfirst; lia].
    + destruct (IH best_i best (S i)) as [[Heq Hall] | (k & Heq & Hk & Hx & Hmax & Hfirst)].
      * left. split; [exact Heq |]. constructor; [lra | exact Hall].
      * right. exists (S k). rewrite Heq. simpl.
        split; [lia |]. split; [lia |]. split; [exact Hx |].
        split.
        -- intros [| j] Hj; [lra | apply Hmax; lia].
        -- intros [| j] Hj; [lra | apply Hfirst; lia].
Qed.

(** [argmax] of a non-empty row: the position returned holds the largest
    entry and is the first to do so. *)
Lemma argmax_spec (row : list R) :
  row <> [] ->
  exists best,
    argmax row = Ok best
    /\ (best < List.length row)%nat
    /\ (forall j, (j < List.length row)%nat -> nth j row 0 <= nth best row 0)
    /\ (forall j, (j < best)%nat -> nth j row 0 < nth best row 0).
Proof.
  destruct row as [| x rest]; [contradiction |]. intros _.
  unfold argmax.
  destruct (argmax_from_spec rest 0 x 1)
    as [[Heq Hall] | (k & Heq & Hk & Hx & Hmax & Hfirst)].
  - exists 0%nat. rewrite Heq. simpl.
    split; [reflexivity |]. split; [lia |]. split; [| intros j Hj; lia].
    intros [| j] Hj; [lra |].
    rewrite Forall_forall in Hall. apply Hall. apply nth_In. lia.
  - exists (S k). rewrite Heq. simpl.
    split; [reflexivity |]. split; [lia |]. split.
    + intros [| j] Hj; [lra | apply Hmax; simpl in Hj; lia].
    + intros [| j] Hj; [lra | apply Hfirst; lia].
Qed.

Section DoubleQ.

Variable StateEncoder_forward : list R -> State -> list R.
Variable QNetwork_forward : list R -> list R -> list R.

(** The three batched steps of the [torch.no_grad()] block, transition by
    transition. *)
Lemma target_block (agent : PrescriptionAgent) (n : nat)
    (transitions : list Transition) :
  (0 < n)%nat ->
  (forall params x, List.length (QNetwork_forward params x) = n) ->
  exists next_actions next_q,
    map_result argmax
      (map (QNetwork_forward (q_network_parameters agent))
         (map (StateEncoder_forward (state_encoder_parameters agent))
            (map next_state transitions))) = Ok next_actions
    /\ gather
         (map (QNetwork_forward (target_network_parameters agent))
            (map (StateEncoder_forward (state_encoder_parameters agent))
               (map next_state transitions)))
         next_actions = Ok next_q
    /\ List.length
         (target_formula (gamma (config agent)) (map reward transitions)
            next_q (map done transitions))
       = List.length transitions
    /\ forall i t, nth_error transitions i = Some t ->
         exists best,
           online_choice StateEncoder_forward QNetwork_forward agent t best
           /\ nth_error
                (target_formula (gamma (config agent))
                   (map reward transitions) next_q (map done transitions)) i
              = Some (double_q_target StateEncoder_forward QNetwork_forward
                      agent t best).
Proof.
  intros Hn Hshape.
  induction transitions as [| t0 transitions IH]; simpl.
  - exists [], []. repeat split; auto.
    intros [| i] t H; discriminate H.
  - destruct IH as (next_actions & next_q & Hact & Hgather & Hlen & Hnth).
    set (enc0 := StateEncoder_forward (state_encoder_parameters agent)
                   (next_state t0)).
    assert (Hrow : QNetwork_forward (q_network_parameters agent) enc0 <> []).
    { intros Heq. apply (f_equal (@List.length R)) in Heq.
      rewrite Hshape in Heq. simpl in Heq. lia. }
    destruct (argmax_spec Hrow) as (best & Hbest & Hlt & Hmax & Hfirst).
    destruct (nth_error (QNetwork_forward (target_network_parameters agent) enc0)
                best) as [q |] eqn:Hq.
    + exists (best :: next_actions), (q :: next_q).
      split; [rewrite Hbest, Hact; reflexivity |].
      split; [rewrite Hq, Hgather; reflexivity |].
      split; [simpl; rewrite Hlen; reflexivity |].
      intros [| i] t Ht; simpl in Ht.
      * inversion Ht; subst t. exists best. split.
        { unfold online_choice. fold enc0. repeat split; assumption. }
        simpl. unfold double_q_target. fold enc0.
        rewrite (nth_error_nth _ _ 0 Hq). f_equal.
        destruct (done t0); unfold bool_float; ring.
      * simpl. apply Hnth. exact Ht.
    + apply nth_error_None in Hq. rewrite Hshape in Hq.
      rewrite Hshape in Hlt. lia.
Qed.

(** What the Double DQN block of [train_step] would compute.  With
    networks that return one value per action of a non-empty action
    space, the block returns one target per transition: the next action
    is the (first) argmax of the online network's values at the encoded
    next state, and the target is the reward of a terminal transition,
    and [reward + gamma * target_network(next_state)[next_action]]
    otherwise. *)
Lemma double_dqn_target_rule (agent : PrescriptionAgent)
    (transitions : list Transition) :
  (0 < total_actions (config agent))%Z ->
  (forall params x,
      List.length (QNetwork_forward params x)
      = Z.to_nat (total_actions (config agent))) ->
  exists target_q,
    double_dqn_target QNetwork_forward agent (map reward transitions)
      (map (StateEncoder_forward (state_encoder_parameters agent))
           (map next_state transitions))
      (map done transitions)
    = Ok target_q
    /\ List.length target_q = List.length transitions
    /\ forall i t, nth_error transitions i = Some t ->
         exists best,
           online_choice StateEncoder_forward QNetwork_forward agent t best
           /\ nth_error target_q i
              = Some (double_q_target StateEncoder_forward QNetwork_forward
                        agent t best).
Proof.
  intros Htotal Hshape.
  assert (Hn : (0 < Z.to_nat (total_actions (config agent)))%nat) by lia.
  destruct (target_block agent transitions Hn Hshape)
    as (next_actions & next_q & Hact & Hgather & Hlen & Hnth).
  unfold double_dqn_target.
  rewrite Hact. cbn [bind]. rewrite Hgather. cbn [bind].
  eexists. split; [reflexivity |]. split; [exact Hlen | exact Hnth].
Qed.

(** C2, on the code.  No call of [train_step] reaches the Double DQN
    block: whatever the agent, its memory, the batch size, the draw and
    the outcome of the optimizer, the call raises [TypeError] at its first
    statement, [len(self.memory)], and leaves the agent as it was.  No
    batch is sampled and no target is computed. *)
Theorem train_step_raises_type_error (agent : PrescriptionAgent)
    (batch_size : Z) (draw : list nat) (optimized : list R * list R) :
  train_step StateEncoder_forward QNetwork_forward batch_size draw optimized
             agent
  = (agent, Raise TypeError).
Proof. reflexivity. Qed.

End DoubleQ.

(** The block on a batch of two transitions, the second one terminal: the
    target of the terminal transition is its reward. *)
Example terminal_transition_target :
  exists target_q,
    double_dqn_target ramp_network drifted_agent
      (map reward [dummy_transition 1; terminal_transition 2])
      (map (signal_encoder (state_encoder_parameters drifted_agent))
           (map next_state [dummy_transition 1; terminal_transition 2]))
      (map done [dummy_transition 1; terminal_transition 2])
    = Ok target_q
    /\ List.length target_q = 2%nat
    /\ nth_error target_q 1 = Some 2.
Proof.
  destruct (@double_dqn_target_rule signal_encoder ramp_network drifted_agent
              [dummy_transition 1; terminal_transition 2])
    as (target_q & Hrun & Hlen & Hnth).
  - unfold total_actions; simpl; lia.
  - intros params x. unfold ramp_network.
    rewrite length_map, length_seq. reflexivity.
  - exists target_q. split; [exact Hrun |]. split; [exact Hlen |].
    destruct (Hnth 1%nat (terminal_transition 2) eq_refl) as (best & _ & H).
    exact H.
Qed.

(** ** Hypothesis generator *)

Lemma np_cov_ramp : np_cov [0; 1; 2] [0; 1; 2] = 1.
Proof. unfold np_cov, np_mean, np_sum. simpl. field. Qed.

Lemma np_corrcoef_ramp : np_corrcoef [0; 1; 2] [0; 1; 2] = Some 1.
Proof.
  unfold np_corrcoef. simpl Nat.leb. cbv iota. rewrite np_cov_ramp.
  destruct (Req_dec_T 1 0) as [H | _]; [lra |].
  rewrite sqrt_1. replace (1 / 1 / 1) with 1 by field.
  f_equal. unfold Rmin, Rmax.
  destruct (Rle_dec 1 1); [| lra].
  destruct (Rle_dec (-1) 1); [reflexivity | lra].
Qed.

(** C3 at a failing input. With the default thresholds (at least 100
    samples, correlation at least 0.5), three signals and an external
    series that follows their feature give one hypothesis of correlation 1
    whose sample size 3 is below the minimum sample size: the minimum
    sample size is stored and never compared. *)
Theorem analyze_correlations_ignores_min_sample_size (format_3f : R -> string) :
  exists h self',
    analyze_correlations format_3f HypothesisGenerator_init three_signals
      air_quality_data ["respiratory_noise"%string] = Ok ([h], self')
    /\ independent_variable h = "air_quality"%string
    /\ dependent_variable h = "respiratory_noise"%string
    /\ correlation h = 1
    /\ min_correlation HypothesisGenerator_init <= Rabs (correlation h)
    /\ sample_size h = 3%Z
    /\ min_sample_size HypothesisGenerator_init = 100%Z
    /\ (sample_size h < min_sample_size HypothesisGenerator_init)%Z.
Proof.
  unfold analyze_correlations, three_signals, air_quality_data.
  cbn [rectangular forallb List.length Nat.eqb andb negb].
  cbn [analyze_series List.length Nat.eqb negb seq analyze_features
       bind].
  unfold analyze_feature, column. cbn [map nth].
  rewrite np_corrcoef_ramp.
  cbn [min_correlation HypothesisGenerator_init].
  destruct (Rle_dec (5 / 10) (Rabs 1)) as [_ | H];
    [| exfalso; apply H; rewrite Rabs_R1; lra].
  cbn [nth_error bind app sort_desc fold_right insert_desc].
  eexists _, _. split; [reflexivity |].
  cbn [independent_variable dependent_variable correlation sample_size
       min_sample_size min_correlation HypothesisGenerator_init List.length].
  repeat split; try reflexivity; try lia.
  rewrite Rabs_R1. lra.
Qed.

Section HypothesisProperties.

Variable format_3f : R -> string.

(** A series whose length differs from the number of signals is passed
    over without error. *)
Lemma analyze_series_skips_mismatch (self : HypothesisGenerator)
    (signals : list (list R)) (ext_name : string) (ext_values : list R)
    (rest : list (string * list R)) (feature_names : list string)
    (discovered : list HypothesisEntry) :
  List.length ext_values <> List.length signals ->
  analyze_series format_3f self signals ((ext_name, ext_values) :: rest)
                 feature_names discovered
  = analyze_series format_3f self signals rest feature_names discovered.
Proof.
  intros Hne. simpl.
  destruct (Nat.eqb_spec (List.length ext_values) (List.length signals));
    [contradiction | reflexivity].
Qed.

Lemma analyze_feature_passes (self : HypothesisGenerator)
    (signals : list (list R)) (ext_name : string) (ext_values : list R)
    (feature_names : list string) (discovered found : list HypothesisEntry)
    (feat_idx : nat) :
  Forall (passes_correlation self signals) discovered ->
  analyze_feature format_3f self signals ext_name ext_values feature_names
                  discovered feat_idx = Ok found ->
  Forall (passes_correlation self signals) found.
Proof.
  intros Hall. unfold analyze_feature.
  destruct (np_corrcoef (column signals feat_idx) ext_values) as [c |];
    [| intros H; inversion H; subst; exact Hall].
  destruct (Rle_dec (min_correlation self) (Rabs c)) as [Hc | _];
    [| intros H; inversion H; subst; exact Hall].
  destruct (nth_error feature_names feat_idx) as [nm |]; [| discriminate].
  intros H; inversion H; subst. apply Forall_app. split; [exact Hall |].
  constructor; [| constructor]. split; [exact Hc | reflexivity].
Qed.

Lemma analyze_features_passes (self : HypothesisGenerator)
    (signals : list (list R)) (ext_name : string) (ext_values : list R)
    (feature_names : list string) (feat_idxs : list nat)
    (discovered found : list HypothesisEntry) :
  Forall (passes_correlation self signals) discovered ->
  analyze_features format_3f self signals ext_name ext_values feature_names
                   feat_idxs discovered = Ok found ->
  Forall (passes_correlation self signals) found.
Proof.
  revert discovered. induction feat_idxs as [| i feat_idxs IH];
    intros discovered Hall; simpl.
  - intros H; inversion H; subst; exact Hall.
  - destruct (analyze_feature format_3f self signals ext_name ext_values
                feature_names discovered i) as [d' |] eqn:Hd; [| discriminate].
    simpl. apply IH. eapply analyze_feature_passes; eassumption.
Qed.

Lemma analyze_series_passes (self : HypothesisGenerator)
    (signals : list (list R)) (external_data : list (string * list R))
    (feature_names : list string) (discovered found : list HypothesisEntry) :
  Forall (passes_correlation self signals) discovered ->
  analyze_series format_3f self signals external_data feature_names discovered
  = Ok found ->
  Forall (passes_correlation self signals) found.
Proof.
  revert discovered.
  induction external_data as [| [ext_name ext_values] rest IH];
    intros discovered Hall; simpl.
  - intros H; inversion H; subst; exact Hall.
  - destruct (negb (List.length ext_values =? List.length signals)%nat);
      [apply IH; exact Hall |].
    destruct signals as [| row signals']; [discriminate |].
    destruct (analyze_features format_3f self (row :: signals') ext_name
                ext_values feature_names (seq 0 (List.length row)) discovered)
      as [d' |] eqn:Hd; [| discriminate].
    simpl. apply IH. eapply analyze_features_passes; eassumption.
Qed.

Lemma insert_desc_In (h x : HypothesisEntry) (l : list HypothesisEntry) :
  In x (insert_desc h l) <-> x = h \/ In x l.
Proof.
  induction l as [| y l IH]; simpl.
  - intuition.
  - destruct (Rle_dec (strength y) (strength h)); simpl; [intuition |].
    rewrite IH. intuition.
Qed.

Lemma sort_desc_In (x : HypothesisEntry) (l : list HypothesisEntry) :
  In x (sort_desc l) <-> In x l.
Proof.
  induction l as [| h l IH]; simpl; [reflexivity |].
  rewrite insert_desc_In, IH. intuition.
Qed.

Lemma insert_desc_sorted (h : HypothesisEntry) (l : list HypothesisEntry) :
  StronglySorted stronger_first l ->
  StronglySorted stronger_first (insert_desc h l).
Proof.
  induction 1 as [| y l Hsorted IH Hall]; simpl.
  - constructor; constructor.
  - destruct (Rle_dec (strength y) (strength h)) as [Hle | Hgt].
    + constructor; [constructor; assumption |].
      constructor; [exact Hle |].
      eapply Forall_impl; [| exact Hall].
      unfold stronger_first. intros z Hz. lra.
    + constructor; [exact IH |].
      rewrite Forall_forall in *. intros z Hz.
      apply insert_desc_In in Hz. destruct Hz as [-> | Hz].
      * unfold stronger_first. lra.
      * apply Hall. exact Hz.
Qed.

Lemma sort_desc_sorted (l : list HypothesisEntry) :
  StronglySorted stronger_first (sort_desc l).
Proof.
  induction l as [| h l IH]; simpl; [constructor |].
  apply insert_desc_sorted. exact IH.
Qed.

(** What every returning call of [analyze_correlations] gives: the list
    is in descending order of absolute correlation and is appended to the
    log; every hypothesis reaches the minimum correlation and records the
    number of signals as its sample size, whatever the minimum sample
    size. *)
Lemma analyze_correlations_result (self self' : HypothesisGenerator)
    (signals : list (list R)) (external_data : list (string * list R))
    (feature_names : list string) (discovered : list HypothesisEntry) :
  analyze_correlations format_3f self signals external_data feature_names
  = Ok (discovered, self') ->
  StronglySorted stronger_first discovered
  /\ Forall (passes_correlation self signals) discovered
  /\ hypotheses self' = hypotheses self ++ discovered.
Proof.
  unfold analyze_correlations.
  destruct (negb (rectangular signals)); [discriminate |].
  destruct (analyze_series format_3f self signals external_data feature_names [])
    as [found |] eqn:Hfound; [| discriminate].
  simpl. intros H; inversion H; subst; clear H. simpl.
  split; [apply sort_desc_sorted |]. split; [| reflexivity].
  assert (Hall : Forall (passes_correlation self signals) found)
    by (eapply analyze_series_passes; [apply Forall_nil | exact Hfound]).
  rewrite Forall_forall in *. intros h Hh. apply Hall.
  apply sort_desc_In. exact Hh.
Qed.

End HypothesisProperties.

(** * Further properties *)

(** ** Action catalog *)

(** X1. The boundary pairs built by the agent are the four category ranges
    in the order of [ActionType]; with sizes that are not negative an
    index lies in [0, total) exactly when some category range holds it,
    and no index lies in two ranges. *)
Theorem action_ranges_partition (config : RLConfig) (idx : Z) :
  sizes_nonnegative config ->
  action_boundaries config
  = map (fun ty => (range_start config ty,
                    (range_start config ty + range_size config ty)%Z))
        ActionType_members
  /\ ((0 <= idx < total_actions config)%Z
      <-> exists ty, in_range config ty idx)
  /\ (forall ty ty',
         in_range config ty idx -> in_range config ty' idx -> ty = ty').
Proof.
  intros Hsz. split; [reflexivity |]. split.
  - split.
    + apply ranges_cover.
    + intros (ty & Hin). exact (in_range_total Hsz Hin).
  - intros ty ty' H H'. exact (ranges_disjoint Hsz H H').
Qed.

Lemma action_ranges_partition_witness :
  action_boundaries default_config
  = map (fun ty => (range_start default_config ty,
                    (range_start default_config ty
                     + range_size default_config ty)%Z))
        ActionType_members
  /\ ((0 <= 75 < total_actions default_config)%Z
      <-> exists ty, in_range default_config ty 75)
  /\ (forall ty ty',
         in_range default_config ty 75 -> in_range default_config ty' 75 ->
         ty = ty').
Proof.
  apply (@action_ranges_partition default_config 75).
  unfold sizes_nonnegative; simpl; lia.
Defined.

(** X2. The round trip in the other direction: for an action whose local
    id lies inside its category, [_idx_to_action] applied to its global
    index returns an action of the same category and local id; two such
    actions with one global index therefore agree on category and id. *)
Theorem action_to_idx_round_trip (config : RLConfig) (rnd : nat) (c : R)
    (a : Action) :
  sizes_nonnegative config ->
  (0 <= action_id a < range_size config (action_type a))%Z ->
  (exists a',
      _idx_to_action config rnd (_action_to_idx config a) c = Ok a'
      /\ action_type a' = action_type a
      /\ action_id a' = action_id a)
  /\ (forall b,
         (0 <= action_id b < range_size config (action_type b))%Z ->
         _action_to_idx config b = _action_to_idx config a ->
         action_type b = action_type a /\ action_id b = action_id a).
Proof.
  intros Hsz Hid.
  assert (Hvalid : forall x : Action,
             (0 <= action_id x < range_size config (action_type x))%Z ->
             in_range config (action_type x) (_action_to_idx config x)).
  { intros x Hx. rewrite action_to_idx_range_start. unfold in_range. lia. }
  split.
  - pose proof (Hvalid a Hid) as Hin.
    destruct (find_boundary_cases config (_action_to_idx config a))
      as [(k & ty & Hfind & Hty & Hin') | (_ & Hnone)];
      [| exfalso; exact (Hnone _ Hin)].
    destruct (idx_to_action_found config rnd (_action_to_idx config a) c
                Hfind Hty) as (a' & Ha' & Hat & Hai).
    pose proof (ranges_disjoint Hsz Hin' Hin) as Heq.
    rewrite Heq in Hat, Hai.
    exists a'. split; [exact Ha' |]. split; [exact Hat |].
    rewrite Hai, action_to_idx_range_start. lia.
  - intros b Hb Heq.
    pose proof (Hvalid a Hid) as Hina. pose proof (Hvalid b Hb) as Hinb.
    rewrite Heq in Hinb.
    pose proof (ranges_disjoint Hsz Hinb Hina) as Hty.
    split; [exact Hty |].
    rewrite !action_to_idx_range_start, Hty in Heq. lia.
Qed.

Lemma action_to_idx_round_trip_witness :
  (exists a',
      _idx_to_action default_config 0 (_action_to_idx default_config yoga) 0
      = Ok a'
      /\ action_type a' = action_type yoga
      /\ action_id a' = action_id yoga)
  /\ (forall b,
         (0 <= action_id b < range_size default_config (action_type b))%Z ->
         _action_to_idx default_config b = _action_to_idx default_config yoga ->
         action_type b = action_type yoga /\ action_id b = action_id yoga).
Proof.
  apply (@action_to_idx_round_trip default_config 0 0 yoga).
  - unfold sizes_nonnegative; simpl; lia.
  - simpl; lia.
Defined.

Lemma sigmoid_bounds (x : R) : 0 <= sigmoid x <= 1.
Proof.
  unfold sigmoid. pose proof (exp_pos (- x)) as He.
  split.
  - apply Rlt_le. apply Rdiv_lt_0_compat; lra.
  - apply (Rmult_le_reg_r (1 + exp (- x))); [lra |].
    unfold Rdiv. rewrite Rmult_assoc, Rinv_l by lra. lra.
Qed.

Lemma catalog_get_nutrient_none (k : Z) :
  ~ (0 <= k <= 9)%Z -> catalog_get NUTRIENT_CATALOG k = None.
Proof.
  intros Hk. unfold NUTRIENT_CATALOG. cbn [catalog_get].
  repeat match goal with
         | |- context [Z.eqb ?n k] => destruct (Z.eqb_spec n k); [lia |]
         end.
  reflexivity.
Qed.

Lemma catalog_get_exercise_none (k : Z) :
  ~ (0 <= k <= 7)%Z -> catalog_get EXERCISE_CATALOG k = None.
Proof.
  intros Hk. unfold EXERCISE_CATALOG. cbn [catalog_get].
  repeat match goal with
         | |- context [Z.eqb ?n k] => destruct (Z.eqb_spec n k); [lia |]
         end.
  reflexivity.
Qed.

(** X3. What every action returned by [_idx_to_action] looks like: the
    confidence lies in [0, 1], [duration] is never filled, a nutrient
    carries dosage, frequency and timing, an exercise carries dosage and
    frequency and no timing, and a sleep or lifestyle action carries none
    of them and is named after its category and local id. *)
Theorem idx_to_action_fields (config : RLConfig) (rnd : nat) (idx : Z) (c : R)
    (a : Action) :
  _idx_to_action config rnd idx c = Ok a ->
  0 <= confidence a <= 1
  /\ duration a = None
  /\ match action_type a with
     | NUTRIENT =>
         dosage a <> None /\ frequency a <> None /\ timing a <> None
     | EXERCISE =>
         dosage a <> None /\ frequency a <> None /\ timing a = None
     | ty =>
         dosage a = None /\ frequency a = None /\ timing a = None
         /\ name a = (ActionType_value ty ++ "_" ++ str_int (action_id a))%string
     end.
Proof.
  unfold _idx_to_action.
  destruct (find_boundary (action_boundaries config) 0 idx) as [[i l] |];
    [| discriminate].
  destruct (nth_error ActionType_members i) as [ty |]; [| discriminate].
  destruct ty.
  - destruct (catalog_get NUTRIENT_CATALOG l) as [[[[n d] f] t] |];
      intros H; inversion H; subst; simpl;
      (split; [apply sigmoid_bounds |]); repeat split; discriminate.
  - destruct (catalog_get EXERCISE_CATALOG l) as [[[n d] f] |];
      intros H; inversion H; subst; simpl;
      (split; [apply sigmoid_bounds |]); repeat split; discriminate.
  - intros H; inversion H; subst; simpl.
    split; [apply sigmoid_bounds |]. repeat split.
  - intros H; inversion H; subst; simpl.
    split; [apply sigmoid_bounds |]. repeat split.
Qed.

Lemma idx_to_action_fields_witness :
  exists a,
    _idx_to_action default_config 0 55 2 = Ok a
    /\ 0 <= confidence a <= 1
    /\ duration a = None
    /\ match action_type a with
       | NUTRIENT =>
           dosage a <> None /\ frequency a <> None /\ timing a <> None
       | EXERCISE =>
           dosage a <> None /\ frequency a <> None /\ timing a = None
       | ty =>
           dosage a = None /\ frequency a = None /\ timing a = None
           /\ name a = (ActionType_value ty ++ "_" ++ str_int (action_id a))%string
       end.
Proof.
  eexists. split; [reflexivity |].
  apply (@idx_to_action_fields default_config 0 55 2). reflexivity.
Defined.

(** X4. The action space is larger than the curated catalogs: a nutrient
    whose local id is not one of the ten catalog keys is named
    [Nutrient_<id>] with the dosage "standard", daily, at any time, and an
    exercise whose local id is not one of the eight catalog keys is named
    [Exercise_<id>] with the dosage "30min", daily. *)
Theorem idx_to_action_beyond_catalog (config : RLConfig) (rnd : nat) (idx : Z)
    (c : R) (a : Action) :
  _idx_to_action config rnd idx c = Ok a ->
  (action_type a = NUTRIENT -> ~ (0 <= action_id a <= 9)%Z ->
   name a = ("Nutrient_" ++ str_int (action_id a))%string
   /\ dosage a = Some "standard"%string
   /\ frequency a = Some "daily"%string
   /\ timing a = Some "any"%string)
  /\ (action_type a = EXERCISE -> ~ (0 <= action_id a <= 7)%Z ->
      name a = ("Exercise_" ++ str_int (action_id a))%string
      /\ dosage a = Some "30min"%string
      /\ frequency a = Some "daily"%string
      /\ timing a = None).
Proof.
  unfold _idx_to_action.
  destruct (find_boundary (action_boundaries config) 0 idx) as [[i l] |];
    [| discriminate].
  destruct (nth_error ActionType_members i) as [ty |]; [| discriminate].
  destruct ty.
  - destruct (catalog_get NUTRIENT_CATALOG l) as [[[[n d] f] t] |] eqn:Hc;
      intros H; inversion H; subst; simpl; (split; [| discriminate]).
    + intros _ Hk. rewrite (catalog_get_nutrient_none Hk) in Hc. discriminate.
    + intros _ _. repeat split.
  - destruct (catalog_get EXERCISE_CATALOG l) as [[[n d] f] |] eqn:Hc;
      intros H; inversion H; subst; simpl; (split; [discriminate |]).
    + intros _ Hk. rewrite (catalog_get_exercise_none Hk) in Hc. discriminate.
    + intros _ _. repeat split.
  - intros H; inversion H; subst; simpl. split; discriminate.
  - intros H; inversion H; subst; simpl. split; discriminate.
Qed.

Lemma idx_to_action_beyond_catalog_witness :
  exists a,
    _idx_to_action default_config 0 12 0 = Ok a
    /\ (action_type a = NUTRIENT -> ~ (0 <= action_id a <= 9)%Z ->
        name a = ("Nutrient_" ++ str_int (action_id a))%string
        /\ dosage a = Some "standard"%string
        /\ frequency a = Some "daily"%string
        /\ timing a = Some "any"%string)
    /\ (action_type a = EXERCISE -> ~ (0 <= action_id a <= 7)%Z ->
        name a = ("Exercise_" ++ str_int (action_id a))%string
        /\ dosage a = Some "30min"%string
        /\ frequency a = Some "daily"%string
        /\ timing a = None).
Proof.
  eexists. split; [reflexivity |].
  apply (@idx_to_action_beyond_catalog default_config 0 12 0). reflexivity.
Defined.

(** ** Reward calculator *)

Lemma tanh_quotient (x : R) :
  tanh x = (exp x - exp (- x)) / (exp x + exp (- x)).
Proof.
  unfold tanh, sinh, cosh.
  pose proof (exp_pos x). pose proof (exp_pos (- x)). field. lra.
Qed.

Lemma tanh_bounds (x : R) : -1 <= tanh x <= 1.
Proof.
  rewrite tanh_quotient.
  pose proof (exp_pos x) as Ha. pose proof (exp_pos (- x)) as Hb.
  assert (Hs : 0 < exp x + exp (- x)) by lra.
  split.
  - apply (Rmult_le_reg_r (exp x + exp (- x))); [exact Hs |].
    unfold Rdiv. rewrite Rmult_assoc, Rinv_l by lra. lra.
  - apply (Rmult_le_reg_r (exp x + exp (- x))); [exact Hs |].
    unfold Rdiv. rewrite Rmult_assoc, Rinv_l by lra. lra.
Qed.

Lemma tanh_odd (x : R) : tanh (- x) = - tanh x.
Proof.
  rewrite !tanh_quotient, Ropp_involutive.
  pose proof (exp_pos x). pose proof (exp_pos (- x)). field. lra.
Qed.

Lemma exp_le (x y : R) : x <= y -> exp x <= exp y.
Proof.
  intros [Hlt | ->]; [apply Rlt_le, exp_increasing; exact Hlt | lra].
Qed.

Lemma tanh_monotone (x y : R) : x <= y -> tanh x <= tanh y.
Proof.
  intros Hxy. rewrite !tanh_quotient.
  pose proof (exp_pos x) as Ha. pose proof (exp_pos (- x)) as Hb.
  pose proof (exp_pos y) as Ha'. pose proof (exp_pos (- y)) as Hb'.
  pose proof (exp_le Hxy) as Hexp.
  assert (Hexp' : exp (- y) <= exp (- x)) by (apply exp_le; lra).
  apply (Rmult_le_reg_r ((exp x + exp (- x)) * (exp y + exp (- y)))).
  { apply Rmult_lt_0_compat; lra. }
  replace ((exp x - exp (- x)) / (exp x + exp (- x))
           * ((exp x + exp (- x)) * (exp y + exp (- y))))
    with ((exp x - exp (- x)) * (exp y + exp (- y))) by (field; lra).
  replace ((exp y - exp (- y)) / (exp y + exp (- y))
           * ((exp x + exp (- x)) * (exp y + exp (- y))))
    with ((exp y - exp (- y)) * (exp x + exp (- x))) by (field; lra).
  assert (exp x * exp (- y) <= exp y * exp (- x)).
  { apply Rmult_le_compat; lra. }
  lra.
Qed.

Lemma dict_get_absent (d : list (string * R)) (key : string) (default : R) :
  ~ has_key d key -> dict_get d key default = default.
Proof.
  unfold has_key. induction d as [| [k v] d IH]; intros Habs; simpl.
  - reflexivity.
  - destruct (String.eqb_spec k key) as [-> | Hne].
    + exfalso. apply Habs. exists v. left. reflexivity.
    + apply IH. intros (w & Hw). apply Habs. exists w. right. exact Hw.
Qed.

(** X5. With weights that are not negative and an adherence in [0, 1],
    the two improvements returned by [compute] lie in [-1, 1], the
    adherence bonus in [0, 0.2], and the total between
    [-(w_signal + w_subjective)] and
    [w_signal + w_subjective + 0.2 * w_adherence]. *)
Theorem compute_bounds (config : RLConfig) (prev curr : State) (act : Action)
    (adherence : R) :
  weights_nonnegative config ->
  0 <= adherence <= 1 ->
  exists d,
    compute config prev curr act adherence = Ok d
    /\ -1 <= signal_improvement d <= 1
    /\ -1 <= subjective_improvement d <= 1
    /\ 0 <= adherence_bonus d <= 2 / 10
    /\ - (signal_improvement_weight config + subjective_condition_weight config)
       <= total d
       <= signal_improvement_weight config + subjective_condition_weight config
          + 2 / 10 * adherence_bonus_weight config.
Proof.
  intros (Hs & Hj & Ha) Hadh. unfold compute. eexists.
  split; [reflexivity |]. simpl.
  pose proof (tanh_bounds ((health_score curr - health_score prev) / 10)) as H1.
  fold (_compute_signal_improvement prev curr) in H1 |- *.
  assert (H2 : -1 <= _compute_subjective_improvement prev curr <= 1)
    by (unfold _compute_subjective_improvement; apply tanh_bounds).
  repeat split; try lra; try nra.
Qed.

Lemma compute_bounds_witness :
  exists d,
    compute default_config dummy_state dummy_state magnesium (1 / 2) = Ok d
    /\ -1 <= signal_improvement d <= 1
    /\ -1 <= subjective_improvement d <= 1
    /\ 0 <= adherence_bonus d <= 2 / 10
    /\ - (signal_improvement_weight default_config
          + subjective_condition_weight default_config)
       <= total d
       <= signal_improvement_weight default_config
          + subjective_condition_weight default_config
          + 2 / 10 * adherence_bonus_weight default_config.
Proof.
  apply (@compute_bounds default_config dummy_state dummy_state magnesium (1 / 2)).
  - unfold weights_nonnegative; simpl; lra.
  - lra.
Defined.

(** X6. Exchanging the two states negates both improvements: what
    [compute] credits for a change it debits for the change back, and the
    two totals add up to twice the adherence term. *)
Theorem compute_antisymmetric (config : RLConfig) (s1 s2 : State)
    (act : Action) (adherence : R) :
  exists d d',
    compute config s1 s2 act adherence = Ok d
    /\ compute config s2 s1 act adherence = Ok d'
    /\ signal_improvement d' = - signal_improvement d
    /\ subjective_improvement d' = - subjective_improvement d
    /\ total d + total d'
       = 2 * (adherence_bonus_weight config * (adherence * (2 / 10))).
Proof.
  unfold compute. eexists _, _.
  split; [reflexivity |]. split; [reflexivity |]. simpl.
  assert (H1 : _compute_signal_improvement s2 s1
               = - _compute_signal_improvement s1 s2).
  { unfold _compute_signal_improvement. rewrite <- tanh_odd. f_equal. field. }
  assert (H2 : _compute_subjective_improvement s2 s1
               = - _compute_subjective_improvement s1 s2).
  { unfold _compute_subjective_improvement. rewrite <- tanh_odd. f_equal. field. }
  rewrite H1, H2. repeat split; ring.
Qed.

(** X7. A subjective score missing from a state counts as 50: when neither
    state records "subjective_wellbeing" the subjective improvement is 0,
    and when only the state before lacks it the improvement is measured
    from 50. *)
Theorem compute_missing_wellbeing (config : RLConfig) (prev curr : State)
    (act : Action) (adherence : R) :
  ~ has_key (biomarkers prev) "subjective_wellbeing" ->
  exists d,
    compute config prev curr act adherence = Ok d
    /\ subjective_improvement d
       = tanh ((dict_get (biomarkers curr) "subjective_wellbeing" 50 - 50) / 20)
    /\ (~ has_key (biomarkers curr) "subjective_wellbeing" ->
        subjective_improvement d = 0).
Proof.
  intros Hprev. unfold compute. eexists. split; [reflexivity |]. simpl.
  unfold _compute_subjective_improvement.
  rewrite (dict_get_absent 50 Hprev). split; [reflexivity |].
  intros Hcurr. rewrite (dict_get_absent 50 Hcurr).
  replace ((50 - 50) / 20) with 0 by field. apply tanh_0.
Qed.

Lemma compute_missing_wellbeing_witness :
  exists d,
    compute default_config dummy_state dummy_state magnesium 1 = Ok d
    /\ subjective_improvement d
       = tanh ((dict_get (biomarkers dummy_state) "subjective_wellbeing" 50
                - 50) / 20)
    /\ (~ has_key (biomarkers dummy_state) "subjective_wellbeing" ->
        subjective_improvement d = 0).
Proof.
  apply (@compute_missing_wellbeing default_config dummy_state dummy_state
           magnesium 1).
  intros (v & [H | [H | []]]); inversion H.
Defined.

(** X8. Between two equal states nothing but adherence is rewarded: both
    improvements are 0, the total is the weighted adherence bonus, and it
    is 0 for an adherence of 0. *)
Theorem compute_no_change (config : RLConfig) (s : State) (act : Action)
    (adherence : R) :
  exists d,
    compute config s s act adherence = Ok d
    /\ signal_improvement d = 0
    /\ subjective_improvement d = 0
    /\ total d = adherence_bonus_weight config * (adherence * (2 / 10))
    /\ (adherence = 0 -> total d = 0).
Proof.
  destruct (compute_same_state config s act adherence)
    as (d & Hd & Hs & Hj & Ht).
  exists d. repeat split; try assumption.
  intros H0. rewrite Ht, H0. ring.
Qed.

(** X9. The reward does not decrease with the health score measured after
    the action: with a signal weight that is not negative, a higher health
    score of the next state gives a signal improvement and a total at
    least as large, all else equal. *)
Theorem compute_monotone_in_health (config : RLConfig) (prev curr : State)
    (act : Action) (adherence h h' : R) :
  0 <= signal_improvement_weight config ->
  h <= h' ->
  exists d d',
    compute config prev (with_health_score curr h) act adherence = Ok d
    /\ compute config prev (with_health_score curr h') act adherence = Ok d'
    /\ signal_improvement d <= signal_improvement d'
    /\ subjective_improvement d = subjective_improvement d'
    /\ total d <= total d'.
Proof.
  intros Hw Hh. unfold compute. eexists _, _.
  split; [reflexivity |]. split; [reflexivity |]. simpl.
  assert (Hmono : _compute_signal_improvement prev (with_health_score curr h)
                  <= _compute_signal_improvement prev (with_health_score curr h')).
  { unfold _compute_signal_improvement. simpl. apply tanh_monotone.
    unfold Rdiv. apply Rmult_le_compat_r; lra. }
  split; [exact Hmono |].
  assert (Hsub : _compute_subjective_improvement prev (with_health_score curr h)
                 = _compute_subjective_improvement prev (with_health_score curr h'))
    by reflexivity.
  split; [exact Hsub |]. rewrite Hsub.
  pose proof (Rmult_le_compat_l _ _ _ Hw Hmono). lra.
Qed.

Lemma compute_monotone_in_health_witness :
  exists d d',
    compute default_config dummy_state (with_health_score dummy_state 70)
            magnesium 1 = Ok d
    /\ compute default_config dummy_state (with_health_score dummy_state 80)
               magnesium 1 = Ok d'
    /\ signal_improvement d <= signal_improvement d'
    /\ subjective_improvement d = subjective_improvement d'
    /\ total d <= total d'.
Proof.
  apply (@compute_monotone_in_health default_config dummy_state dummy_state
           magnesium 1 70 80).
  - simpl; lra.
  - lra.
Defined.

(** ** Prioritized replay: the cyclic store *)

Lemma list_update_split {A : Type} (l : list A) (n : nat) (v : A) :
  (n < List.length l)%nat ->
  list_update l n v = firstn n l ++ v :: skipn (S n) l.
Proof.
  revert n. induction l as [| x l IH]; intros [| n] H; simpl in *; try lia.
  - reflexivity.
  - f_equal. apply IH. lia.
Qed.

Lemma list_update_other {A : Type} (l : list A) (n i : nat) (v : A) :
  i <> n -> nth_error (list_update l n v) i = nth_error l i.
Proof.
  revert n i. induction l as [| x l IH]; intros [| n] [| i] H; simpl;
    try reflexivity; try congruence.
  apply IH. congruence.
Qed.

(** [push] on a well-formed store, whatever the priority: it goes as far
    as the power goes, appends until the store is full and overwrites the
    entry under the cursor afterwards, and moves the cursor one step round
    the store. *)
Lemma push_general (m : PrioritizedReplayMemory) (t : Transition) (p : R)
    (v : pynum) :
  memory_wf m ->
  float_pow p (alpha m) = Ok v ->
  exists m',
    push m t p = Ok m'
    /\ memory_wf m'
    /\ capacity m' = capacity m /\ alpha m' = alpha m
    /\ position m' = ((position m + 1) mod capacity m)%Z
    /\ memory m'
       = (if (Z.of_nat (List.length (memory m)) <? capacity m)%Z
          then memory m ++ [t]
          else list_update (memory m) (Z.to_nat (position m)) t)
    /\ priorities m'
       = (if (Z.of_nat (List.length (memory m)) <? capacity m)%Z
          then priorities m ++ [v]
          else list_update (priorities m) (Z.to_nat (position m)) v).
Proof.
  intros (Hcap & Hlen & Hle & Hpos & Hcur) Hpow.
  unfold push. rewrite Hpow.
  assert (Hmod : int_mod (position m + 1) (capacity m)
                 = Ok ((position m + 1) mod capacity m)%Z).
  { unfold int_mod. destruct (Z.eqb_spec (capacity m) 0); [lia | reflexivity]. }
  pose proof (Z.mod_pos_bound (position m + 1) (capacity m) Hcap) as Hbound.
  destruct (Z.ltb_spec (Z.of_nat (List.length (memory m))) (capacity m))
    as [Hlt | Hfull]; simpl.
  - rewrite Hmod. simpl. specialize (Hcur Hlt).
    eexists. split; [reflexivity |].
    unfold memory_wf; simpl. rewrite !length_app, Hlen; simpl.
    rewrite Hcur in Hbound |- *.
    repeat split; try lia.
    intros Hlt'. rewrite Z.mod_small by lia. lia.
  - assert (Hfull' : Z.of_nat (List.length (memory m)) = capacity m) by lia.
    rewrite list_setitem_in_range by lia. simpl.
    rewrite list_setitem_in_range by lia. simpl.
    rewrite Hmod. simpl.
    eexists. split; [reflexivity |].
    unfold memory_wf; simpl. rewrite !list_update_length.
    repeat split; lia.
Qed.

(** [push] is the outcome of [push_call], the power being the one of the
    idealised floats. *)
Lemma push_call_outcome (m : PrioritizedReplayMemory) (t : Transition)
    (p : R) :
  push m t p
  = match push_call t (float_pow p (alpha m)) m with
    | (m', Ok _) => Ok m'
    | (_, Raise e) => Raise e
    end.
Proof.
  unfold push, push_call, Call.bind, Call.get, Call.modify, Call.lift.
  destruct (Z.of_nat (List.length (memory m)) <? capacity m)%Z.
  - destruct (float_pow p (alpha m)) as [v | e]; cbn; [| reflexivity].
    destruct (int_mod (position m + 1) (capacity m)); reflexivity.
  - destruct (list_setitem (memory m) (position m) t) as [mem | e]; cbn;
      [| reflexivity].
    destruct (float_pow p (alpha m)) as [v | e]; cbn; [| reflexivity].
    destruct (list_setitem (priorities m) (position m) v) as [prios | e];
      cbn; [| reflexivity].
    destruct (int_mod (position m + 1) (capacity m)); reflexivity.
Qed.

(** X10. [push] keeps the invariant of the store exactly when the power
    [priority ** self.alpha] returns.  If the power returns a value, the
    call returns and leaves a well-formed store of
    [min (len + 1) capacity] entries with one priority per entry.  If the
    power raises, the call raises the same exception after the transition
    has been written: the priorities and the cursor are as before, a store
    that was not full holds one more transition than priorities and is no
    longer well formed, and a full store has the transition under its
    cursor replaced. *)
Theorem push_keeps_invariant (m : PrioritizedReplayMemory) (t : Transition) :
  memory_wf m ->
  (forall v,
      exists m',
        push_call t (Ok v) m = (m', Ok tt)
        /\ memory_wf m'
        /\ capacity m' = capacity m
        /\ Z.of_nat (List.length (memory m'))
           = Z.min (Z.of_nat (List.length (memory m)) + 1) (capacity m)
        /\ List.length (priorities m') = List.length (memory m'))
  /\ (forall e,
         exists m',
           push_call t (Raise e) m = (m', Raise e)
           /\ priorities m' = priorities m
           /\ position m' = position m
           /\ memory m'
              = (if (Z.of_nat (List.length (memory m)) <? capacity m)%Z
                 then memory m ++ [t]
                 else list_update (memory m) (Z.to_nat (position m)) t)
           /\ ((Z.of_nat (List.length (memory m)) < capacity m)%Z ->
               List.length (memory m') = S (List.length (priorities m'))
               /\ ~ memory_wf m')).
Proof.
  intros (Hcap & Hlen & Hle & Hpos & Hcur).
  assert (Hmod : int_mod (position m + 1) (capacity m)
                 = Ok ((position m + 1) mod capacity m)%Z).
  { unfold int_mod. destruct (Z.eqb_spec (capacity m) 0); [lia | reflexivity]. }
  pose proof (Z.mod_pos_bound (position m + 1) (capacity m) Hcap) as Hbound.
  split.
  - intros v.
    unfold push_call, Call.bind, Call.get, Call.modify, Call.lift.
    destruct (Z.ltb_spec (Z.of_nat (List.length (memory m))) (capacity m))
      as [Hlt | Hfull]; cbn.
    + rewrite Hmod. specialize (Hcur Hlt).
      eexists. split; [reflexivity |].
      unfold memory_wf; cbn. rewrite !length_app, Hlen; cbn.
      rewrite Hcur in Hbound |- *.
      repeat split; try lia.
      intros Hlt'. rewrite Z.mod_small by lia. lia.
    + rewrite list_setitem_in_range by lia. cbn.
      rewrite list_setitem_in_range by lia. cbn.
      rewrite Hmod.
      eexists. split; [reflexivity |].
      unfold memory_wf; cbn. rewrite !list_update_length.
      repeat split; lia.
  - intros e.
    unfold push_call, Call.bind, Call.get, Call.modify, Call.lift.
    destruct (Z.ltb_spec (Z.of_nat (List.length (memory m))) (capacity m))
      as [Hlt | Hfull]; cbn.
    + eexists. split; [reflexivity |]. cbn.
      repeat split; try reflexivity.
      * rewrite length_app, Hlen. cbn. lia.
      * intros (_ & Hlen' & _). cbn in Hlen'.
        rewrite length_app in Hlen'. cbn in Hlen'. lia.
    + rewrite list_setitem_in_range by lia. cbn.
      eexists. split; [reflexivity |]. cbn.
      repeat split; try reflexivity; lia.
Qed.

Lemma push_keeps_invariant_witness :
  (forall v,
      exists m',
        push_call (dummy_transition 2) (Ok v) two_entry_memory = (m', Ok tt)
        /\ memory_wf m'
        /\ capacity m' = capacity two_entry_memory
        /\ Z.of_nat (List.length (memory m'))
           = Z.min (Z.of_nat (List.length (memory two_entry_memory)) + 1)
                   (capacity two_entry_memory)
        /\ List.length (priorities m') = List.length (memory m'))
  /\ (forall e,
         exists m',
           push_call (dummy_transition 2) (Raise e) two_entry_memory
           = (m', Raise e)
           /\ priorities m' = priorities two_entry_memory
           /\ position m' = position two_entry_memory
           /\ memory m'
              = (if (Z.of_nat (List.length (memory two_entry_memory))
                     <? capacity two_entry_memory)%Z
                 then memory two_entry_memory ++ [dummy_transition 2]
                 else list_update (memory two_entry_memory)
                        (Z.to_nat (position two_entry_memory))
                        (dummy_transition 2))
           /\ ((Z.of_nat (List.length (memory two_entry_memory))
                < capacity two_entry_memory)%Z ->
               List.length (memory m') = S (List.length (priorities m'))
               /\ ~ memory_wf m')).
Proof.
  apply (@push_keeps_invariant two_entry_memory (dummy_transition 2)).
  unfold memory_wf; simpl. repeat split; lia.
Defined.

(** X11. A [push] into a full well-formed store overwrites the entry under
    the write cursor and nothing else: every other transition and every
    other stored priority stays where it was, and the cursor moves one
    step, back to 0 after the last position. *)
Theorem push_overwrites_cursor_only (m : PrioritizedReplayMemory)
    (t : Transition) (p : R) :
  memory_wf m ->
  Z.of_nat (List.length (memory m)) = capacity m ->
  0 < p ->
  exists m',
    push m t p = Ok m'
    /\ List.length (memory m') = List.length (memory m)
    /\ nth_error (memory m') (Z.to_nat (position m)) = Some t
    /\ nth_error (priorities m') (Z.to_nat (position m))
       = Some (PyReal (Rpower p (alpha m)))
    /\ (forall i, i <> Z.to_nat (position m) ->
          nth_error (memory m') i = nth_error (memory m) i
          /\ nth_error (priorities m') i = nth_error (priorities m) i)
    /\ position m'
       = (if (position m + 1 =? capacity m)%Z then 0 else position m + 1)%Z.
Proof.
  intros Hwf Hfull Hp.
  destruct (push_general t p Hwf (float_pow_positive (alpha m) Hp))
    as (m' & Hpush & _ & _ & _ & Hposition & Hmem & Hprio).
  destruct Hwf as (Hcap & Hlen & Hle & Hpos & Hcur).
  destruct (Z.ltb_spec (Z.of_nat (List.length (memory m))) (capacity m));
    [lia |].
  exists m'. rewrite Hmem, Hprio, Hposition.
  split; [exact Hpush |].
  split; [apply list_update_length |].
  split; [apply list_update_nth; lia |].
  split; [apply list_update_nth; lia |].
  split.
  - intros i Hi. split; apply list_update_other; exact Hi.
  - destruct (Z.eqb_spec (position m + 1) (capacity m)) as [Heq | Hne].
    + rewrite Heq. apply Z_mod_same_full.
    + apply Z.mod_small. lia.
Qed.

Lemma push_overwrites_cursor_only_witness :
  let m := {| capacity := 2; alpha := 6 / 10;
              memory := [dummy_transition 1; dummy_transition (-1)];
              priorities := [PyReal 1; PyReal 3];
              position := 1 |} in
  exists m',
    push m (dummy_transition 2) 1 = Ok m'
    /\ List.length (memory m') = List.length (memory m)
    /\ nth_error (memory m') (Z.to_nat (position m)) = Some (dummy_transition 2)
    /\ nth_error (priorities m') (Z.to_nat (position m))
       = Some (PyReal (Rpower 1 (alpha m)))
    /\ (forall i, i <> Z.to_nat (position m) ->
          nth_error (memory m') i = nth_error (memory m) i
          /\ nth_error (priorities m') i = nth_error (priorities m) i)
    /\ position m'
       = (if (position m + 1 =? capacity m)%Z then 0 else position m + 1)%Z.
Proof.
  intros m.
  apply (@push_overwrites_cursor_only m (dummy_transition 2) 1).
  - unfold memory_wf; simpl. repeat split; lia.
  - reflexivity.
  - lra.
Defined.

Lemma skipn_succ_tl {A : Type} (k : nat) (l : list A) :
  skipn (S k) l = tl (skipn k l).
Proof.
  revert l. induction k as [| k IH]; intros [| x l]; try reflexivity.
  change (skipn (S (S k)) (x :: l)) with (skipn (S k) l).
  change (skipn (S k) (x :: l)) with (skipn k l). apply IH.
Qed.

Lemma tl_app_nonempty {A : Type} (l l' : list A) :
  l <> [] -> tl (l ++ l') = tl l ++ l'.
Proof. destruct l; [contradiction | reflexivity]. Qed.

Lemma skipn_nonempty {A : Type} (k : nat) (l : list A) :
  (k < List.length l)%nat -> skipn k l <> [].
Proof.
  intros H Heq. apply (f_equal (@List.length A)) in Heq.
  rewrite length_skipn in Heq. simpl in Heq. lia.
Qed.

Lemma skipn_app_exact {A : Type} (l l' : list A) (k : nat) :
  List.length l = k -> skipn k (l ++ l') = l'.
Proof.
  intros <-. rewrite skipn_app, skipn_all, Nat.sub_diag. reflexivity.
Qed.

Lemma firstn_app_exact {A : Type} (l l' : list A) (k : nat) :
  List.length l = k -> firstn k (l ++ l') = l.
Proof.
  intros <-. rewrite firstn_app, firstn_all, Nat.sub_diag. simpl.
  apply app_nil_r.
Qed.

(** One [push] seen from the cursor: when the store, read round from the
    cursor, holds the last [capacity] transitions of the history [ts], it
    holds the last [capacity] transitions of [ts ++ [t]] after [t] is
    pushed. *)
Lemma push_from_cursor (m m' : PrioritizedReplayMemory) (t : Transition)
    (p : R) (v : pynum) (ts : list Transition) :
  memory_wf m ->
  float_pow p (alpha m) = Ok v ->
  push m t p = Ok m' ->
  from_cursor m = skipn (List.length ts - Z.to_nat (capacity m)) ts ->
  from_cursor m'
  = skipn (List.length (ts ++ [t]) - Z.to_nat (capacity m')) (ts ++ [t]).
Proof.
  intros Hwf Hpow Hpush Hview.
  destruct (push_general t p Hwf Hpow)
    as (m1 & Hpush1 & _ & Hcap1 & _ & Hposition & Hmem & _).
  rewrite Hpush in Hpush1. inversion Hpush1; subst m1; clear Hpush1.
  destruct Hwf as (Hcap & Hlen & Hle & Hpos & Hcur).
  unfold from_cursor in *. rewrite Hcap1, Hposition, Hmem.
  rewrite length_app. simpl List.length.
  set (c := Z.to_nat (capacity m)) in *.
  set (n := List.length (memory m)) in *.
  assert (Hc : capacity m = Z.of_nat c) by (unfold c; lia).
  assert (Hviewlen : n = (List.length ts - (List.length ts - c))%nat).
  { apply (f_equal (@List.length Transition)) in Hview.
    rewrite length_app, length_skipn, length_firstn in Hview.
    rewrite length_skipn in Hview. fold n in Hview. lia. }
  destruct (Z.ltb_spec (Z.of_nat n) (capacity m)) as [Hlt | Hfull].
  - specialize (Hcur Hlt). rewrite Hcur in Hview |- *.
    rewrite Nat2Z.id in Hview. unfold n in Hview.
    rewrite skipn_all, firstn_all in Hview. simpl in Hview.
    assert (Hts : (List.length ts - c = 0)%nat) by lia.
    rewrite Hts in Hview. simpl in Hview.
    assert (Hn : n = List.length ts) by (unfold n; rewrite Hview; reflexivity).
    rewrite Hview.
    replace (List.length ts + 1 - c)%nat with 0%nat by lia. simpl skipn at 2.
    destruct (Z.eq_dec (Z.of_nat n + 1) (capacity m)) as [Heq | Hne].
    + rewrite Heq, Z_mod_same_full. simpl. apply app_nil_r.
    + rewrite Z.mod_small by lia.
      replace (Z.to_nat (Z.of_nat n + 1)) with (List.length (ts ++ [t]))
        by (rewrite length_app; simpl; lia).
      rewrite skipn_all, firstn_all. reflexivity.
  - assert (Hnc : n = c) by lia.
    assert (Hge : (c <= List.length ts)%nat) by lia.
    set (pos := Z.to_nat (position m)) in *.
    assert (Hposn : (pos < n)%nat) by (unfold pos; lia).
    replace (List.length ts + 1 - c)%nat with (S (List.length ts - c)) by lia.
    rewrite skipn_app, skipn_succ_tl, <- Hview.
    replace (S (List.length ts - c) - List.length ts)%nat with 0%nat by lia.
    simpl skipn.
    rewrite tl_app_nonempty by (apply skipn_nonempty; exact Hposn).
    rewrite <- skipn_succ_tl.
    rewrite (list_update_split (memory m) t Hposn).
    assert (Hfl : List.length (firstn pos (memory m)) = pos)
      by (rewrite length_firstn; fold n; lia).
    destruct (Z.eq_dec (position m + 1) (capacity m)) as [Heq | Hne].
    + rewrite Heq, Z_mod_same_full. change (Z.to_nat 0) with 0%nat.
      rewrite skipn_O, firstn_O, app_nil_r.
      assert (Hs : S pos = n) by (unfold pos; lia).
      rewrite Hs. unfold n. rewrite skipn_all. reflexivity.
    + rewrite Z.mod_small by lia.
      replace (Z.to_nat (position m + 1)) with (S pos) by (unfold pos; lia).
      replace (firstn pos (memory m) ++ t :: skipn (S pos) (memory m))
        with ((firstn pos (memory m) ++ [t]) ++ skipn (S pos) (memory m))
        by (rewrite <- app_assoc; reflexivity).
      assert (Hfl' : List.length (firstn pos (memory m) ++ [t]) = S pos)
        by (rewrite length_app, Hfl; simpl; lia).
      rewrite (skipn_app_exact _ _ Hfl'), (firstn_app_exact _ _ Hfl').
      rewrite app_assoc. reflexivity.
Qed.

Lemma pushes_from_cursor (entries : list (Transition * R))
    (m : PrioritizedReplayMemory) (ts : list Transition) :
  memory_wf m ->
  Forall (fun e => 0 < snd e) entries ->
  from_cursor m = skipn (List.length ts - Z.to_nat (capacity m)) ts ->
  exists m',
    pushes m entries = Ok m'
    /\ memory_wf m'
    /\ capacity m' = capacity m
    /\ from_cursor m'
       = skipn (List.length (ts ++ map fst entries) - Z.to_nat (capacity m))
               (ts ++ map fst entries).
Proof.
  revert m ts. induction entries as [| [t p] entries IH];
    intros m ts Hwf Hpos Hview; simpl.
  - exists m. rewrite app_nil_r.
    split; [reflexivity |]. split; [exact Hwf |]. split; [reflexivity |].
    exact Hview.
  - inversion Hpos as [| e es Hp Hrest]; subst. simpl in Hp.
    pose proof (float_pow_positive (alpha m) Hp) as Hpow.
    destruct (push_general t p Hwf Hpow)
      as (m1 & Hpush & Hwf1 & Hcap1 & _).
    pose proof (@push_from_cursor m m1 t p _ ts Hwf Hpow Hpush Hview) as Hview1.
    rewrite Hpush. simpl.
    destruct (IH m1 (ts ++ [t]) Hwf1 Hrest Hview1)
      as (m' & Hrun & Hwf' & Hcap' & Hview').
    exists m'. split; [exact Hrun |]. split; [exact Hwf' |].
    split; [congruence |].
    rewrite Hview', Hcap1, <- app_assoc. reflexivity.
Qed.

Lemma In_from_cursor (m : PrioritizedReplayMemory) (t : Transition) :
  In t (from_cursor m) <-> In t (memory m).
Proof.
  unfold from_cursor.
  rewrite <- (firstn_skipn (Z.to_nat (position m)) (memory m)) at 3.
  rewrite !in_app_iff. tauto.
Qed.

(** X12. Oldest out first: after any sequence of pushes of positive
    priority into a new store of positive capacity, the store holds
    exactly the last [capacity] transitions pushed (all of them while
    there are fewer), in the order of arrival when read round from the
    write cursor. *)
Theorem pushes_keep_latest (cap : Z) (a : R) (entries : list (Transition * R)) :
  (0 < cap)%Z ->
  Forall (fun e => 0 < snd e) entries ->
  exists m,
    pushes (PrioritizedReplayMemory_init cap a) entries = Ok m
    /\ memory_wf m
    /\ from_cursor m
       = skipn (List.length entries - Z.to_nat cap) (map fst entries)
    /\ List.length (memory m) = Nat.min (List.length entries) (Z.to_nat cap)
    /\ forall t,
         In t (memory m)
         <-> In t (skipn (List.length entries - Z.to_nat cap) (map fst entries)).
Proof.
  intros Hcap Hpos.
  destruct (@pushes_from_cursor entries (PrioritizedReplayMemory_init cap a) []
              (init_memory_wf a Hcap) Hpos eq_refl)
    as (m & Hrun & Hwf & _ & Hview).
  simpl in Hview. rewrite length_map in Hview.
  exists m. split; [exact Hrun |]. split; [exact Hwf |].
  split; [exact Hview |]. split.
  - apply (f_equal (@List.length Transition)) in Hview.
    unfold from_cursor in Hview.
    rewrite length_app, length_skipn, length_firstn in Hview.
    rewrite length_skipn, length_map in Hview. lia.
  - intros t. rewrite <- Hview. symmetry. apply In_from_cursor.
Qed.

Lemma pushes_keep_latest_witness :
  let entries := [(dummy_transition 1, 1); (dummy_transition 2, 2);
                  (dummy_transition 3, 3)] in
  exists m,
    pushes (PrioritizedReplayMemory_init 2 (6 / 10)) entries = Ok m
    /\ memory_wf m
    /\ from_cursor m
       = skipn (List.length entries - Z.to_nat 2) (map fst entries)
    /\ List.length (memory m) = Nat.min (List.length entries) (Z.to_nat 2)
    /\ forall t,
         In t (memory m)
         <-> In t (skipn (List.length entries - Z.to_nat 2) (map fst entries)).
Proof.
  intros entries.
  apply (@pushes_keep_latest 2 (6 / 10) entries).
  - lia.
  - unfold entries. repeat constructor; simpl; lra.
Defined.

(** X13. A store whose capacity is 0 or negative can take nothing: the
    first [push] into it raises [IndexError] whatever the priority, and so
    does the first [process_outcome] of an agent configured with such a
    [memory_size]. *)
Theorem push_without_capacity (config : RLConfig) (cap : Z) (a : R)
    (t : Transition) (p : R) (encoder_parameters q_parameters : list R)
    (state : State) (act : Action) (next_state : State) (adherence : R) :
  (cap <= 0)%Z ->
  (memory_size config <= 0)%Z ->
  push (PrioritizedReplayMemory_init cap a) t p = Raise IndexError
  /\ process_outcome
       (FeedbackDigest_init
          (PrescriptionAgent_init config encoder_parameters q_parameters))
       state act next_state adherence
     = Raise IndexError.
Proof.
  intros Hcap Hsize.
  assert (Hpush : forall c t' p', (c <= 0)%Z ->
            push (PrioritizedReplayMemory_init c (6 / 10)) t' p'
            = Raise IndexError).
  { intros c t' p' Hc. unfold push, PrioritizedReplayMemory_init. simpl.
    destruct (Z.ltb_spec 0 c); [lia | reflexivity]. }
  split.
  - unfold push, PrioritizedReplayMemory_init. simpl.
    destruct (Z.ltb_spec 0 cap); [lia | reflexivity].
  - unfold process_outcome, compute. simpl.
    rewrite Hpush by exact Hsize. reflexivity.
Qed.

Lemma push_without_capacity_witness :
  push (PrioritizedReplayMemory_init 0 (6 / 10)) (dummy_transition 1) 1
  = Raise IndexError
  /\ process_outcome
       (FeedbackDigest_init (PrescriptionAgent_init no_memory_config [] []))
       dummy_state magnesium dummy_state 1
     = Raise IndexError.
Proof.
  apply (@push_without_capacity no_memory_config 0 (6 / 10)
           (dummy_transition 1) 1 [] [] dummy_state magnesium dummy_state 1).
  - lia.
  - simpl; lia.
Defined.

(** ** Prioritized replay: sampling *)

(** The shape of what [sample] returns. *)
Lemma sample_weights_form (m : PrioritizedReplayMemory) (batch_size : Z)
    (beta : R) (draw : list nat)
    (samples : list Transition) (indices : list nat) (weights : list R) :
  sample m batch_size beta draw = Ok (samples, indices, weights) ->
  exists prios i rest,
    reals_of (priorities m) = Some prios
    /\ draw = i :: rest
    /\ getitems (memory m) draw = Ok samples
    /\ weights
       = map (fun x => x / np_max (raw_weight m prios beta i)
                                  (map (raw_weight m prios beta) rest))
             (map (raw_weight m prios beta) draw).
Proof.
  unfold sample.
  destruct ((List.length (memory m) =? 0)%nat && negb (batch_size =? 0)%Z)%bool;
    [discriminate |].
  destruct (reals_of (priorities m)) as [prios |]; [| discriminate].
  destruct (negb (List.length prios =? List.length (memory m))%nat);
    [discriminate |].
  destruct (Req_dec_T (np_sum prios) 0); [discriminate |].
  destruct (has_negative (probabilities_of prios)); [discriminate |].
  destruct (batch_size <? 0)%Z; [discriminate |].
  destruct (getitems (memory m) draw) as [xs | e] eqn:Hget; simpl;
    [| discriminate].
  destruct draw as [| i rest]; simpl; [discriminate |].
  intros H. inversion H; subst; clear H.
  exists prios, i, rest. repeat split.
Qed.

Lemma has_negative_true (l : list R) :
  has_negative l = true <-> Exists (fun x => x < 0) l.
Proof.
  induction l as [| x l IH]; simpl.
  - split; [discriminate | intros H; inversion H].
  - destruct (Rlt_dec x 0) as [Hx | Hx].
    + split; [intros _; left; exact Hx | reflexivity].
    + rewrite IH. split; [intros H; right; exact H |].
      intros H. inversion H; [contradiction | assumption].
Qed.

(** X14. When [sample] returns and how it fails.  For a draw of
    [batch_size] positions, stored ones when the store is not empty (from
    an empty store nothing is drawn), [sample] returns a batch exactly
    when the store is not empty, at least one sample is asked for, and the
    priorities are real, one per entry, of non-zero sum and of no
    probability below 0; in every other case it raises [ValueError] or
    [TypeError].  In particular a request for 0 samples is an error, not
    an empty batch. *)
Theorem sample_returns_iff (m : PrioritizedReplayMemory) (batch_size : Z)
    (beta : R) (draw : list nat) :
  List.length draw = Z.to_nat batch_size ->
  (memory m <> [] ->
   Forall (fun i => (i < List.length (memory m))%nat) draw) ->
  (succeeds (sample m batch_size beta draw)
   <-> memory m <> []
       /\ (1 <= batch_size)%Z
       /\ exists prios,
            reals_of (priorities m) = Some prios
            /\ List.length prios = List.length (memory m)
            /\ np_sum prios <> 0
            /\ ~ Exists (fun x => x < 0) (probabilities_of prios))
  /\ (succeeds (sample m batch_size beta draw)
      \/ sample m batch_size beta draw = Raise ValueError
      \/ sample m batch_size beta draw = Raise TypeError)
  /\ ((batch_size <= 0)%Z -> ~ succeeds (sample m batch_size beta draw)).
Proof.
  intros Hlen Hin.
  assert (Hcase : memory m = [] \/ memory m <> [])
    by (destruct (memory m); [left; reflexivity | right; discriminate]).
  destruct Hcase as [He | Hne].
  { assert (Hfail : sample m batch_size beta draw = Raise ValueError
                    \/ sample m batch_size beta draw = Raise TypeError).
    { unfold sample. rewrite He. simpl List.length. simpl Nat.eqb.
      cbn [andb].
      destruct (Z.eqb_spec batch_size 0) as [H0 | H0]; simpl negb;
        [| left; reflexivity].
      destruct (reals_of (priorities m)) as [prios |];
        [| right; reflexivity].
      destruct (negb (List.length prios =? 0)%nat); [left; reflexivity |].
      destruct (Req_dec_T (np_sum prios) 0); [left; reflexivity |].
      destruct (has_negative (probabilities_of prios));
        [left; reflexivity |].
      destruct (batch_size <? 0)%Z; [left; reflexivity |].
      destruct draw; [left; reflexivity |].
      subst batch_size. simpl in Hlen. discriminate. }
    assert (Hno : ~ succeeds (sample m batch_size beta draw)).
    { intros (r & Hr). destruct Hfail as [H | H]; rewrite H in Hr;
        discriminate. }
    split; [split; [intros Hs; contradiction
                   | intros (Hstored & _); contradiction] |].
    split; [right; exact Hfail | intros _; exact Hno]. }
  specialize (Hin Hne).
  destruct (getitems_in_range (memory m) Hin) as (xs & Hxs & _).
  assert (Hmain :
    succeeds (sample m batch_size beta draw)
    <-> memory m <> []
        /\ (1 <= batch_size)%Z
        /\ exists prios,
             reals_of (priorities m) = Some prios
             /\ List.length prios = List.length (memory m)
             /\ np_sum prios <> 0
             /\ ~ Exists (fun x => x < 0) (probabilities_of prios)).
  { unfold succeeds, sample. rewrite Hxs.
    destruct (memory m) as [| t0 mem] eqn:Hm.
    - exfalso. apply Hne. reflexivity.
    - simpl List.length. simpl Nat.eqb. cbn [andb].
      destruct (reals_of (priorities m)) as [prios |].
      + destruct (Nat.eqb_spec (List.length prios) (S (List.length mem)))
          as [Hl | Hl]; simpl negb.
        * destruct (Req_dec_T (np_sum prios) 0) as [Hs | Hs].
          { split; [intros (r & Hr); discriminate |].
            intros (_ & _ & prios' & Heq & _ & Hsum & _).
            inversion Heq; subst. contradiction. }
          destruct (has_negative (probabilities_of prios)) eqn:Hneg.
          { split; [intros (r & Hr); discriminate |].
            intros (_ & _ & prios' & Heq & _ & _ & Hno).
            inversion Heq; subst. exfalso. apply Hno.
            apply has_negative_true. exact Hneg. }
          destruct (Z.ltb_spec batch_size 0) as [Hb | Hb].
          { split; [intros (r & Hr); discriminate | intros (_ & H1 & _); lia]. }
          simpl bind. destruct draw as [| i rest]; simpl.
          { split; [intros (r & Hr); discriminate |].
            intros (_ & H1 & _). simpl in Hlen. lia. }
          split.
          { intros _. split; [discriminate |].
            split; [simpl in Hlen; lia |].
            exists prios. repeat split; try assumption.
            intros Hex. apply has_negative_true in Hex. congruence. }
          intros _. eexists. reflexivity.
        * split; [intros (r & Hr); discriminate |].
          intros (_ & _ & prios' & Heq & Hl' & _).
          inversion Heq; subst. simpl in Hl'. contradiction.
      + split; [intros (r & Hr); discriminate |].
        intros (_ & _ & prios' & Heq & _). discriminate. }
  split; [exact Hmain |]. split.
  - unfold succeeds, sample. rewrite Hxs.
    destruct ((List.length (memory m) =? 0)%nat && negb (batch_size =? 0)%Z)%bool;
      [right; left; reflexivity |].
    destruct (reals_of (priorities m)) as [prios |];
      [| right; right; reflexivity].
    destruct (negb (List.length prios =? List.length (memory m))%nat);
      [right; left; reflexivity |].
    destruct (Req_dec_T (np_sum prios) 0); [right; left; reflexivity |].
    destruct (has_negative (probabilities_of prios));
      [right; left; reflexivity |].
    destruct (batch_size <? 0)%Z; [right; left; reflexivity |].
    simpl. destruct draw; simpl; [right; left; reflexivity |].
    left. eexists. reflexivity.
  - intros Hb Hs. apply Hmain in Hs. destruct Hs as (_ & H1 & _). lia.
Qed.

Lemma sample_returns_iff_witness :
  (succeeds (sample two_entry_memory 0 (4 / 10) [])
   <-> memory two_entry_memory <> []
       /\ (1 <= 0)%Z
       /\ exists prios,
            reals_of (priorities two_entry_memory) = Some prios
            /\ List.length prios = List.length (memory two_entry_memory)
            /\ np_sum prios <> 0
            /\ ~ Exists (fun x => x < 0) (probabilities_of prios))
  /\ (succeeds (sample two_entry_memory 0 (4 / 10) [])
      \/ sample two_entry_memory 0 (4 / 10) [] = Raise ValueError
      \/ sample two_entry_memory 0 (4 / 10) [] = Raise TypeError)
  /\ ((0 <= 0)%Z -> ~ succeeds (sample two_entry_memory 0 (4 / 10) [])).
Proof.
  apply (@sample_returns_iff two_entry_memory 0 (4 / 10) []).
  - reflexivity.
  - intros _. constructor.
Defined.

Lemma np_max_In (w : R) (ws : list R) : In (np_max w ws) (w :: ws).
Proof.
  unfold np_max. revert w. induction ws as [| x ws IH]; intros w; simpl.
  - left. reflexivity.
  - destruct (IH (Rmax w x)) as [Heq | Hin].
    + rewrite <- Heq. unfold Rmax. destruct (Rle_dec w x); auto.
    + right. right. exact Hin.
Qed.

(** For an exponent [beta] that is not negative the raw weight does not
    grow with the probability. *)
Lemma Rpower_opp_antitone (a b beta : R) :
  0 <= beta -> 0 < a <= b -> Rpower b (- beta) <= Rpower a (- beta).
Proof.
  intros Hbeta [Ha Hab]. rewrite !Rpower_Ropp.
  assert (H1 : 0 < Rpower a beta) by (unfold Rpower; apply exp_pos).
  assert (H2 : Rpower a beta <= Rpower b beta)
    by (apply Rle_Rpower_l; [exact Hbeta | split; assumption]).
  apply Rinv_le_contravar; assumption.
Qed.

Lemma nth_error_map_some {A B : Type} (f : A -> B) (l : list A) (n : nat) (y : B) :
  nth_error (map f l) n = Some y ->
  exists x, nth_error l n = Some x /\ y = f x.
Proof.
  rewrite nth_error_map. destruct (nth_error l n) as [x |]; simpl;
    [| discriminate].
  intros H; inversion H. exists x. split; reflexivity.
Qed.

(** X15. Rare samples weigh more.  For an exponent [beta] that is not
    negative, of two positions of a returned batch the one drawn with the
    smaller probability has the larger (or equal) importance weight, and a
    position whose probability is the smallest of the batch has the weight
    1. *)
Theorem sample_weights_order (m : PrioritizedReplayMemory) (batch_size : Z)
    (beta : R) (draw : list nat) (prios : list R)
    (samples : list Transition) (indices : list nat) (weights : list R) :
  0 <= beta ->
  possible_draw m batch_size draw ->
  reals_of (priorities m) = Some prios ->
  sample m batch_size beta draw = Ok (samples, indices, weights) ->
  (forall j k ij ik wj wk,
      nth_error draw j = Some ij -> nth_error draw k = Some ik ->
      nth_error weights j = Some wj -> nth_error weights k = Some wk ->
      nth ij (probabilities_of prios) 0 <= nth ik (probabilities_of prios) 0 ->
      wk <= wj)
  /\ (forall j ij wj,
         nth_error draw j = Some ij -> nth_error weights j = Some wj ->
         (forall i, In i draw ->
                    nth ij (probabilities_of prios) 0
                    <= nth i (probabilities_of prios) 0) ->
         wj = 1).
Proof.
  intros Hbeta [_ Hpossible] Hreal Hsample.
  specialize (Hpossible prios Hreal). rewrite Forall_forall in Hpossible.
  destruct (sample_weights_form _ _ _ _ Hsample)
    as (prios' & i0 & rest & Hreal' & Hdraw & _ & Hweights).
  rewrite Hreal in Hreal'. inversion Hreal'; subst prios'; clear Hreal'.
  destruct (sample_result_normalised _ _ _ _ Hsample)
    as (_ & _ & Hall & w & ws & Hws & Hmax).
  set (mx := np_max (raw_weight m prios beta i0)
                    (map (raw_weight m prios beta) rest)) in *.
  assert (Hmx : 0 < mx).
  { apply np_max_pos. unfold raw_weight, Rpower. apply exp_pos. }
  assert (Hpop : 0 < INR (List.length (memory m))).
  { apply lt_0_INR. assert (Hi : In i0 draw) by (rewrite Hdraw; left; reflexivity).
    destruct (Hpossible i0 Hi). lia. }
  assert (Horder : forall j k ij ik wj wk,
             nth_error draw j = Some ij -> nth_error draw k = Some ik ->
             nth_error weights j = Some wj -> nth_error weights k = Some wk ->
             nth ij (probabilities_of prios) 0
             <= nth ik (probabilities_of prios) 0 ->
             wk <= wj).
  { intros j k ij ik wj wk Hj Hk Hwj Hwk Hp.
    rewrite Hweights in Hwj, Hwk.
    apply nth_error_map_some in Hwj. destruct Hwj as (xj & Hxj & ->).
    apply nth_error_map_some in Hwk. destruct Hwk as (xk & Hxk & ->).
    apply nth_error_map_some in Hxj. destruct Hxj as (ij' & Hij' & ->).
    apply nth_error_map_some in Hxk. destruct Hxk as (ik' & Hik' & ->).
    rewrite Hj in Hij'. inversion Hij'; subst ij'.
    rewrite Hk in Hik'. inversion Hik'; subst ik'.
    unfold Rdiv. apply Rmult_le_compat_r.
    { apply Rlt_le, Rinv_0_lt_compat; exact Hmx. }
    unfold raw_weight. apply Rpower_opp_antitone; [exact Hbeta |].
    destruct (Hpossible ij (nth_error_In _ _ Hj)) as [_ Hpj].
    split.
    - apply Rmult_lt_0_compat; assumption.
    - apply Rmult_le_compat_l; [lra | exact Hp]. }
  split; [exact Horder |].
  intros j ij wj Hj Hwj Hmin.
  assert (Hle : wj <= 1).
  { rewrite Forall_forall in Hall. apply Hall. eapply nth_error_In; exact Hwj. }
  assert (Hone : In 1 weights).
  { rewrite Hws, <- Hmax. apply np_max_In. }
  apply In_nth_error in Hone. destruct Hone as (k & Hk1).
  assert (Hklen : (k < List.length draw)%nat).
  { assert (Hk1' : nth_error weights k <> None) by (rewrite Hk1; discriminate).
    apply nth_error_Some in Hk1'.
    rewrite Hweights, !length_map in Hk1'. exact Hk1'. }
  destruct (nth_error draw k) as [ik |] eqn:Hk;
    [| apply nth_error_None in Hk; lia].
  pose proof (Horder j k ij ik wj 1 Hj Hk Hwj Hk1
                (Hmin ik (nth_error_In _ _ Hk))).
  lra.
Qed.

(** The conditions under which [sample] returns a batch. *)
Lemma sample_returns (m : PrioritizedReplayMemory) (batch_size : Z) (beta : R)
    (draw : list nat) (prios : list R) :
  memory m <> [] ->
  reals_of (priorities m) = Some prios ->
  List.length prios = List.length (memory m) ->
  np_sum prios <> 0 ->
  has_negative (probabilities_of prios) = false ->
  (1 <= batch_size)%Z ->
  List.length draw = Z.to_nat batch_size ->
  Forall (fun i => (i < List.length (memory m))%nat) draw ->
  exists samples weights,
    sample m batch_size beta draw = Ok (samples, draw, weights).
Proof.
  intros Hmem Hreal Hlen Hsum Hneg Hsize Hdraw Hin.
  destruct (getitems_in_range (memory m) Hin) as (xs & Hxs & _).
  unfold sample. rewrite Hreal, Hxs, Hneg, Hlen, Nat.eqb_refl.
  destruct (memory m) as [| t0 mem]; [contradiction |].
  simpl List.length. simpl Nat.eqb. cbn [andb negb].
  destruct (Req_dec_T (np_sum prios) 0); [contradiction |].
  destruct (Z.ltb_spec batch_size 0); [lia |].
  destruct draw as [| i rest]; [simpl in Hdraw; lia |].
  simpl. eexists _, _. reflexivity.
Qed.

Lemma two_entry_probabilities :
  probabilities_of [1; 3] = [1 / 4; 3 / 4].
Proof.
  unfold probabilities_of, np_sum. simpl. repeat f_equal; field.
Qed.

Lemma two_entry_sample (beta : R) :
  possible_draw two_entry_memory 2 [0%nat; 1%nat]
  /\ exists samples weights,
       sample two_entry_memory 2 beta [0%nat; 1%nat]
       = Ok (samples, [0%nat; 1%nat], weights).
Proof.
  split.
  - split; [reflexivity |].
    intros prios H. inversion H; subst prios.
    rewrite two_entry_probabilities.
    repeat constructor; simpl; try lia; lra.
  - apply (@sample_returns two_entry_memory 2 beta [0%nat; 1%nat] [1; 3]).
    + discriminate.
    + reflexivity.
    + reflexivity.
    + unfold np_sum; simpl; lra.
    + rewrite two_entry_probabilities. simpl.
      destruct (Rlt_dec (1 / 4) 0); [lra |].
      destruct (Rlt_dec (3 / 4) 0); [lra | reflexivity].
    + lia.
    + reflexivity.
    + repeat constructor; simpl; lia.
Qed.

Lemma sample_weights_order_witness :
  exists samples weights,
    sample two_entry_memory 2 (4 / 10) [0%nat; 1%nat]
    = Ok (samples, [0%nat; 1%nat], weights)
    /\ (forall j k ij ik wj wk,
           nth_error [0%nat; 1%nat] j = Some ij ->
           nth_error [0%nat; 1%nat] k = Some ik ->
           nth_error weights j = Some wj -> nth_error weights k = Some wk ->
           nth ij (probabilities_of [1; 3]) 0
           <= nth ik (probabilities_of [1; 3]) 0 ->
           wk <= wj)
    /\ (forall j ij wj,
           nth_error [0%nat; 1%nat] j = Some ij ->
           nth_error weights j = Some wj ->
           (forall i, In i [0%nat; 1%nat] ->
                      nth ij (probabilities_of [1; 3]) 0
                      <= nth i (probabilities_of [1; 3]) 0) ->
           wj = 1).
Proof.
  destruct (two_entry_sample (4 / 10)) as [Hdraw (samples & weights & Hs)].
  exists samples, weights. split; [exact Hs |].
  apply (@sample_weights_order two_entry_memory 2 (4 / 10) [0%nat; 1%nat]
           [1; 3] samples [0%nat; 1%nat] weights).
  - lra.
  - exact Hdraw.
  - reflexivity.
  - exact Hs.
Defined.

(** Equal raw weights give normalised weights that are all 1. *)
Lemma equal_weights_normalise (v : R) (w : R) (ws : list R) :
  0 < v ->
  Forall (fun x => x = v) (w :: ws) ->
  Forall (fun x => x = 1) (map (fun x => x / np_max w ws) (w :: ws)).
Proof.
  intros Hv Hall.
  assert (Hmax : np_max w ws = v).
  { rewrite Forall_forall in Hall. apply Hall. apply np_max_In. }
  rewrite Hmax. rewrite Forall_forall in *. intros y Hy.
  apply in_map_iff in Hy. destruct Hy as (x & <- & Hx).
  rewrite (Hall x Hx). field. lra.
Qed.

(** X16. Nothing to correct, no correction: when [beta] is 0, or when all
    the drawn positions have the same probability (as in a store of equal
    priorities), every importance weight of the returned batch is 1. *)
Theorem sample_weights_uniform (m : PrioritizedReplayMemory) (batch_size : Z)
    (beta : R) (draw : list nat) (prios : list R)
    (samples : list Transition) (indices : list nat) (weights : list R) :
  reals_of (priorities m) = Some prios ->
  sample m batch_size beta draw = Ok (samples, indices, weights) ->
  beta = 0
  \/ (forall i i', In i draw -> In i' draw ->
        nth i (probabilities_of prios) 0 = nth i' (probabilities_of prios) 0) ->
  Forall (fun w => w = 1) weights.
Proof.
  intros Hreal Hsample Hcase.
  destruct (sample_weights_form _ _ _ _ Hsample)
    as (prios' & i0 & rest & Hreal' & Hdraw & _ & Hweights).
  rewrite Hreal in Hreal'. inversion Hreal'; subst prios'; clear Hreal'.
  rewrite Hweights, Hdraw.
  change (map (raw_weight m prios beta) (i0 :: rest))
    with (raw_weight m prios beta i0 :: map (raw_weight m prios beta) rest).
  apply (@equal_weights_normalise (raw_weight m prios beta i0)).
  - unfold raw_weight, Rpower. apply exp_pos.
  - change (raw_weight m prios beta i0 :: map (raw_weight m prios beta) rest)
      with (map (raw_weight m prios beta) (i0 :: rest)).
    rewrite Forall_forall. intros y Hy.
    apply in_map_iff in Hy. destruct Hy as (i & <- & Hi).
    destruct Hcase as [-> | Heq].
    + unfold raw_weight, Rpower. rewrite Ropp_0, !Rmult_0_l. reflexivity.
    + unfold raw_weight. rewrite <- Hdraw in Hi.
      rewrite (Heq i i0 Hi); [reflexivity |].
      rewrite Hdraw. left. reflexivity.
Qed.

Lemma sample_weights_uniform_witness :
  exists samples weights,
    sample two_entry_memory 2 0 [0%nat; 1%nat]
    = Ok (samples, [0%nat; 1%nat], weights)
    /\ Forall (fun w => w = 1) weights.
Proof.
  destruct (two_entry_sample 0) as [_ (samples & weights & Hs)].
  exists samples, weights. split; [exact Hs |].
  apply (@sample_weights_uniform two_entry_memory 2 0 [0%nat; 1%nat] [1; 3]
           samples [0%nat; 1%nat] weights).
  - reflexivity.
  - exact Hs.
  - left. reflexivity.
Defined.

(** ** From recorded outcomes to a batch *)

Lemma list_update_Forall {A : Type} (P : A -> Prop) (l : list A) (n : nat) (v : A) :
  Forall P l -> P v -> Forall P (list_update l n v).
Proof.
  intros Hall Hv. rewrite Forall_forall in *. intros x Hx.
  apply list_update_In in Hx. destruct Hx as [-> | Hx]; auto.
Qed.

Lemma push_priorities_positive (m : PrioritizedReplayMemory) (t : Transition)
    (p : R) :
  memory_wf m -> priorities_positive m -> 0 < p ->
  exists m',
    push m t p = Ok m'
    /\ memory_wf m'
    /\ priorities_positive m'
    /\ memory m' <> []
    /\ (List.length (memory m) <= List.length (memory m'))%nat.
Proof.
  intros Hwf Hpos Hp.
  destruct (push_general t p Hwf (float_pow_positive (alpha m) Hp))
    as (m' & Hpush & Hwf' & _ & _ & _ & Hmem & Hprio).
  exists m'. split; [exact Hpush |]. split; [exact Hwf' |].
  assert (Hnew : exists q, PyReal (Rpower p (alpha m)) = PyReal q /\ 0 < q).
  { eexists. split; [reflexivity |]. unfold Rpower. apply exp_pos. }
  destruct Hwf as (Hcap & _).
  unfold priorities_positive. rewrite Hmem, Hprio.
  destruct (Z.ltb_spec (Z.of_nat (List.length (memory m))) (capacity m)).
  - split; [apply Forall_app; split; [exact Hpos | constructor; [exact Hnew | constructor]] |].
    split; [destruct (memory m); discriminate |].
    rewrite length_app. lia.
  - split; [apply list_update_Forall; assumption |].
    split.
    + intros Heq. apply (f_equal (@List.length Transition)) in Heq.
      rewrite list_update_length in Heq. simpl in Heq. lia.
    + rewrite list_update_length. lia.
Qed.

Lemma process_outcomes_positive (calls : list Outcome) (digest : FeedbackDigest) :
  memory_wf (agent_memory (agent digest)) ->
  priorities_positive (agent_memory (agent digest)) ->
  exists digest',
    process_outcomes digest calls = Ok digest'
    /\ memory_wf (agent_memory (agent digest'))
    /\ priorities_positive (agent_memory (agent digest'))
    /\ (List.length (memory (agent_memory (agent digest)))
        <= List.length (memory (agent_memory (agent digest'))))%nat
    /\ (calls <> [] -> memory (agent_memory (agent digest')) <> []).
Proof.
  revert digest. induction calls as [| [[[s a] s'] adh] calls IH];
    intros digest Hwf Hpos; simpl.
  - exists digest. split; [reflexivity |]. split; [exact Hwf |].
    split; [exact Hpos |]. split; [lia | intros H; contradiction].
  - destruct (compute (config (agent digest)) s s' a adh) as [d | e] eqn:Hd;
      [| discriminate Hd].
    assert (Hp : 0 < Rabs (total d) + 1 / 10)
      by (pose proof (Rabs_pos (total d)); lra).
    destruct (push_priorities_positive
                (outcome_transition (config (agent digest)) s a s' (total d))
                Hwf Hpos Hp)
      as (mem' & Hpush & Hwf' & Hpos' & Hne & Hlen).
    rewrite (process_outcome_unfold digest Hd Hpush). simpl.
    match goal with
    | |- context [process_outcomes ?d1 calls] =>
        destruct (IH d1 Hwf' Hpos') as (d2 & Hrun & Hwf2 & Hpos2 & Hlen2 & _)
    end.
    exists d2. split; [exact Hrun |]. split; [exact Hwf2 |].
    split; [exact Hpos2 |]. simpl in Hlen2. split; [lia |].
    intros _ Heq. rewrite Heq in Hlen2. simpl in Hlen2.
    destruct (memory mem'); [contradiction | simpl in Hlen2; lia].
Qed.

Lemma reals_of_positive (l : list pynum) :
  Forall (fun v => exists p, v = PyReal p /\ 0 < p) l ->
  exists prios,
    reals_of l = Some prios
    /\ List.length prios = List.length l
    /\ Forall (fun p => 0 < p) prios.
Proof.
  induction 1 as [| v l (p & -> & Hp) _ (prios & Hr & Hlen & Hall)]; simpl.
  - exists []. repeat split; constructor.
  - rewrite Hr. exists (p :: prios). split; [reflexivity |].
    split; [simpl; lia | constructor; assumption].
Qed.

Lemma np_sum_positive (l : list R) :
  Forall (fun p => 0 < p) l -> l <> [] -> 0 < np_sum l.
Proof.
  intros Hall Hne. destruct l as [| x l]; [contradiction |].
  inversion Hall as [| y ys Hx Hrest]; subst. clear Hall Hne.
  unfold np_sum. simpl. fold (np_sum l).
  assert (0 <= np_sum l).
  { clear Hx. induction Hrest as [| z zs Hz _ IH]; unfold np_sum; simpl;
      [lra |]. fold (np_sum zs). lra. }
  lra.
Qed.

(** X17. What the feedback loop stores can always be sampled: after any
    non-empty run of [process_outcome] calls on a new agent with a positive
    [memory_size], [sample] with a batch size of at least 1 returns a
    batch for every possible draw, with weights in (0, 1]. *)
Theorem recorded_outcomes_can_be_sampled (config : RLConfig)
    (encoder_parameters q_parameters : list R) (calls : list Outcome)
    (batch_size : Z) (beta : R) :
  (0 < memory_size config)%Z ->
  calls <> [] ->
  (1 <= batch_size)%Z ->
  exists digest',
    process_outcomes
      (FeedbackDigest_init
         (PrescriptionAgent_init config encoder_parameters q_parameters))
      calls = Ok digest'
    /\ priorities_positive (agent_memory (agent digest'))
    /\ forall draw,
         possible_draw (agent_memory (agent digest')) batch_size draw ->
         exists samples weights,
           sample (agent_memory (agent digest')) batch_size beta draw
           = Ok (samples, draw, weights)
           /\ Forall (fun w => 0 < w <= 1) weights.
Proof.
  intros Hsize Hcalls Hbatch.
  destruct (process_outcomes_positive calls
              (FeedbackDigest_init
                 (PrescriptionAgent_init config encoder_parameters q_parameters)))
    as (d' & Hrun & Hwf & Hpos & _ & Hne).
  { apply init_memory_wf. exact Hsize. }
  { constructor. }
  exists d'. split; [exact Hrun |]. split; [exact Hpos |].
  intros draw [Hdraw Hpossible].
  destruct (reals_of_positive Hpos) as (prios & Hreal & Hlen & Hall).
  specialize (Hpossible prios Hreal).
  destruct Hwf as (_ & Hlen' & _).
  assert (Hprios : prios <> []).
  { intros Heq. subst prios. simpl in Hlen. specialize (Hne Hcalls).
    destruct (memory (agent_memory (agent d'))); [contradiction |].
    simpl in Hlen'. lia. }
  pose proof (np_sum_positive Hall Hprios) as Hsum.
  destruct (@sample_returns (agent_memory (agent d')) batch_size beta draw prios)
    as (samples & weights & Hsample); try assumption.
  - apply Hne. exact Hcalls.
  - lia.
  - lra.
  - apply has_negative_false. unfold probabilities_of.
    rewrite Forall_forall in *. intros y Hy.
    apply in_map_iff in Hy. destruct Hy as (p & <- & Hp).
    apply Rlt_le. apply Rdiv_lt_0_compat; [apply Hall; exact Hp | exact Hsum].
  - eapply Forall_impl; [| exact Hpossible]. simpl. intros i [H _]. exact H.
  - exists samples, weights. split; [exact Hsample |].
    destruct (sample_result_normalised _ _ _ _ Hsample) as (_ & _ & Hw & _).
    exact Hw.
Qed.

Lemma recorded_outcomes_can_be_sampled_witness :
  exists digest',
    process_outcomes
      (FeedbackDigest_init (PrescriptionAgent_init default_config [] []))
      [(dummy_state, magnesium, dummy_state, 1)] = Ok digest'
    /\ priorities_positive (agent_memory (agent digest'))
    /\ forall draw,
         possible_draw (agent_memory (agent digest')) 2 draw ->
         exists samples weights,
           sample (agent_memory (agent digest')) 2 (4 / 10) draw
           = Ok (samples, draw, weights)
           /\ Forall (fun w => 0 < w <= 1) weights.
Proof.
  apply (@recorded_outcomes_can_be_sampled default_config [] []
           [(dummy_state, magnesium, dummy_state, 1)] 2 (4 / 10)).
  - simpl; lia.
  - discriminate.
  - lia.
Defined.

(** ** Uniform replay *)

Lemma deque_append_latest (c : Z) (history : list Transition)
    (d : deque Transition) (x : Transition) :
  (0 <= c)%Z ->
  maxlen d = c ->
  items d = skipn (List.length history - Z.to_nat c) history ->
  maxlen (deque_append d x) = c
  /\ items (deque_append d x)
     = skipn (List.length (history ++ [x]) - Z.to_nat c) (history ++ [x]).
Proof.
  intros Hc Hmax Hitems. unfold deque_append. simpl.
  split; [exact Hmax |].
  rewrite Hmax, Hitems, !length_app, length_skipn. simpl List.length.
  set (n := List.length history). set (k := Z.to_nat c).
  destruct (Z.ltb_spec c (Z.of_nat (n - (n - k) + 1))) as [Hlt | Hge].
  - assert (Hk : (k <= n)%nat) by lia.
    replace (n + 1 - k)%nat with (S (n - k)) by lia.
    rewrite (skipn_succ_tl (n - k) (history ++ [x])), skipn_app.
    fold n. replace (n - k - n)%nat with 0%nat by lia. reflexivity.
  - assert (Hk : (n < k)%nat) by lia.
    replace (n - k)%nat with 0%nat by lia.
    replace (n + 1 - k)%nat with 0%nat by lia. reflexivity.
Qed.

Lemma replay_pushes_latest (c : Z) (ts history : list Transition)
    (m : ReplayMemory) :
  (0 <= c)%Z ->
  maxlen (replay_memory m) = c ->
  items (replay_memory m)
  = skipn (List.length history - Z.to_nat c) history ->
  items (replay_memory (fold_left ReplayMemory_push ts m))
  = skipn (List.length (history ++ ts) - Z.to_nat c) (history ++ ts).
Proof.
  intros Hc. revert history m.
  induction ts as [| t ts IH]; intros history m Hmax Hitems; simpl.
  - rewrite app_nil_r. exact Hitems.
  - destruct (deque_append_latest history (replay_memory m) t Hc Hmax Hitems)
      as [Hmax' Hitems'].
    rewrite (IH (history ++ [t]) (ReplayMemory_push m t) Hmax' Hitems').
    rewrite <- app_assoc. reflexivity.
Qed.

(** X18. The uniform buffer is first in, first out: a [ReplayMemory] of
    capacity [c >= 0] that has been pushed the transitions [ts] holds the
    last [c] of them in the order of arrival, so its length is
    [min (len ts) c]; a negative capacity, such as [-c - 1], is refused
    with [ValueError]. *)
Theorem replay_memory_keeps_latest (c : Z) (ts : list Transition) :
  (0 <= c)%Z ->
  ReplayMemory_init (- c - 1) = Raise ValueError
  /\ exists m,
       ReplayMemory_init c = Ok m
       /\ items (replay_memory (fold_left ReplayMemory_push ts m))
          = skipn (List.length ts - Z.to_nat c) ts
       /\ ReplayMemory_len (fold_left ReplayMemory_push ts m)
          = Nat.min (List.length ts) (Z.to_nat c).
Proof.
  intros Hc. unfold ReplayMemory_init, deque_init. split.
  - destruct (Z.ltb_spec (- c - 1) 0); [reflexivity | lia].
  - destruct (Z.ltb_spec c 0); [lia |]. simpl.
    eexists. split; [reflexivity |].
    pose proof (@replay_pushes_latest c ts []
                  {| replay_memory := {| maxlen := c; items := [] |} |}
                  Hc eq_refl eq_refl) as Hitems.
    simpl in Hitems. split; [exact Hitems |].
    unfold ReplayMemory_len. rewrite Hitems, length_skipn. lia.
Qed.

Lemma replay_memory_keeps_latest_witness :
  let ts := [dummy_transition 1; dummy_transition 2; dummy_transition 3] in
  ReplayMemory_init (- 2 - 1) = Raise ValueError
  /\ exists m,
       ReplayMemory_init 2 = Ok m
       /\ items (replay_memory (fold_left ReplayMemory_push ts m))
          = skipn (List.length ts - Z.to_nat 2) ts
       /\ ReplayMemory_len (fold_left ReplayMemory_push ts m)
          = Nat.min (List.length ts) (Z.to_nat 2).
Proof.
  intros ts. apply (@replay_memory_keeps_latest 2 ts). lia.
Defined.

(** X19. [ReplayMemory.sample] draws without replacement: it raises
    [ValueError] exactly when the batch size is negative or larger than
    the buffer (nothing is selected then), and otherwise returns, for
    every selection of different positions, that many stored transitions;
    asking for 0 samples gives the empty batch. *)
Theorem replay_sample_bounds (m : ReplayMemory) (batch_size : Z)
    (draw : list nat) :
  ((0 <= batch_size <= Z.of_nat (ReplayMemory_len m))%Z ->
   possible_selection (ReplayMemory_len m) batch_size draw) ->
  (ReplayMemory_sample m batch_size draw = Raise ValueError
   <-> (batch_size < 0 \/ Z.of_nat (ReplayMemory_len m) < batch_size)%Z)
  /\ ((0 <= batch_size <= Z.of_nat (ReplayMemory_len m))%Z ->
      exists samples,
        ReplayMemory_sample m batch_size draw = Ok samples
        /\ List.length samples = Z.to_nat batch_size
        /\ (forall t, In t samples -> In t (items (replay_memory m)))
        /\ (batch_size = 0%Z -> samples = [])).
Proof.
  intros Hsel. unfold ReplayMemory_sample.
  destruct (Z.ltb_spec batch_size 0) as [Hneg | Hnonneg]; simpl.
  - split; [split; [intros _; left; exact Hneg | reflexivity] | intros H; lia].
  - destruct (Z.ltb_spec (Z.of_nat (ReplayMemory_len m)) batch_size)
      as [Hbig | Hfits].
    + split; [split; [intros _; right; exact Hbig | reflexivity] |].
      intros H; lia.
    + destruct (Hsel (conj Hnonneg Hfits)) as (Hlen & _ & Hin).
      destruct (getitems_in_range (items (replay_memory m)) Hin)
        as (xs & Hxs & Hxlen).
      split.
      * rewrite Hxs. split; [discriminate | intros [H | H]; lia].
      * intros _. exists xs. split; [exact Hxs |].
        split; [congruence |]. split.
        -- intros t Ht. exact (getitems_In _ _ Hxs t Ht).
        -- intros H0. rewrite H0 in Hlen. simpl in Hlen.
           destruct xs; [reflexivity | simpl in Hxlen; lia].
Qed.

Lemma replay_sample_bounds_witness :
  let m := ReplayMemory_push
             (ReplayMemory_push
                {| replay_memory := {| maxlen := 4; items := [] |} |}
                (dummy_transition 1))
             (dummy_transition 2) in
  (ReplayMemory_sample m 2 [1%nat; 0%nat] = Raise ValueError
   <-> (2 < 0 \/ Z.of_nat (ReplayMemory_len m) < 2)%Z)
  /\ ((0 <= 2 <= Z.of_nat (ReplayMemory_len m))%Z ->
      exists samples,
        ReplayMemory_sample m 2 [1%nat; 0%nat] = Ok samples
        /\ List.length samples = Z.to_nat 2
        /\ (forall t, In t samples -> In t (items (replay_memory m)))
        /\ (2%Z = 0%Z -> samples = [])).
Proof.
  intros m.
  apply (@replay_sample_bounds m 2 [1%nat; 0%nat]).
  intros _. split; [reflexivity |]. split.
  - repeat constructor; simpl; intuition lia.
  - repeat constructor; simpl; lia.
Defined.

(** ** Matching of recorded successes *)

Lemma insert_by_desc_In {A : Type} (key : A -> R) (x y : A) (l : list A) :
  In y (insert_by_desc key x l) <-> y = x \/ In y l.
Proof.
  induction l as [| z l IH]; simpl.
  - intuition.
  - destruct (Rle_dec (key z) (key x)); simpl; [intuition |].
    rewrite IH. intuition.
Qed.

Lemma sort_by_desc_In {A : Type} (key : A -> R) (y : A) (l : list A) :
  In y (sort_by_desc key l) <-> In y l.
Proof.
  induction l as [| x l IH]; simpl; [reflexivity |].
  rewrite insert_by_desc_In, IH. intuition.
Qed.

Lemma insert_by_desc_sorted {A : Type} (key : A -> R) (x : A) (l : list A) :
  StronglySorted (fun a b => key b <= key a) l ->
  StronglySorted (fun a b => key b <= key a) (insert_by_desc key x l).
Proof.
  induction 1 as [| y l Hsorted IH Hall]; simpl.
  - constructor; constructor.
  - destruct (Rle_dec (key y) (key x)) as [Hle | Hgt].
    + constructor; [constructor; assumption |].
      constructor; [exact Hle |].
      eapply Forall_impl; [| exact Hall]. simpl. intros z Hz. lra.
    + constructor; [exact IH |].
      rewrite Forall_forall in *. intros z Hz.
      apply insert_by_desc_In in Hz. destruct Hz as [-> | Hz].
      * lra.
      * apply Hall. exact Hz.
Qed.

Lemma sort_by_desc_sorted {A : Type} (key : A -> R) (l : list A) :
  StronglySorted (fun a b => key b <= key a) (sort_by_desc key l).
Proof.
  induction l as [| x l IH]; simpl; [constructor |].
  apply insert_by_desc_sorted. exact IH.
Qed.

Lemma firstn_In {A : Type} (n : nat) (l : list A) (x : A) :
  In x (firstn n l) -> In x l.
Proof.
  intros H. rewrite <- (firstn_skipn n l). apply in_or_app. left. exact H.
Qed.

Lemma firstn_sorted {A : Type} (R' : A -> A -> Prop) (n : nat) (l : list A) :
  StronglySorted R' l -> StronglySorted R' (firstn n l).
Proof.
  intros H. revert n. induction H as [| x l Hs IH Hall]; intros [| n]; simpl;
    try constructor.
  - apply IH.
  - rewrite Forall_forall in *. intros y Hy. apply Hall.
    eapply firstn_In. exact Hy.
Qed.

Lemma slice_to_In {A : Type} (l : list A) (k : Z) (x : A) :
  In x (slice_to l k) -> In x l.
Proof.
  unfold slice_to. destruct (k <? 0)%Z; intros H;
    eapply firstn_In; exact H.
Qed.

Lemma match_successes_origin (current_signal : list R) (action_idx : Z)
    (successes : list (list R * R)) (P : Z * R -> Prop)
    (matches found : list (Z * R)) :
  (forall signal reward sim,
      In (signal, reward) successes ->
      similarity current_signal signal = Ok sim -> 8 / 10 < sim ->
      P (action_idx, reward * sim)) ->
  Forall P matches ->
  match_successes current_signal action_idx successes matches = Ok found ->
  Forall P found.
Proof.
  revert matches. induction successes as [| [signal reward] rest IH];
    intros matches Hnew Hall; simpl.
  - intros H; inversion H; subst; exact Hall.
  - destruct (similarity current_signal signal) as [sim |] eqn:Hsim;
      [| discriminate].
    simpl. apply IH.
    + intros s r sm Hin. apply Hnew. right. exact Hin.
    + destruct (Rlt_dec (8 / 10) sim) as [Hgt | _]; [| exact Hall].
      apply Forall_app. split; [exact Hall |].
      constructor; [| constructor].
      apply (Hnew signal reward sim); [left; reflexivity | exact Hsim | exact Hgt].
Qed.

Lemma match_record_origin (current_signal : list R) (record : SuccessRecord)
    (P : Z * R -> Prop) (matches found : list (Z * R)) :
  (forall idx successes signal reward sim,
      In (idx, successes) record -> In (signal, reward) successes ->
      similarity current_signal signal = Ok sim -> 8 / 10 < sim ->
      P (idx, reward * sim)) ->
  Forall P matches ->
  match_record current_signal record matches = Ok found ->
  Forall P found.
Proof.
  revert matches. induction record as [| [idx successes] rest IH];
    intros matches Hnew Hall; simpl.
  - intros H; inversion H; subst; exact Hall.
  - destruct (match_successes current_signal idx successes matches)
      as [m1 |] eqn:Hm1; [| discriminate].
    simpl. apply IH.
    + intros i ss s r sm Hin. apply Hnew. right. exact Hin.
    + eapply match_successes_origin; [| exact Hall | exact Hm1].
      intros s r sm Hin. apply (Hnew idx successes). left. reflexivity.
      exact Hin.
Qed.

(** X20. What [find_matching_successes] returns: the matches are in
    descending order of score, there are at most [top_k] of them for a
    [top_k] that is not negative, and each one stems from a recorded
    success of its action whose signal has a cosine similarity above 0.8
    with the current signal, its score being the recorded reward times
    that similarity. *)
Theorem find_matching_successes_result (digest : FeedbackDigest)
    (current_signal : list R) (top_k : Z) (result : list (Z * R)) :
  find_matching_successes digest current_signal top_k = Ok result ->
  StronglySorted (fun a b => snd b <= snd a) result
  /\ ((0 <= top_k)%Z -> (List.length result <= Z.to_nat top_k)%nat)
  /\ Forall (match_origin (global_successes digest) current_signal) result.
Proof.
  unfold find_matching_successes.
  destruct (match_record current_signal (global_successes digest) [])
    as [matches |] eqn:Hmatches; [| discriminate].
  simpl. intros H; inversion H; subst; clear H.
  split; [| split].
  - unfold slice_to. destruct (top_k <? 0)%Z;
      apply firstn_sorted; apply sort_by_desc_sorted.
  - intros Hk. unfold slice_to. destruct (Z.ltb_spec top_k 0); [lia |].
    apply firstn_le_length.
  - assert (Hall : Forall (match_origin (global_successes digest) current_signal)
                          matches).
    { eapply match_record_origin; [| constructor | exact Hmatches].
      intros idx successes signal reward sim Hin Hin' Hsim Hgt.
      exists successes, signal, reward, sim. repeat split; assumption. }
    rewrite Forall_forall in *. intros e He. apply Hall.
    apply slice_to_In in He. apply sort_by_desc_In in He. exact He.
Qed.

Lemma similarity_cases (a b : list R) :
  (List.length a = List.length b
   /\ similarity a b
      = Ok (np_sum (map2 Rmult a b) / (np_norm a * np_norm b + 1 / 100000000)))
  \/ (List.length a <> List.length b /\ similarity a b = Raise ValueError).
Proof.
  unfold similarity, np_dot.
  destruct (Nat.eqb_spec (List.length a) (List.length b)); [left | right];
    split; auto.
Qed.

Lemma match_successes_cases (current_signal : list R) (action_idx : Z)
    (successes : list (list R * R)) (matches : list (Z * R)) :
  ((forall signal reward, In (signal, reward) successes ->
      List.length signal = List.length current_signal)
   /\ exists found,
        match_successes current_signal action_idx successes matches = Ok found)
  \/ ((exists signal reward, In (signal, reward) successes
         /\ List.length signal <> List.length current_signal)
      /\ match_successes current_signal action_idx successes matches
         = Raise ValueError).
Proof.
  revert matches. induction successes as [| [signal reward] rest IH];
    intros matches; simpl.
  - left. split; [intros s r [] | eexists; reflexivity].
  - destruct (similarity_cases current_signal signal)
      as [[Hlen Hsim] | [Hlen Hsim]]; rewrite Hsim; simpl.
    + match goal with
      | |- context [match_successes _ _ rest ?ms] =>
          destruct (IH ms) as [[Hall Hok] | [(s & r & Hin & Hne) Herr]]
      end.
      * left. split; [| exact Hok].
        intros s r [Heq | Hin]; [inversion Heq; subst; auto | eauto].
      * right. split; [exists s, r; split; [right; exact Hin | exact Hne] |].
        exact Herr.
    + right. split; [| reflexivity].
      exists signal, reward. split; [left; reflexivity | auto].
Qed.

Lemma match_record_cases (current_signal : list R) (record : SuccessRecord)
    (matches : list (Z * R)) :
  (signals_of_length record (List.length current_signal)
   /\ exists found, match_record current_signal record matches = Ok found)
  \/ (~ signals_of_length record (List.length current_signal)
      /\ match_record current_signal record matches = Raise ValueError).
Proof.
  unfold signals_of_length.
  revert matches. induction record as [| [idx successes] rest IH];
    intros matches; simpl.
  - left. split; [intros i ss s r [] | eexists; reflexivity].
  - destruct (match_successes_cases current_signal idx successes matches)
      as [[Hall (m1 & Hm1)] | [(s & r & Hin & Hne) Herr]].
    + rewrite Hm1. simpl.
      destruct (IH m1) as [[Hrest Hok] | [Hbad Herr]].
      * left. split; [| exact Hok].
        intros i ss s r [Heq | Hin] Hin'.
        -- inversion Heq; subst. eapply Hall; exact Hin'.
        -- eapply Hrest; eassumption.
      * right. split; [| exact Herr].
        intros Hgood. apply Hbad. intros i ss s r Hin Hin'.
        eapply Hgood; [right; exact Hin | exact Hin'].
    + rewrite Herr. simpl. right. split; [| reflexivity].
      intros Hgood. apply Hne. eapply Hgood; [left; reflexivity | exact Hin].
Qed.

(** X21. [find_matching_successes] cannot divide by zero; it returns
    exactly when every recorded signal has the length of the current
    signal, and raises [ValueError] (from [np.dot]) as soon as one has
    not. *)
Theorem find_matching_successes_returns (digest : FeedbackDigest)
    (current_signal : list R) (top_k : Z) :
  (succeeds (find_matching_successes digest current_signal top_k)
   <-> signals_of_length (global_successes digest) (List.length current_signal))
  /\ (succeeds (find_matching_successes digest current_signal top_k)
      \/ find_matching_successes digest current_signal top_k = Raise ValueError).
Proof.
  unfold find_matching_successes, succeeds.
  destruct (match_record_cases current_signal (global_successes digest) [])
    as [[Hgood (found & Hfound)] | [Hbad Herr]].
  - rewrite Hfound. simpl. split.
    + split; [intros _; exact Hgood | intros _; eexists; reflexivity].
    + left. eexists. reflexivity.
  - rewrite Herr. simpl. split.
    + split; [intros (r & Hr); discriminate | intros H; contradiction].
    + right. reflexivity.
Qed.

Lemma find_matching_successes_result_witness :
  exists result,
    find_matching_successes one_success_digest [1] 5 = Ok result
    /\ StronglySorted (fun a b => snd b <= snd a) result
    /\ ((0 <= 5)%Z -> (List.length result <= Z.to_nat 5)%nat)
    /\ Forall (match_origin (global_successes one_success_digest) [1]) result.
Proof.
  destruct (match_record_cases [1] (global_successes one_success_digest) [])
    as [[_ (found & Hfound)] | [Hbad _]].
  - exists (slice_to (sort_by_desc snd found) 5).
    assert (Hrun : find_matching_successes one_success_digest [1] 5
                   = Ok (slice_to (sort_by_desc snd found) 5)).
    { unfold find_matching_successes. rewrite Hfound. reflexivity. }
    split; [exact Hrun |].
    exact (@find_matching_successes_result one_success_digest [1] 5 _ Hrun).
  - exfalso. apply Hbad. intros idx ss s r [H | []] Hin.
    inversion H; subst. destruct Hin as [H' | []]. inversion H'; reflexivity.
Defined.

Lemma map2_zero_sum (n : nat) (s : list R) :
  np_sum (map2 Rmult (repeat 0 n) s) = 0.
Proof.
  revert s. induction n as [| n IH]; intros [| x s]; simpl; try reflexivity.
  unfold np_sum in *. simpl. rewrite IH. ring.
Qed.

(** X22. A current signal of zeros matches nothing: its similarity with
    every recorded signal of its length is 0, the guard in the denominator
    prevents a division by zero, and the result is the empty list. *)
Theorem find_matching_successes_zero_signal (digest : FeedbackDigest)
    (n : nat) (top_k : Z) :
  signals_of_length (global_successes digest) n ->
  find_matching_successes digest (repeat 0 n) top_k = Ok [].
Proof.
  intros Hlen.
  assert (Hrec : forall record matches,
             signals_of_length record n ->
             match_record (repeat 0 n) record matches = Ok matches).
  { induction record as [| [idx successes] rest IH]; intros matches Hl; simpl.
    - reflexivity.
    - assert (Hs : forall ss ms,
                 (forall s r, In (s, r) ss -> List.length s = n) ->
                 match_successes (repeat 0 n) idx ss ms = Ok ms).
      { induction ss as [| [s r] ss IHs]; intros ms Hss; simpl; [reflexivity |].
        destruct (similarity_cases (repeat 0 n) s) as [[_ Hsim] | [Hne _]].
        - rewrite Hsim. simpl. rewrite map2_zero_sum.
          destruct (Rlt_dec (8 / 10)
                      (0 / (np_norm (repeat 0 n) * np_norm s + 1 / 100000000)))
            as [Hgt | _].
          + exfalso. unfold Rdiv in Hgt at 2. rewrite Rmult_0_l in Hgt. lra.
          + apply IHs. intros s' r' Hin. apply (Hss s' r'). right. exact Hin.
        - exfalso. apply Hne. rewrite repeat_length.
          symmetry. apply (Hss s r). left. reflexivity. }
      rewrite Hs.
      + simpl. apply IH. intros i ss s r Hin Hin'.
        eapply Hl; [right; exact Hin | exact Hin'].
      + intros s r Hin. eapply Hl; [left; reflexivity | exact Hin]. }
  unfold find_matching_successes. rewrite Hrec by exact Hlen.
  simpl. unfold slice_to. destruct (top_k <? 0)%Z; rewrite firstn_nil;
    reflexivity.
Qed.

Lemma find_matching_successes_zero_signal_witness :
  find_matching_successes one_success_digest (repeat 0 1) 5 = Ok [].
Proof.
  apply (@find_matching_successes_zero_signal one_success_digest 1 5).
  intros idx ss s r [H | []] Hin.
  inversion H; subst. destruct Hin as [H' | []]. inversion H'; reflexivity.
Defined.

Lemma add_global_success_entries (d : SuccessRecord) (k : Z) (s : list R)
    (r : R) (idx : Z) (successes : list (list R * R)) (e : list R * R) :
  In (idx, successes) (_add_global_success d k s r) ->
  In e successes ->
  (exists successes', In (idx, successes') d /\ In e successes')
  \/ e = (s, r).
Proof.
  induction d as [| [k' v] d IH]; simpl.
  - intros [H | []] He. inversion H; subst.
    destruct He as [<- | []]. right. reflexivity.
  - destruct (Z.eqb_spec k' k) as [-> | Hne]; simpl.
    + intros [H | H] He.
      * inversion H; subst. apply in_app_or in He.
        destruct He as [He | [<- | []]].
        -- left. exists v. split; [left; reflexivity | exact He].
        -- right. reflexivity.
      * left. exists successes. split; [right; exact H | exact He].
    + intros [H | H] He.
      * left. exists successes. split; [left; exact H | exact He].
      * destruct (IH H He) as [(ss & Hin & Hin') | Heq]; [| right; exact Heq].
        left. exists ss. split; [right; exact Hin | exact Hin'].
Qed.

Lemma process_outcomes_rewards (calls : list Outcome) (digest : FeedbackDigest) :
  memory_wf (agent_memory (agent digest)) ->
  rewards_above_threshold (global_successes digest) ->
  exists digest',
    process_outcomes digest calls = Ok digest'
    /\ rewards_above_threshold (global_successes digest').
Proof.
  revert digest. induction calls as [| [[[s a] s'] adh] calls IH];
    intros digest Hwf Hrec; simpl.
  - exists digest. split; [reflexivity | exact Hrec].
  - destruct (compute (config (agent digest)) s s' a adh) as [d | e] eqn:Hd;
      [| discriminate Hd].
    assert (Hp : 0 < Rabs (total d) + 1 / 10)
      by (pose proof (Rabs_pos (total d)); lra).
    destruct (push_wf (outcome_transition (config (agent digest)) s a s'
                         (total d)) Hwf Hp)
      as (mem' & Hpush & Hwf' & _).
    rewrite (process_outcome_unfold digest Hd Hpush). simpl.
    apply IH; [exact Hwf' |]. simpl.
    destruct (Rlt_dec (5 / 10) (total d)) as [Hgt | _]; [| exact Hrec].
    intros idx ss sig rew Hin Hin'.
    destruct (add_global_success_entries _ _ _ _ _ _ _ Hin Hin')
      as [(ss' & Hold & Hold') | Heq].
    + exact (Hrec idx ss' sig rew Hold Hold').
    + inversion Heq; subst. exact Hgt.
Qed.

(** X23. Only successes are transferred: in a digest grown by
    [process_outcome] calls from a new agent every recorded reward is
    above 0.5, so every match that [find_matching_successes] returns has a
    score above 0.4 (a reward above 0.5 times a similarity above 0.8). *)
Theorem matches_score_above (config : RLConfig)
    (encoder_parameters q_parameters : list R) (calls : list Outcome)
    (current_signal : list R) (top_k : Z) :
  (0 < memory_size config)%Z ->
  exists digest',
    process_outcomes
      (FeedbackDigest_init
         (PrescriptionAgent_init config encoder_parameters q_parameters))
      calls = Ok digest'
    /\ rewards_above_threshold (global_successes digest')
    /\ forall result,
         find_matching_successes digest' current_signal top_k = Ok result ->
         Forall (fun e => 4 / 10 < snd e) result.
Proof.
  intros Hsize.
  destruct (process_outcomes_rewards calls
              (FeedbackDigest_init
                 (PrescriptionAgent_init config encoder_parameters q_parameters)))
    as (d' & Hrun & Hrec).
  { apply init_memory_wf. exact Hsize. }
  { intros idx ss s r []. }
  exists d'. split; [exact Hrun |]. split; [exact Hrec |].
  intros result. unfold find_matching_successes.
  destruct (match_record current_signal (global_successes d') [])
    as [matches |] eqn:Hmatches; [| discriminate].
  simpl. intros H; inversion H; subst; clear H.
  assert (Hall : Forall (fun e => 4 / 10 < snd e) matches).
  { eapply match_record_origin; [| constructor | exact Hmatches].
    intros idx ss s r sim Hin Hin' _ Hgt. simpl.
    pose proof (Hrec idx ss s r Hin Hin') as Hr. nra. }
  rewrite Forall_forall in *. intros e He. apply Hall.
  apply slice_to_In in He. apply sort_by_desc_In in He. exact He.
Qed.

Lemma matches_score_above_witness :
  exists digest',
    process_outcomes
      (FeedbackDigest_init (PrescriptionAgent_init adherence_config [] []))
      [(dummy_state, magnesium, dummy_state, 1)] = Ok digest'
    /\ rewards_above_threshold (global_successes digest')
    /\ forall result,
         find_matching_successes digest' [1] 5 = Ok result ->
         Forall (fun e => 4 / 10 < snd e) result.
Proof.
  apply (@matches_score_above adherence_config [] []
           [(dummy_state, magnesium, dummy_state, 1)] [1] 5).
  simpl; lia.
Defined.

(** ** Hypothesis generator *)

Lemma np_corrcoef_bounds (x y : list R) (c : R) :
  np_corrcoef x y = Some c -> -1 <= c <= 1.
Proof.
  unfold np_corrcoef.
  destruct (List.length x <=? 1)%nat; [discriminate |].
  destruct (Req_dec_T (np_cov x x) 0); [discriminate |].
  destruct (Req_dec_T (np_cov y y) 0); [discriminate |].
  intros H; inversion H; subst; clear H.
  split.
  - apply Rmax_l.
  - apply Rmax_lub; [lra | apply Rmin_l].
Qed.

Section HypothesisOrigin.

Variable format_3f : R -> string.

Lemma analyze_feature_origin (self : HypothesisGenerator)
    (signals : list (list R)) (ext_name : string) (ext_values : list R)
    (feature_names : list string) (P : HypothesisEntry -> Prop)
    (discovered found : list HypothesisEntry) (feat_idx : nat) :
  (forall h,
      independent_variable h = ext_name ->
      np_corrcoef (column signals feat_idx) ext_values = Some (correlation h) ->
      min_correlation self <= Rabs (correlation h) ->
      nth_error feature_names feat_idx = Some (dependent_variable h) ->
      sample_size h = Z.of_nat (List.length signals) ->
      proposed_action h
      = _generate_action_proposal (independent_variable h) (correlation h) ->
      status h = "proposed"%string ->
      P h) ->
  Forall P discovered ->
  analyze_feature format_3f self signals ext_name ext_values feature_names
                  discovered feat_idx = Ok found ->
  Forall P found.
Proof.
  intros Hnew Hall. unfold analyze_feature.
  destruct (np_corrcoef (column signals feat_idx) ext_values) as [c |] eqn:Hc;
    [| intros H; inversion H; subst; exact Hall].
  destruct (Rle_dec (min_correlation self) (Rabs c)) as [Hmin | _];
    [| intros H; inversion H; subst; exact Hall].
  destruct (nth_error feature_names feat_idx) as [nm |] eqn:Hnm;
    [| discriminate].
  intros H; inversion H; subst. apply Forall_app. split; [exact Hall |].
  constructor; [| constructor]. apply Hnew; simpl; auto.
Qed.

Lemma analyze_features_origin (self : HypothesisGenerator)
    (signals : list (list R)) (ext_name : string) (ext_values : list R)
    (feature_names : list string) (P : HypothesisEntry -> Prop)
    (feat_idxs : list nat) (discovered found : list HypothesisEntry) :
  (forall h feat_idx,
      independent_variable h = ext_name ->
      np_corrcoef (column signals feat_idx) ext_values = Some (correlation h) ->
      min_correlation self <= Rabs (correlation h) ->
      nth_error feature_names feat_idx = Some (dependent_variable h) ->
      sample_size h = Z.of_nat (List.length signals) ->
      proposed_action h
      = _generate_action_proposal (independent_variable h) (correlation h) ->
      status h = "proposed"%string ->
      P h) ->
  Forall P discovered ->
  analyze_features format_3f self signals ext_name ext_values feature_names
                   feat_idxs discovered = Ok found ->
  Forall P found.
Proof.
  intros Hnew. revert discovered.
  induction feat_idxs as [| i feat_idxs IH]; intros discovered Hall; simpl.
  - intros H; inversion H; subst; exact Hall.
  - destruct (analyze_feature format_3f self signals ext_name ext_values
                feature_names discovered i) as [d' |] eqn:Hd; [| discriminate].
    simpl. apply IH.
    eapply analyze_feature_origin; [| exact Hall | exact Hd].
    intros h. apply Hnew.
Qed.

Lemma analyze_series_origin (self : HypothesisGenerator)
    (signals : list (list R)) (external_data : list (string * list R))
    (feature_names : list string) (P : HypothesisEntry -> Prop)
    (discovered found : list HypothesisEntry) :
  (forall h ext_values feat_idx,
      In (independent_variable h, ext_values) external_data ->
      List.length ext_values = List.length signals ->
      np_corrcoef (column signals feat_idx) ext_values = Some (correlation h) ->
      min_correlation self <= Rabs (correlation h) ->
      nth_error feature_names feat_idx = Some (dependent_variable h) ->
      sample_size h = Z.of_nat (List.length signals) ->
      proposed_action h
      = _generate_action_proposal (independent_variable h) (correlation h) ->
      status h = "proposed"%string ->
      P h) ->
  Forall P discovered ->
  analyze_series format_3f self signals external_data feature_names discovered
  = Ok found ->
  Forall P found.
Proof.
  revert discovered.
  induction external_data as [| [ext_name ext_values] rest IH];
    intros discovered Hnew Hall; simpl.
  - intros H; inversion H; subst; exact Hall.
  - assert (Hnew' : forall h ev fi,
               In (independent_variable h, ev) rest ->
               List.length ev = List.length signals ->
               np_corrcoef (column signals fi) ev = Some (correlation h) ->
               min_correlation self <= Rabs (correlation h) ->
               nth_error feature_names fi = Some (dependent_variable h) ->
               sample_size h = Z.of_nat (List.length signals) ->
               proposed_action h
               = _generate_action_proposal (independent_variable h)
                                           (correlation h) ->
               status h = "proposed"%string ->
               P h).
    { intros h ev fi Hin. apply Hnew. right. exact Hin. }
    destruct (Nat.eqb_spec (List.length ext_values) (List.length signals))
      as [Hlen | Hlen]; simpl negb; cbv iota.
    + destruct signals as [| row signals']; [discriminate |].
      destruct (analyze_features format_3f self (row :: signals') ext_name
                  ext_values feature_names (seq 0 (List.length row)) discovered)
        as [d' |] eqn:Hd; [| discriminate].
      simpl. apply IH; [exact Hnew' |].
      eapply analyze_features_origin; [| exact Hall | exact Hd].
      intros h fi Hname. apply (Hnew h ext_values fi); [| exact Hlen].
      left. rewrite Hname. reflexivity.
    + apply IH; [exact Hnew' | exact Hall].
Qed.

(** X24. Every hypothesis that [analyze_correlations] returns comes from
    an external series of the length of [signals] and a feature that has
    a name: its correlation is the correlation of the two, lies in
    [-1, 1] and reaches the minimum correlation, its dependent variable is
    the name of the feature (the fallback name [feature_<i>] never
    appears), its sample size is the number of signals and its status is
    "proposed".  The list is stable-sorted by descending absolute
    correlation and appended to the log of the generator. *)
Theorem analyze_correlations_origin (self self' : HypothesisGenerator)
    (signals : list (list R)) (external_data : list (string * list R))
    (feature_names : list string) (discovered : list HypothesisEntry) :
  analyze_correlations format_3f self signals external_data feature_names
  = Ok (discovered, self') ->
  StronglySorted stronger_first discovered
  /\ Forall (hypothesis_origin self signals external_data feature_names)
            discovered
  /\ Forall (fun h => -1 <= correlation h <= 1
                      /\ In (dependent_variable h) feature_names) discovered
  /\ hypotheses self' = hypotheses self ++ discovered
  /\ min_sample_size self' = min_sample_size self
  /\ min_correlation self' = min_correlation self.
Proof.
  unfold analyze_correlations.
  destruct (negb (rectangular signals)); [discriminate |].
  destruct (analyze_series format_3f self signals external_data feature_names [])
    as [found |] eqn:Hfound; [| discriminate].
  simpl. intros H; inversion H; subst; clear H. simpl.
  assert (Hall : Forall (hypothesis_origin self signals external_data
                           feature_names) found).
  { eapply analyze_series_origin; [| constructor | exact Hfound].
    intros h ev fi Hin Hlen Hc Hmin Hnm Hss Hpa Hst.
    exists ev, fi. repeat split; assumption. }
  assert (Hsorted : Forall (hypothesis_origin self signals external_data
                              feature_names) (sort_desc found)).
  { rewrite Forall_forall in *. intros h Hh. apply Hall.
    apply sort_desc_In. exact Hh. }
  split; [apply sort_desc_sorted |]. split; [exact Hsorted |].
  split; [| repeat split].
  eapply Forall_impl; [| exact Hsorted]. simpl.
  intros h (ev & fi & _ & _ & Hc & _ & Hnm & _).
  split; [exact (np_corrcoef_bounds _ _ Hc) |].
  eapply nth_error_In. exact Hnm.
Qed.

End HypothesisOrigin.

(** The run of [analyze_correlations] on three signals that follow the
    air quality exactly. *)
Lemma analyze_ramp_run (format_3f : R -> string) :
  exists h self',
    analyze_correlations format_3f HypothesisGenerator_init three_signals
      air_quality_data ["respiratory_noise"%string] = Ok ([h], self').
Proof.
  unfold analyze_correlations, three_signals, air_quality_data.
  cbn [rectangular forallb List.length Nat.eqb andb negb].
  cbn [analyze_series List.length Nat.eqb negb seq analyze_features bind].
  unfold analyze_feature, column. cbn [map nth].
  rewrite np_corrcoef_ramp.
  cbn [min_correlation HypothesisGenerator_init].
  destruct (Rle_dec (5 / 10) (Rabs 1)) as [_ | H];
    [| exfalso; apply H; rewrite Rabs_R1; lra].
  cbn [nth_error bind app sort_desc fold_right insert_desc].
  eexists _, _. reflexivity.
Qed.

Lemma analyze_correlations_origin_witness :
  exists discovered self',
    analyze_correlations format_placeholder HypothesisGenerator_init
      three_signals air_quality_data ["respiratory_noise"%string]
    = Ok (discovered, self')
    /\ StronglySorted stronger_first discovered
    /\ Forall (hypothesis_origin HypothesisGenerator_init three_signals
                 air_quality_data ["respiratory_noise"%string]) discovered
    /\ Forall (fun h => -1 <= correlation h <= 1
                        /\ In (dependent_variable h)
                              ["respiratory_noise"%string]) discovered
    /\ hypotheses self' = hypotheses HypothesisGenerator_init ++ discovered
    /\ min_sample_size self' = min_sample_size HypothesisGenerator_init
    /\ min_correlation self' = min_correlation HypothesisGenerator_init.
Proof.
  destruct (analyze_ramp_run format_placeholder) as (h & self' & Hrun).
  exists [h], self'. split; [exact Hrun |].
  exact (@analyze_correlations_origin format_placeholder
           HypothesisGenerator_init self' three_signals air_quality_data
           ["respiratory_noise"%string] [h] Hrun).
Defined.

Section HypothesisEdges.

Variable format_3f : R -> string.

Lemma analyze_series_filter (self : HypothesisGenerator)
    (signals : list (list R)) (external_data : list (string * list R))
    (feature_names : list string) (discovered : list HypothesisEntry) :
  analyze_series format_3f self signals external_data feature_names discovered
  = analyze_series format_3f self signals
      (matching_series signals external_data) feature_names discovered.
Proof.
  revert discovered.
  induction external_data as [| [ext_name ext_values] rest IH];
    intros discovered; simpl; [reflexivity |].
  destruct (Nat.eqb_spec (List.length ext_values) (List.length signals))
    as [Hlen | Hlen]; simpl.
  - destruct (Nat.eqb_spec (List.length ext_values) (List.length signals));
      [| contradiction]. simpl.
    destruct signals as [| row signals']; [reflexivity |].
    destruct (analyze_features format_3f self (row :: signals') ext_name
                ext_values feature_names (seq 0 (List.length row)) discovered);
      simpl; [apply IH | reflexivity].
  - apply IH.
Qed.

(** X26. Series of another length than [signals] count for nothing:
    [analyze_correlations] gives the same outcome, result or error, on
    [external_data] and on [external_data] without them. *)
Theorem mismatched_series_ignored (self : HypothesisGenerator)
    (signals : list (list R)) (external_data : list (string * list R))
    (feature_names : list string) :
  analyze_correlations format_3f self signals external_data feature_names
  = analyze_correlations format_3f self signals
      (matching_series signals external_data) feature_names.
Proof.
  unfold analyze_correlations. rewrite analyze_series_filter. reflexivity.
Qed.

Lemma analyze_features_errors (self : HypothesisGenerator)
    (signals : list (list R)) (ext_name : string) (ext_values : list R)
    (feature_names : list string) (feat_idxs : list nat)
    (discovered : list HypothesisEntry) (e : exn) :
  analyze_features format_3f self signals ext_name ext_values feature_names
                   feat_idxs discovered = Raise e ->
  e = IndexError.
Proof.
  revert discovered. induction feat_idxs as [| i feat_idxs IH];
    intros discovered; simpl; [discriminate |].
  destruct (analyze_feature format_3f self signals ext_name ext_values
              feature_names discovered i) as [d' | e'] eqn:Hd; simpl.
  - apply IH.
  - intros H; inversion H; subst. revert Hd. unfold analyze_feature.
    destruct (np_corrcoef (column signals i) ext_values); [| discriminate].
    destruct (Rle_dec (min_correlation self) (Rabs r)); [| discriminate].
    destruct (nth_error feature_names i); [discriminate |].
    intros H'; inversion H'; reflexivity.
Qed.

Lemma analyze_series_errors (self : HypothesisGenerator)
    (signals : list (list R)) (external_data : list (string * list R))
    (feature_names : list string) (discovered : list HypothesisEntry) (e : exn) :
  analyze_series format_3f self signals external_data feature_names discovered
  = Raise e ->
  e = IndexError.
Proof.
  revert discovered.
  induction external_data as [| [ext_name ext_values] rest IH];
    intros discovered; simpl; [discriminate |].
  destruct (negb (List.length ext_values =? List.length signals)%nat);
    [apply IH |].
  destruct signals as [| row signals'];
    [intros H; inversion H; reflexivity |].
  destruct (analyze_features format_3f self (row :: signals') ext_name
              ext_values feature_names (seq 0 (List.length row)) discovered)
    as [d' | e'] eqn:Hd; simpl.
  - apply IH.
  - intros H; inversion H; subst. exact (analyze_features_errors _ _ _ _ _ _ _ Hd).
Qed.

(** X27. Feature names are not optional.  Without feature names
    [analyze_correlations] never returns a hypothesis: on signals of equal
    lengths it returns the empty list and leaves the log as it was, or it
    raises [IndexError], which is the only error it raises on such
    signals; signals of unequal lengths raise [ValueError]. *)
Theorem analyze_correlations_without_names (self : HypothesisGenerator)
    (signals : list (list R)) (external_data : list (string * list R)) :
  (rectangular signals = false ->
   forall feature_names,
     analyze_correlations format_3f self signals external_data feature_names
     = Raise ValueError)
  /\ (rectangular signals = true ->
      (forall feature_names e,
          analyze_correlations format_3f self signals external_data
                               feature_names = Raise e ->
          e = IndexError)
      /\ ((exists self',
              analyze_correlations format_3f self signals external_data []
              = Ok ([], self')
              /\ hypotheses self' = hypotheses self)
          \/ analyze_correlations format_3f self signals external_data []
             = Raise IndexError)).
Proof.
  split.
  - intros Hrect feature_names. unfold analyze_correlations.
    rewrite Hrect. reflexivity.
  - intros Hrect. split.
    + intros feature_names e. unfold analyze_correlations. rewrite Hrect.
      simpl negb. cbv iota.
      destruct (analyze_series format_3f self signals external_data
                  feature_names []) as [found | e'] eqn:Hfound; simpl;
        [discriminate |].
      intros H; inversion H; subst.
      exact (analyze_series_errors _ _ _ _ _ Hfound).
    + unfold analyze_correlations. rewrite Hrect. simpl negb. cbv iota.
      destruct (analyze_series format_3f self signals external_data [] [])
        as [found | e'] eqn:Hfound; simpl.
      * left.
        assert (Hnone : Forall (fun _ : HypothesisEntry => False) found).
        { eapply analyze_series_origin; [| constructor | exact Hfound].
          intros h ev fi _ _ _ _ Hnm. destruct fi; discriminate Hnm. }
        destruct found as [| h found'];
          [| inversion Hnone; contradiction].
        eexists. split; [reflexivity |]. simpl. apply app_nil_r.
      * right. rewrite (analyze_series_errors _ _ _ _ _ Hfound). reflexivity.
Qed.

End HypothesisEdges.

Lemma idx_to_action_confidence (config : RLConfig) (rnd : nat) (idx : Z) (c : R)
    (a : Action) :
  _idx_to_action config rnd idx c = Ok a -> confidence a = sigmoid c.
Proof.
  unfold _idx_to_action.
  destruct (find_boundary (action_boundaries config) 0 idx) as [[i l] |];
    [| discriminate].
  destruct (nth_error ActionType_members i) as [ty |]; [| discriminate].
  destruct ty.
  - destruct (catalog_get NUTRIENT_CATALOG l) as [[[[n d] f] t] |];
      intros H; inversion H; reflexivity.
  - destruct (catalog_get EXERCISE_CATALOG l) as [[[n d] f] |];
      intros H; inversion H; reflexivity.
  - intros H; inversion H; reflexivity.
  - intros H; inversion H; reflexivity.
Qed.

Lemma idx_to_action_in_range (config : RLConfig) (rnd : nat) (idx : Z) (c : R) :
  (0 <= idx < total_actions config)%Z ->
  exists a,
    _idx_to_action config rnd idx c = Ok a
    /\ _action_to_idx config a = idx
    /\ confidence a = sigmoid c.
Proof.
  intros Hidx.
  destruct (find_boundary_cases config idx)
    as [(k & ty & Hfind & Hty & Hin) | (_ & Hnone)].
  - destruct (idx_to_action_found config rnd idx c Hfind Hty)
      as (a & Ha & Hat & Hid).
    exists a. split; [exact Ha |].
    split; [| exact (idx_to_action_confidence _ _ _ _ Ha)].
    rewrite action_to_idx_range_start, Hat, Hid. lia.
  - destruct (ranges_cover config Hidx) as (ty & Hin).
    exfalso. exact (Hnone ty Hin).
Qed.

Lemma tensor_getitem_in_range (v : list R) (i : nat) :
  (i < List.length v)%nat -> tensor_getitem v (Z.of_nat i) = Ok (nth i v 0).
Proof.
  intros Hi. unfold tensor_getitem.
  destruct (Z.ltb_spec (Z.of_nat i) 0); [lia |].
  destruct (Z.leb_spec 0 (Z.of_nat i)); [| lia].
  destruct (Z.ltb_spec (Z.of_nat i) (Z.of_nat (List.length v))); [| lia].
  simpl. rewrite Nat2Z.id.
  destruct (nth_error v i) as [x |] eqn:Hx.
  - rewrite (nth_error_nth _ _ 0 Hx). reflexivity.
  - apply nth_error_None in Hx. lia.
Qed.

Section SelectionProperties.

Variable StateEncoder_forward : list R -> State -> list R.
Variable QNetwork_forward : list R -> list R -> list R.

(** X28. Epsilon-greedy selection.  When the online network returns one
    value per action of a non-empty action space and the random integer is
    one [random.randint] can draw, [select_action] returns an action whose
    global index is the index chosen and whose confidence is the sigmoid
    of the value of that index; the index is the random integer when the
    random number falls below [epsilon], and otherwise the first position
    of the largest value. *)
Theorem select_action_epsilon_greedy (agent : PrescriptionAgent)
    (state : State) (u : R) (k : Z) (rnd : nat) :
  let q_values :=
    QNetwork_forward (q_network_parameters agent)
      (StateEncoder_forward (state_encoder_parameters agent) state) in
  (0 < total_actions (config agent))%Z ->
  List.length q_values = Z.to_nat (total_actions (config agent)) ->
  (0 <= k < total_actions (config agent))%Z ->
  exists idx a,
    select_action_idx StateEncoder_forward QNetwork_forward agent state u k
    = Ok (Z.of_nat idx)
    /\ select_action StateEncoder_forward QNetwork_forward agent state u k rnd
       = Ok a
    /\ (idx < List.length q_values)%nat
    /\ _action_to_idx (config agent) a = Z.of_nat idx
    /\ confidence a = sigmoid (nth idx q_values 0)
    /\ (u < epsilon agent -> Z.of_nat idx = k)
    /\ (~ u < epsilon agent ->
        (forall j, (j < List.length q_values)%nat ->
                   nth j q_values 0 <= nth idx q_values 0)
        /\ (forall j, (j < idx)%nat -> nth j q_values 0 < nth idx q_values 0)).
Proof.
  intros q_values Htotal Hlen Hk.
  assert (Hchoice : exists idx,
             select_action_idx StateEncoder_forward QNetwork_forward agent
                               state u k = Ok (Z.of_nat idx)
             /\ (idx < List.length q_values)%nat
             /\ (u < epsilon agent -> Z.of_nat idx = k)
             /\ (~ u < epsilon agent ->
                 (forall j, (j < List.length q_values)%nat ->
                            nth j q_values 0 <= nth idx q_values 0)
                 /\ (forall j, (j < idx)%nat ->
                               nth j q_values 0 < nth idx q_values 0))).
  { unfold select_action_idx. fold q_values.
    destruct (Rlt_dec u (epsilon agent)) as [Hu | Hu].
    - exists (Z.to_nat k). unfold random_randint.
      destruct (Z.ltb_spec (Z.of_nat (List.length q_values) - 1) 0); [lia |].
      rewrite Z2Nat.id by lia.
      split; [reflexivity |]. split; [lia |].
      split; [intros _; reflexivity | intros Hnot; contradiction].
    - assert (Hrow : q_values <> []).
      { intros Heq. rewrite Heq in Hlen. simpl in Hlen. lia. }
      destruct (argmax_spec Hrow) as (best & Hbest & Hlt & Hmax & Hfirst).
      exists best. rewrite Hbest. simpl.
      split; [reflexivity |]. split; [exact Hlt |].
      split; [intros Hyes; contradiction | intros _; split; assumption]. }
  destruct Hchoice as (idx & Hidx & Hlt & Hexplore & Hgreedy).
  destruct (@idx_to_action_in_range (config agent) rnd (Z.of_nat idx)
              (nth idx q_values 0)) as (a & Ha & Hround & Hconf); [lia |].
  exists idx, a. split; [exact Hidx |].
  split.
  - unfold select_action. fold q_values. rewrite Hidx. simpl.
    rewrite (tensor_getitem_in_range q_values Hlt). simpl. exact Ha.
  - repeat split; try assumption; apply Hgreedy; assumption.
Qed.

End SelectionProperties.

Lemma select_action_epsilon_greedy_witness :
  let agent := drifted_agent in
  let q_values :=
    ramp_network (q_network_parameters agent)
      (signal_encoder (state_encoder_parameters agent) dummy_state) in
  exists idx a,
    select_action_idx signal_encoder ramp_network agent dummy_state 2 7
    = Ok (Z.of_nat idx)
    /\ select_action signal_encoder ramp_network agent dummy_state 2 7 0 = Ok a
    /\ (idx < List.length q_values)%nat
    /\ _action_to_idx (config agent) a = Z.of_nat idx
    /\ confidence a = sigmoid (nth idx q_values 0)
    /\ (2 < epsilon agent -> Z.of_nat idx = 7%Z)
    /\ (~ 2 < epsilon agent ->
        (forall j, (j < List.length q_values)%nat ->
                   nth j q_values 0 <= nth idx q_values 0)
        /\ (forall j, (j < idx)%nat -> nth j q_values 0 < nth idx q_values 0)).
Proof.
  intros agent q_values.
  apply (@select_action_epsilon_greedy signal_encoder ramp_network agent
           dummy_state 2 7 0).
  - unfold total_actions; simpl; lia.
  - unfold ramp_network. rewrite length_map, length_seq. reflexivity.
  - unfold total_actions; simpl; lia.
Defined.

(** ** Soft update *)

Lemma soft_update_loop_nth (tau : R) (target online : list R) (i : nat) :
  List.length target = List.length online ->
  (i < List.length target)%nat ->
  nth i (soft_update_loop tau target online) 0
  = soft_update_param tau (nth i target 0) (nth i online 0).
Proof.
  revert online i. induction target as [| t target IH];
    intros [| p online] i Hlen Hi; simpl in *; try lia.
  destruct i as [| i]; [reflexivity |].
  apply IH; lia.
Qed.

Lemma float32_zero : float32 0 = 0.
Proof.
  unfold float32, round_float.
  destruct (Req_dec_T 0 0); [reflexivity | contradiction].
Qed.

Lemma float64_zero : float64 0 = 0.
Proof.
  unfold float64, round_float.
  destruct (Req_dec_T 0 0); [reflexivity | contradiction].
Qed.

Lemma float32_one : float32 1 = 1.
Proof.
  unfold float32.
  rewrite (@round_float_nearest 24 (-149) 1 0 1 (-23) 23 8388608);
    try reflexivity.
  - eval_pow2. lra.
  - left. eval_pow2. lra.
  - eval_pow2. lra.
Qed.

Lemma float64_one : float64 1 = 1.
Proof.
  unfold float64.
  rewrite (@round_float_nearest 53 (-1074) 1 0 1 (-52) 52 4503599627370496);
    try reflexivity.
  - eval_pow2. lra.
  - left. eval_pow2. lra.
  - eval_pow2. lra.
Qed.

(** 3.0 is a float32 number. *)
Example float32_number_three : float32_number 3.
Proof.
  unfold float32_number, float32.
  rewrite (@round_float_nearest 24 (-149) 3 1 2 (-22) 22 12582912);
    try reflexivity.
  - eval_pow2. lra.
  - left. eval_pow2. lra.
  - eval_pow2. lra.
Qed.

Lemma soft_update_param_copy (t p : R) :
  float32_number p -> soft_update_param 1 t p = p.
Proof.
  unfold float32_number, soft_update_param. intros Hp.
  replace (1 - 1) with 0 by ring.
  rewrite float64_zero, float32_zero, float32_one, Rmult_1_l, Rmult_0_l.
  rewrite float32_zero, Hp, Rplus_0_r. exact Hp.
Qed.

Lemma soft_update_param_keep (t p : R) :
  float32_number t -> soft_update_param 0 t p = t.
Proof.
  unfold float32_number, soft_update_param. intros Ht.
  replace (1 - 0) with 1 by ring.
  rewrite float64_one, float32_zero, float32_one, Rmult_1_l, Rmult_0_l.
  rewrite float32_zero, Ht, Rplus_0_l. exact Ht.
Qed.

Lemma soft_update_loop_copy (target online : list R) :
  List.length target = List.length online ->
  Forall float32_number online ->
  soft_update_loop 1 target online = online.
Proof.
  intros Hlen Hall. revert target Hlen.
  induction Hall as [| p online Hp _ IH]; intros [| t target] Hlen;
    simpl in *; try lia; [reflexivity |].
  rewrite IH by lia. rewrite soft_update_param_copy by exact Hp.
  reflexivity.
Qed.

Lemma soft_update_loop_keep (target online : list R) :
  Forall float32_number target ->
  soft_update_loop 0 target online = target.
Proof.
  intros Hall. revert online.
  induction Hall as [| t target Ht _ IH]; intros [| p online]; simpl;
    try reflexivity.
  rewrite IH. rewrite soft_update_param_keep by exact Ht. reflexivity.
Qed.

(** X30. A soft update follows the interpolation up to the float32
    roundings.  With [tau] in [0, 1], parameters within the range of
    float32 and two networks of the same number of parameters, every
    updated target parameter is within [2^-22] of the larger magnitude of
    the pair (and [2^-148]) of [t + tau * (p - t)], the point at the
    fraction [tau] of the way from the old value to the online parameter;
    it can lie outside the two by that much.  The number of parameters is
    kept; on float32 numbers [tau = 1] copies the online network exactly
    and [tau = 0] changes nothing. *)
Theorem soft_update_interpolates (agent : PrescriptionAgent) (i : nat) :
  0 <= tau (config agent) <= 1 ->
  Forall float32_range (target_network_parameters agent) ->
  Forall float32_range (q_network_parameters agent) ->
  List.length (target_network_parameters agent)
  = List.length (q_network_parameters agent) ->
  (i < List.length (target_network_parameters agent))%nat ->
  let t := nth i (target_network_parameters agent) 0 in
  let p := nth i (q_network_parameters agent) 0 in
  let t' := nth i (target_network_parameters (_soft_update agent)) 0 in
  Rabs (t' - (t + tau (config agent) * (p - t)))
  <= pow2 (-22) * Rmax (Rabs t) (Rabs p) + pow2 (-148)
  /\ List.length (target_network_parameters (_soft_update agent))
     = List.length (target_network_parameters agent)
  /\ (tau (config agent) = 1 ->
      Forall float32_number (q_network_parameters agent) ->
      target_network_parameters (_soft_update agent)
      = q_network_parameters agent)
  /\ (tau (config agent) = 0 ->
      Forall float32_number (target_network_parameters agent) ->
      target_network_parameters (_soft_update agent)
      = target_network_parameters agent).
Proof.
  intros Htau _ _ Hlen Hi. cbv zeta. unfold _soft_update.
  cbn [target_network_parameters].
  rewrite (soft_update_loop_nth _ _ _ Hlen Hi).
  split; [apply soft_update_param_interpolates; exact Htau |].
  split; [apply soft_update_loop_length |]. split.
  - intros H1 Hall. rewrite H1. apply soft_update_loop_copy; assumption.
  - intros H0 Hall. rewrite H0. apply soft_update_loop_keep. exact Hall.
Qed.

Lemma soft_update_interpolates_witness :
  let agent := drifted_agent in
  let t := nth 1 (target_network_parameters agent) 0 in
  let p := nth 1 (q_network_parameters agent) 0 in
  let t' := nth 1 (target_network_parameters (_soft_update agent)) 0 in
  Rabs (t' - (t + tau (config agent) * (p - t)))
  <= pow2 (-22) * Rmax (Rabs t) (Rabs p) + pow2 (-148)
  /\ List.length (target_network_parameters (_soft_update agent))
     = List.length (target_network_parameters agent)
  /\ (tau (config agent) = 1 ->
      Forall float32_number (q_network_parameters agent) ->
      target_network_parameters (_soft_update agent)
      = q_network_parameters agent)
  /\ (tau (config agent) = 0 ->
      Forall float32_number (target_network_parameters agent) ->
      target_network_parameters (_soft_update agent)
      = target_network_parameters agent).
Proof.
  intros agent.
  apply (@soft_update_interpolates agent 1).
  - simpl; lra.
  - repeat constructor; unfold float32_range;
      rewrite Rabs_pos_eq by lra; eval_pow2; lra.
  - repeat constructor; unfold float32_range;
      rewrite Rabs_pos_eq by lra; eval_pow2; lra.
  - reflexivity.
  - simpl; lia.
Defined.
